(** * Branta: population-based grammar search (branta/search.py)

    A shallow embedding of [search.py]: the scorer, the seed builder
    [init_grammar], the four mutation operators and the generation loop
    with its bounded, score-sorted population.

    The file has four parts: the embedding of the program; the vocabulary
    its properties are stated in; the properties, proved for every grammar
    engine, every way of minting names and every tape of random draws; and
    executable instances with concrete runs.

    Conventions of the embedding.
    - Python exceptions are values of [exn]; a computation that may raise
      has type [result A].
    - A Python float is represented by the rational number it denotes, and
      every float operation rounds its exact result to the nearest number
      with a 53-bit significand, ties to even, as binary64 does. The
      exponent range is not modelled: the scorer's values lie between
      [0.25 / (len(positives) * len(negatives))] and 1, and a list is
      shorter than 2^63, so none of them leaves the normal range.
    - Every call of the [random] module consumes one natural number of an
      arbitrary tape; [random.choice l] with draw [r] is [l[r mod len l]],
      so every element is a possible outcome and no other is.
    - Cache flags ([cached_str_valid], [cache_valid]) do not influence any
      value computed here and are left out, as are the [print] calls and
      the parameter [oracle] of [search], which its body never reads. *)

From Stdlib Require Import List String Ascii Arith Lia ZArith QArith Qminmax Lqa.
From Stdlib Require Import Qround Qpower Qabs Qreduction.
From Stdlib Require Import Permutation Sorted Bool DecimalString DecimalNat.
Import ListNotations.
Open Scope string_scope.
Open Scope nat_scope.

(** ** Exceptions and fallible computations *)

Inductive exn : Type :=
| IndexError
| ZeroDivisionError
| KeyError
| ValueError
| AssertionError
| GrammarError
| ParseError.

Inductive result (A : Type) : Type :=
| Ok (a : A)
| Raise (e : exn).

Arguments Ok {A} a.
Arguments Raise {A} e.

Definition bind {A B : Type} (c : result A) (k : A -> result B) : result B :=
  match c with
  | Ok a => k a
  | Raise e => Raise e
  end.

Notation "x <- c ;; k" := (bind c (fun x => k))
  (at level 61, c at next level, right associativity).

Definition raises {A : Type} (c : result A) : Prop :=
  exists e, c = Raise e.

(** ** Fragments of the Python runtime *)

(** [random.choice(seq)]: [IndexError] on an empty sequence, otherwise the
    element at the drawn index. *)
Definition random_choice {A : Type} (r : nat) (l : list A) : result A :=
  match l with
  | [] => Raise IndexError
  | x :: _ => Ok (nth (r mod List.length l) l x)
  end.

(** [range(lo, hi)]. *)
Definition range (lo hi : nat) : list nat := seq lo (hi - lo).

(** [l.remove(x)]: drops the first occurrence only; [ValueError] if there
    is none. *)
Fixpoint list_remove (x : string) (l : list string) : result (list string) :=
  match l with
  | [] => Raise ValueError
  | y :: l' =>
      if String.eqb y x then Ok l'
      else (l'' <- list_remove x l' ;; Ok (y :: l''))
  end.

(** [l[:i] + [x] + l[i+1:]] and [l[i] = x] on a copy, for [i < len l]. *)
Definition set_nth {A : Type} (i : nat) (x : A) (l : list A) : list A :=
  firstn i l ++ x :: skipn (S i) l.

(** [l.insert(i, x)]. *)
Definition list_insert {A : Type} (i : nat) (x : A) (l : list A) : list A :=
  firstn i l ++ x :: skipn i l.

(** [random.sample(l, k)] for [k <= len l]: [k] successive draws without
    replacement. *)
Fixpoint random_sample {A : Type} (draws : nat -> nat) (k : nat) (l : list A)
  : list A :=
  match k, l with
  | 0, _ => []
  | S _, [] => []
  | S k', x :: _ =>
      let i := draws 0 mod List.length l in
      nth i l x :: random_sample (fun n => draws (S n)) k' (firstn i l ++ skipn (S i) l)
  end.

(** The double quote that wraps a terminal. *)
Definition dquote : ascii := "034"%char.

Definition quoted (c : ascii) : string :=
  String dquote (String c (String dquote EmptyString)).

(** The f-string [f't{idx}']. *)
Definition t_name (idx : nat) : string :=
  String "t" (NilEmpty.string_of_uint (Nat.to_uint idx)).

(** ** Grammar model *)

Definition Symbol := string.
Definition Body := list Symbol.

(** Modelled from the spec: the class [Rule] of grammar.py, which is not
    among the sources. A rule is a nonterminal name plus an ordered list of
    bodies; [Rule(name)] has no body and [add_body] appends one and returns
    the rule. *)
Record Rule : Type := mkRule { start : string; bodies : list Body }.

(** Modelled from the spec: the constructor [Rule(name)] of grammar.py,
    a rule with no body yet. *)
Definition Rule_new (name : string) : Rule := mkRule name [].

(** Modelled from the spec: [Rule.add_body] of grammar.py appends the body
    to the alternatives and returns the rule, so that calls chain. *)
Definition add_body (body : Body) (rule : Rule) : Rule :=
  mkRule (start rule) (bodies rule ++ [body]).

(** Modelled from the spec: the class [Grammar] of grammar.py, which is not
    among the sources. [rules] is the mapping from nonterminal name to rule,
    kept in insertion order as a Python dict is and keyed by each rule's
    own name; [Grammar(entry)] holds the single rule [start -> entry];
    [add_rule] adds the rule or replaces the one of the same name in
    place; [copy] is a deep copy. *)
Record Grammar : Type := mkGrammar { rules : list Rule }.

(** Modelled from the spec: the constructor [Grammar(entry)] of
    grammar.py, which installs the distinguished rule [start] with the
    single body [[entry]]. *)
Definition Grammar_new (entry : Symbol) : Grammar :=
  mkGrammar [add_body [entry] (Rule_new "start")].

(** [rules[rule.start] = rule] on the ordered mapping: an existing key
    keeps its place, a new one goes last. *)
Fixpoint add_rule_list (rule : Rule) (rs : list Rule) : list Rule :=
  match rs with
  | [] => [rule]
  | r :: rs' =>
      if String.eqb (start r) (start rule) then rule :: rs'
      else r :: add_rule_list rule rs'
  end.

(** Modelled from the spec: [Grammar.add_rule] of grammar.py, the
    operation the documentation calls add-or-replace. *)
Definition add_rule (rule : Rule) (g : Grammar) : Grammar :=
  mkGrammar (add_rule_list rule (rules g)).

(** [grammar.rules.keys()]; [grammar.rules.values()] is [rules g]. *)
Definition keys (g : Grammar) : list string := map start (rules g).

(** [grammar.rules[key]]. *)
Definition get_rule (g : Grammar) (key : string) : result Rule :=
  match find (fun r => String.eqb (start r) key) (rules g) with
  | Some r => Ok r
  | None => Raise KeyError
  end.

(** Modelled from the spec: [Grammar.copy] of grammar.py, a deep copy
    that shares no mutable state with the original; on values it is the
    identity. *)
Definition copy (g : Grammar) : Grammar := g.

(** [l[i]] for a list of bodies or of symbols. *)
Definition get_nth {A : Type} (l : list A) (i : nat) : result A :=
  match nth_error l i with
  | Some x => Ok x
  | None => Raise IndexError
  end.

(** [grammar.rules['start'].bodies[0][0]], the entry symbol every mutation
    operator reads first. *)
Definition entry_symbol (g : Grammar) : result Symbol :=
  r <- get_rule g "start" ;;
  b <- get_nth (bodies r) 0 ;;
  get_nth b 0.

(** What the constructor and [add_rule] maintain: names are unique (they
    are dict keys) and the first rule is the synthetic [start] rule, whose
    first body is not empty. *)
Definition wf_grammar (g : Grammar) : Prop :=
  NoDup (keys g) /\
  exists s b bs rest, rules g = mkRule "start" ((s :: b) :: bs) :: rest.

(** ** The external grammar engine

    [grammar.parser()] compiles the grammar with Lark and [parser.parse]
    runs it; both belong to collaborators outside search.py and both may
    raise. *)
Class Engine : Type := {
  Lark : Type;
  Grammar_parser : Grammar -> result Lark;
  Lark_parse : Lark -> string -> result unit
}.

(** ** Binary floating point

    A Python float is represented by the rational number it denotes.
    Every float operation returns its exact result rounded to the nearest
    number with a 53-bit significand, ties to the even significand (the
    binary64 rule). *)

(** The integer part of the base-2 logarithm of a positive rational. *)
Definition Qlog2 (q : Q) : Z :=
  let c := (Z.log2 (Qnum q) - Z.log2 (Zpos (Qden q)))%Z in
  if Qle_bool (2 ^ c) q then c else (c - 1)%Z.

(** Rounding to the nearest integer, ties to the even one. *)
Definition round_half_even (x : Q) : Z :=
  let f := Qfloor x in
  match Qcompare (x - inject_Z f) (1 # 2) with
  | Lt => f
  | Gt => (f + 1)%Z
  | Eq => if Z.even f then f else (f + 1)%Z
  end.

(** The exponent of the last place of the 53-bit significand of [q]. *)
Definition fexp (q : Q) : Z := (Qlog2 q - 52)%Z.

Definition round_pos (q : Q) : Q :=
  inject_Z (round_half_even (q / 2 ^ fexp q)) * 2 ^ fexp q.

(** The float nearest to [q]. *)
Definition rnd (q : Q) : Q :=
  match Qnum q with
  | Z0 => 0
  | Zpos _ => Qred (round_pos q)
  | Zneg _ => Qred (- round_pos (- q))
  end.

(** [float(n)], the conversion an int undergoes when it meets a float. *)
Definition float_of_nat (n : nat) : Q := rnd (inject_Z (Z.of_nat n)).

(** [a - b] and [a * b] on floats. *)
Definition float_sub (a b : Q) : Q := rnd (a - b).
Definition float_mul (a b : Q) : Q := rnd (a * b).

(** ** Scorer *)

Record Scorer : Type := mkScorer {
  positives : list string;
  negatives : list string
}.

(** [a / n] on two ints: true division, the correctly rounded quotient. *)
Definition truediv (a n : nat) : result Q :=
  match n with
  | 0 => Raise ZeroDivisionError
  | S _ => Ok (rnd (inject_Z (Z.of_nat a) / inject_Z (Z.of_nat n)))
  end.

(** [x / n] on a float and an int: the int is converted first. *)
Definition float_div (x : Q) (n : nat) : result Q :=
  match n with
  | 0 => Raise ZeroDivisionError
  | S _ => Ok (rnd (x / float_of_nat n))
  end.

(** [a > b] on scores. *)
Definition Qgtb (a b : Q) : bool := negb (Qle_bool a b).

(** [max([a, b])]: the first of the largest elements. *)
Definition max2 (a b : Q) : Q := if Qgtb b a then b else a.

Section Scoring.

Context {engine : Engine}.

(** The nested helper [parses]: the parser is obtained before the [try],
    only [parser.parse] runs inside it. *)
Definition parses (grammar : Grammar) (input : string) : result bool :=
  parser <- Grammar_parser grammar ;;
  match Lark_parse parser input with
  | Ok _ => Ok true
  | Raise _ => Ok false
  end.

(** [sum([1 for x in examples if parses(grammar, x)])]. *)
Fixpoint count_parsed (grammar : Grammar) (examples : list string) : result nat :=
  match examples with
  | [] => Ok 0
  | x :: rest =>
      b <- parses grammar x ;;
      n <- count_parsed grammar rest ;;
      Ok ((if b then 1 else 0) + n)
  end.

Definition score (self : Scorer) (grammar : Grammar) : result Q :=
  num_positives_matched <- count_parsed grammar (positives self) ;;
  p1 <- truediv num_positives_matched (List.length (positives self)) ;;
  p2 <- float_div (1 # 2)%Q (List.length (positives self)) ;;
  let positive_score := max2 p1 p2 in
  num_negatives_matched <- count_parsed grammar (negatives self) ;;
  n1 <- truediv num_negatives_matched (List.length (negatives self)) ;;
  n2 <- float_div (1 # 2)%Q (List.length (negatives self)) ;;
  let negative_score := max2 (float_sub 1 n1) n2 in
  Ok (float_mul positive_score negative_score).

Definition score_is_good (s : Q) : bool := Qle_bool 1 s.

End Scoring.

(** ** Seed builder *)

(** Iteration over a Python [set] of strings built from a list: every
    distinct element once, in an order the language leaves open. *)
Class PySet : Type := {
  set_iter : list string -> list string;
  set_iter_perm : forall l, Permutation (set_iter l) (nodup string_dec l)
}.

(** [enumerate(l)]. *)
Definition enumerate {A : Type} (l : list A) : list (nat * A) :=
  combine (seq 0 (List.length l)) l.

(** A dict from strings to strings: [d[k] = v] and [d[k]]. *)
Fixpoint dict_set (k v : string) (d : list (string * string)) : list (string * string) :=
  match d with
  | [] => [(k, v)]
  | (k', v') :: d' =>
      if String.eqb k' k then (k, v) :: d' else (k', v') :: dict_set k v d'
  end.

Fixpoint dict_get (d : list (string * string)) (k : string) : result string :=
  match d with
  | [] => Raise KeyError
  | (k', v) :: d' => if String.eqb k' k then Ok v else dict_get d' k
  end.

Fixpoint map_result {A B : Type} (f : A -> result B) (l : list A) : result (list B) :=
  match l with
  | [] => Ok []
  | x :: l' => y <- f x ;; ys <- map_result f l' ;; Ok (y :: ys)
  end.

(** ['"' + c + '"' for guide in guides for c in guide]. *)
Definition guide_chars (guides : list string) : list string :=
  flat_map (fun guide => map quoted (list_ascii_of_string guide)) guides.

(** The first loop of [init_grammar]: one leaf rule and one [char_map]
    entry per element of [all_chars]. *)
Definition add_leaves (all_chars : list string) (g : Grammar)
  : Grammar * list (string * string) :=
  fold_left
    (fun acc ic =>
       let idx := fst ic + 1 in
       (add_rule (add_body [snd ic] (Rule_new (t_name idx))) (fst acc),
        dict_set (snd ic) (t_name idx) (snd acc)))
    (enumerate all_chars) (g, []).

(** The second loop: one body per guide, appended to [init_rule]. *)
Fixpoint add_guides (char_map : list (string * string)) (guides : list string)
  (init_rule : Rule) : result Rule :=
  match guides with
  | [] => Ok init_rule
  | guide :: rest =>
      body <- map_result (fun c => dict_get char_map (quoted c))
                         (list_ascii_of_string guide) ;;
      add_guides char_map rest (add_body body init_rule)
  end.

Definition init_grammar {pyset : PySet} (guides : list string) : result Grammar :=
  let all_chars := set_iter (guide_chars guides) in
  let '(g, char_map) := add_leaves all_chars (Grammar_new "t0") in
  init_rule <- add_guides char_map guides (Rule_new "t0") ;;
  Ok (add_rule init_rule g).

(** ** Helpers of branta/util.py *)

(** Modelled from the spec: [new_nonterminal] of branta/util.py, which is
    not among the sources. It mints a nonterminal name that collides with
    none of the names it is given, nor with the reserved name [start]. *)
Class Util : Type := {
  new_nonterminal : list string -> string;
  new_nonterminal_fresh : forall names, ~ In (new_nonterminal names) names;
  new_nonterminal_not_start : forall names, new_nonterminal names <> "start"
}.

Definition seq_eq_dec : forall s t : list string, {s = t} + {s <> t} :=
  list_eq_dec string_dec.

Definition seq_eqb (s t : list string) : bool :=
  if seq_eq_dec s t then true else false.

(** All order-preserving selections of elements of [l], the empty one and
    [l] itself included. *)
Fixpoint subsequences (l : list string) : list (list string) :=
  match l with
  | [] => [[]]
  | x :: l' => map (cons x) (subsequences l') ++ subsequences l'
  end.

(** Modelled from the spec: [strict_subsequences] of branta/util.py, which
    is not among the sources. The set of the strict, non-empty, proper
    subsequences of a body: relative order is kept, the elements need not
    be contiguous, and the body itself is left out. *)
Definition strict_subsequences (body : Body) : list (list Symbol) :=
  nodup seq_eq_dec
    (filter (fun s => negb (seq_eqb s []) && negb (seq_eqb s body))
            (subsequences body)).

(** [sub] matches inside [body] in order, not necessarily contiguously. *)
Fixpoint occurs_in (sub body : list string) : bool :=
  match sub, body with
  | [], _ => true
  | _ :: _, [] => false
  | s :: sub', b :: body' =>
      if String.eqb s b then occurs_in sub' body' else occurs_in sub body'
  end.

(** [body] without the elements of the leftmost match of [sub]. *)
Fixpoint drop_match (sub body : list string) : list string :=
  match sub, body with
  | [], _ => body
  | _ :: _, [] => []
  | s :: sub', b :: body' =>
      if String.eqb s b then drop_match sub' body' else b :: drop_match sub body'
  end.

Fixpoint replace_match (sub body : list string) (name : string) : list string :=
  match sub, body with
  | [], _ => body
  | _ :: _, [] => []
  | s :: sub', b :: body' =>
      if String.eqb s b then name :: drop_match sub' body'
      else b :: replace_match sub body' name
  end.

(** Modelled from the spec: [replace_all] of branta/util.py, which is not
    among the sources. The first occurrence of the subsequence in the
    body, found by an order-preserving match that need not be contiguous,
    is replaced by the single new nonterminal, which takes the place of the
    first matched symbol; a body the subsequence does not occur in is
    returned as it is. *)
Definition replace_all (body : Body) (sub : list Symbol) (name : Symbol) : Body :=
  if occurs_in sub body then replace_match sub body name else body.

(** ** Mutation operators *)

(** [Rule(name)] followed by one [add_body] per element of [bs]. *)
Definition rule_with (name : string) (bs : list Body) : Rule :=
  fold_left (fun new_rule body => add_body body new_rule) bs (Rule_new name).

(** The loop [for rule in grammar.rules.values(): ... mutant.add_rule(new_rule)]
    with [new_rule] computed from [rule] by [f]. *)
Definition rebuild (f : Rule -> Rule) (grammar mutant : Grammar) : Grammar :=
  fold_left (fun m rule => add_rule (f rule) m) (rules grammar) mutant.

Definition mem (x : string) (l : list string) : bool :=
  existsb (String.eqb x) l.

(** [len(grammar.rules[nonterm].bodies)] for a key of the grammar. *)
Definition body_count (g : Grammar) (nonterm : string) : nat :=
  match find (fun r => String.eqb (start r) nonterm) (rules g) with
  | Some r => List.length (bodies r)
  | None => 0
  end.

(** [random.choices(nonterminals, weights, k=1)[0]] with the weights
    [len(bodies) / total_num_rules]: computing a weight divides by the
    total; the draw lands on a nonterminal with probability proportional
    to its number of bodies, which is a uniform draw among the bodies'
    owners. *)
Definition weighted_choice (r : nat) (g : Grammar) (nonterminals : list string)
  : result string :=
  let total_num_rules := list_sum (map (body_count g) nonterminals) in
  match nonterminals with
  | [] => Raise IndexError
  | _ :: _ =>
      if total_num_rules =? 0 then Raise ZeroDivisionError
      else random_choice r (flat_map (fun nt => repeat nt (body_count g nt)) nonterminals)
  end.

Section Mutations.

Context {util : Util}.

(** [sequences]: the union of the strict subsequences of all bodies. *)
Definition all_sequences (g : Grammar) : list (list Symbol) :=
  nodup seq_eq_dec
    (flat_map (fun rule => flat_map strict_subsequences (bodies rule)) (rules g)).

Definition mutate_bubble (r : nat) (grammar : Grammar) : result Grammar :=
  entry <- entry_symbol grammar ;;
  let mutant := Grammar_new entry in
  let sequences := all_sequences grammar in
  if List.length sequences =? 0 then
    Ok (rebuild (fun rule => rule_with (start rule) (bodies rule)) grammar mutant)
  else
    replace_seq <- random_choice r sequences ;;
    let replace_name := new_nonterminal (keys grammar) in
    let mutant :=
      rebuild (fun rule =>
                 rule_with (start rule)
                   (map (fun body => replace_all body replace_seq replace_name)
                        (bodies rule)))
              grammar mutant in
    Ok (add_rule (add_body replace_seq (Rule_new replace_name)) mutant).

(** The list [terminals] that [mutate_coalesce] also builds is never read
    and is left out. *)
Definition mutate_coalesce (r_num : nat) (r_sample : nat -> nat) (grammar : Grammar)
  : result Grammar :=
  entry <- entry_symbol grammar ;;
  let mutant := Grammar_new entry in
  let nonterminals := keys grammar in
  nonterminals <- list_remove "start" nonterminals ;;
  let all := nonterminals in
  coalesce_num <- random_choice r_num (range 2 (min 6 (List.length all))) ;;
  let to_coalesce := random_sample r_sample coalesce_num all in
  let replacer_id := new_nonterminal nonterminals in
  let mutant :=
    rebuild (fun rule =>
               rule_with (start rule)
                 (map (map (fun e => if mem e to_coalesce then replacer_id else e))
                      (bodies rule)))
            grammar mutant in
  let replacer_rules :=
    flat_map (fun coalescee =>
                match find (fun r => String.eqb (start r) coalescee) (rules grammar) with
                | Some rule => bodies rule
                | None => []
                end)
             to_coalesce in
  Ok (add_rule (mkRule replacer_id replacer_rules) mutant).

(** [mutant.rules[key]] is modified in place. *)
Definition update_rule (key : string) (f : Rule -> Rule) (g : Grammar) : Grammar :=
  mkGrammar (map (fun r => if String.eqb (start r) key then f r else r) (rules g)).

(** [[elem for rule in ... for body in rule.bodies for elem in body
    if elem not in nonterminals]]: every occurrence, in a body, of a symbol
    that names no rule. *)
Definition terminals_of (g : Grammar) (nonterminals : list string) : list Symbol :=
  flat_map (fun rule =>
              flat_map (fun body => filter (fun elem => negb (mem elem nonterminals)) body)
                       (bodies rule))
           (rules g).

Definition mutate_alternate (r_key r_body r_idx r_alt : nat) (grammar : Grammar)
  : result Grammar :=
  let mutant := copy grammar in
  let nonterminals := keys mutant in
  let terminals := terminals_of mutant nonterminals in
  nonterminals <- list_remove "start" nonterminals ;;
  let alternates := (terminals ++ nonterminals)%list in
  rule_key <- weighted_choice r_key mutant nonterminals ;;
  rule <- get_rule mutant rule_key ;;
  body_idx <- random_choice r_body (range 0 (List.length (bodies rule))) ;;
  body <- get_nth (bodies rule) body_idx ;;
  alternate_idx <- random_choice r_idx (range 0 (List.length body)) ;;
  current <- get_nth body alternate_idx ;;
  alternates <- list_remove current alternates ;;
  alternate <- random_choice r_alt alternates ;;
  let new_body := set_nth alternate_idx alternate body in
  Ok (update_rule rule_key (add_body new_body) mutant).

(** The bodies of the rule [rule_key] rebuilt by [mutate_repeat]. *)
Definition repeat_bodies (body_idx repeat_idx : nat) (repeater_name : Symbol)
  (bs : list Body) : list Body :=
  map (fun ib =>
         if fst ib =? body_idx
         then (firstn repeat_idx (snd ib) ++ [repeater_name] ++ skipn (repeat_idx + 1) (snd ib))%list
         else snd ib)
      (enumerate bs).

Definition mutate_repeat (r_key r_body r_idx : nat) (grammar : Grammar)
  : result Grammar :=
  entry <- entry_symbol grammar ;;
  let mutant := Grammar_new entry in
  nonterminals <- list_remove "start" (keys grammar) ;;
  rule_key <- weighted_choice r_key grammar nonterminals ;;
  rule <- get_rule grammar rule_key ;;
  body_idx <- random_choice r_body (range 0 (List.length (bodies rule))) ;;
  body <- get_nth (bodies rule) body_idx ;;
  repeat_idx <- random_choice r_idx (range 0 (List.length body)) ;;
  repeat_elem <- get_nth body repeat_idx ;;
  let repeater_name := new_nonterminal nonterminals in
  let mutant :=
    rebuild (fun rule =>
               if String.eqb (start rule) rule_key
               then rule_with (start rule)
                      (repeat_bodies body_idx repeat_idx repeater_name (bodies rule))
               else rule_with (start rule) (bodies rule))
            grammar mutant in
  Ok (add_rule
        (add_body [repeat_elem; repeater_name]
           (add_body [repeat_elem] (Rule_new repeater_name)))
        mutant).

End Mutations.

(** ** Search engine *)

Definition POPULATION_SIZE : nat := 20.

(** A population entry [(grammar, id, score)]. *)
Definition Entry : Type := (Grammar * nat * Q)%type.

Definition entry_grammar (e : Entry) : Grammar := fst (fst e).
Definition entry_id (e : Entry) : nat := snd (fst e).
Definition entry_score (e : Entry) : Q := snd e.

(** The variables [search] shares with its nested helpers. *)
Record SearchState : Type := mkState {
  population : list Entry;
  minimum_score : Q;
  cur_gram_id : nat
}.

(** The loop of [add_to_population] that finds [insert_idx]: it stops at
    the first entry whose score is greater than the new one. *)
Fixpoint find_insert_idx (s : Q) (pop : list Entry) : nat :=
  match pop with
  | [] => 0
  | e :: rest => if Qgtb (entry_score e) s then 0 else S (find_insert_idx s rest)
  end.

(** [while len(population) > POPULATION_SIZE: population.pop(0)]; the loop
    runs at most [len(population)] times. *)
Fixpoint evict (fuel : nat) (pop : list Entry) : list Entry :=
  match fuel with
  | 0 => pop
  | S fuel' =>
      if POPULATION_SIZE <? List.length pop then evict fuel' (tl pop) else pop
  end.

Definition add_to_population (grammar : Grammar) (s : Q) (grammar_id : nat)
  (st : SearchState) : result SearchState :=
  if negb (Qgtb s (minimum_score st)) then Raise AssertionError
  else
    let insert_idx := find_insert_idx s (population st) in
    let pop := list_insert insert_idx (grammar, grammar_id, s) (population st) in
    let pop := evict (List.length pop) pop in
    first <- get_nth pop 0 ;;
    Ok (mkState pop (entry_score first) (cur_gram_id st)).

(** Computations that read the random tape: the state is the position of
    the next unread draw. *)
Definition Rand (A : Type) : Type := nat -> result (A * nat).

Definition ret {A : Type} (a : A) : Rand A := fun i => Ok (a, i).

Definition bindR {A B : Type} (c : Rand A) (k : A -> Rand B) : Rand B :=
  fun i => match c i with
           | Ok (a, j) => k a j
           | Raise e => Raise e
           end.

Definition lift {A : Type} (c : result A) : Rand A :=
  fun i => match c with
           | Ok a => Ok (a, i)
           | Raise e => Raise e
           end.

Notation "x <~ c ;; k" := (bindR c (fun x => k))
  (at level 61, c at next level, right associativity).

Section Search.

Context {engine : Engine} {util : Util} {pyset : PySet}.

Variable tape : nat -> nat.

Definition choose {A : Type} (l : list A) : Rand A :=
  fun i => lift (random_choice (tape i) l) (S i).

(** The four operators, each reading its draws from the tape. *)
Definition bubble (g : Grammar) : Rand Grammar :=
  fun i => lift (mutate_bubble (tape i) g) (i + 1).

Definition coalesce (g : Grammar) : Rand Grammar :=
  fun i => lift (mutate_coalesce (tape i) (fun n => tape (i + 1 + n)) g) (i + 6).

Definition alternate (g : Grammar) : Rand Grammar :=
  fun i => lift (mutate_alternate (tape i) (tape (i + 1)) (tape (i + 2)) (tape (i + 3)) g)
                (i + 4).

Definition repeat_ (g : Grammar) : Rand Grammar :=
  fun i => lift (mutate_repeat (tape i) (tape (i + 1)) (tape (i + 2)) g) (i + 3).

(** [for i in range(num_mutations): mutant = mutate_func(mutant)]. *)
Fixpoint cascade (num_mutations : nat) (mutant : Grammar) : Rand Grammar :=
  match num_mutations with
  | 0 => ret mutant
  | S n =>
      mutate_func <~ choose [bubble; coalesce; alternate; repeat_] ;;
      mutant <~ mutate_func mutant ;;
      cascade n mutant
  end.

Variable scorer : Scorer.

Definition fuzz_one (parent_grammar : Grammar) (st : SearchState) : Rand SearchState :=
  let st := mkState (population st) (minimum_score st) (cur_gram_id st + 1) in
  num_mutations <~ choose [1; 2; 4; 8; 16] ;;
  before_score <~ lift (score scorer parent_grammar) ;;
  mutant <~ cascade num_mutations parent_grammar ;;
  mutant_score <~ lift (score scorer mutant) ;;
  if Qgtb mutant_score (minimum_score st)
  then lift (add_to_population mutant mutant_score (cur_gram_id st) st)
  else ret st.

(** [population[-1][2]], the score each generation prints. *)
Definition best_score (st : SearchState) : result Q :=
  match rev (population st) with
  | [] => Raise IndexError
  | e :: _ => Ok (entry_score e)
  end.

(** One pass of the loop of [search]. *)
Definition generation (st : SearchState) : Rand SearchState :=
  parent <~ choose (population st) ;;
  st <~ fuzz_one (entry_grammar parent) st ;;
  _ <~ lift (best_score st) ;;
  ret st.

Fixpoint generations (n : nat) (st : SearchState) : Rand SearchState :=
  match n with
  | 0 => ret st
  | S n' => st <~ generation st ;; generations n' st
  end.

End Search.

Section SearchEntry.

Context {engine : Engine} {util : Util} {pyset : PySet}.

Variable tape : nat -> nat.

(** The state [search] starts its loop from. *)
Definition initial_state (guides positives negatives : list string)
  : result SearchState :=
  initial_grammar <- init_grammar guides ;;
  let cur_gram_id := 0 in
  let scorer := mkScorer positives negatives in
  minimum_score <- score scorer initial_grammar ;;
  Ok (mkState [(initial_grammar, cur_gram_id, minimum_score)] minimum_score cur_gram_id).

(** The state after [n] passes of the loop. *)
Definition search_loop (n : nat) (guides positives negatives : list string)
  : Rand SearchState :=
  st <~ lift (initial_state guides positives negatives) ;;
  generations tape (mkScorer positives negatives) n st.

(** [search]: thirty generations, a last print, and no [return]: the value
    of the call is [None]. *)
Definition search (guides positives negatives : list string)
  : Rand (option Grammar) :=
  st <~ search_loop 30 guides positives negatives ;;
  _ <~ lift (best_score st) ;;
  ret None.

End SearchEntry.

(** * Vocabulary of the specification

    Definitions that are not part of the program: they only serve to state
    its properties. *)

Section ScoringVocabulary.

Context {engine : Engine}.

(** Whether a compiled parser accepts an example: [parse] returned. *)
Definition accepts (p : Lark) (x : string) : bool :=
  match Lark_parse p x with
  | Ok _ => true
  | Raise _ => false
  end.

(** How many examples of a list the parser accepts. *)
Definition matched (p : Lark) (l : list string) : nat :=
  List.length (filter (accepts p) l).

End ScoringVocabulary.

(** The two floored factors of the score, as the documentation gives them,
    for [P] positives and [N] negatives matched. *)
Definition positive_part (P np : nat) : Q :=
  Qmax (inject_Z (Z.of_nat P) / inject_Z (Z.of_nat np))
       ((1 # 2) / inject_Z (Z.of_nat np)).

Definition negative_part (N nn : nat) : Q :=
  Qmax (1 - inject_Z (Z.of_nat N) / inject_Z (Z.of_nat nn))
       ((1 # 2) / inject_Z (Z.of_nat nn)).

(** The same two factors as the code computes them, every operation
    rounded. *)
Definition float_positive_part (P np : nat) : Q :=
  Qmax (rnd (inject_Z (Z.of_nat P) / inject_Z (Z.of_nat np)))
       (rnd ((1 # 2) / float_of_nat np)).

Definition float_negative_part (N nn : nat) : Q :=
  Qmax (rnd (1 - rnd (inject_Z (Z.of_nat N) / inject_Z (Z.of_nat nn))))
       (rnd ((1 # 2) / float_of_nat nn)).

(** Ascending by score; entries of equal score in the order of their ids,
    the older one first. *)
Definition entry_before (a b : Entry) : Prop :=
  (entry_score a < entry_score b)%Q \/
  ((entry_score a == entry_score b)%Q /\ entry_id a < entry_id b).

(** The population invariant of the search. The last conjunct, that no id
    is ahead of the generation counter, is what makes a new entry the
    youngest. *)
Definition pop_inv (st : SearchState) : Prop :=
  List.length (population st) <= POPULATION_SIZE /\
  StronglySorted entry_before (population st) /\
  (exists first rest,
     population st = first :: rest /\ minimum_score st = entry_score first) /\
  Forall (fun e => entry_id e <= cur_gram_id st) (population st).

(** What one generation may do to the population: leave it as it is, or
    admit one entry. An admitted entry [(g, id, s)] has a score above the
    minimum recorded before; it goes after every entry whose score is not
    greater than [s] and before those of greater score; the overflow is
    taken from the front. *)
Definition unchanged (st st' : SearchState) : Prop :=
  population st' = population st /\ minimum_score st' = minimum_score st.

Definition admitted (st st' : SearchState) : Prop :=
  exists g s before after,
    (minimum_score st < s)%Q /\
    population st = (before ++ after)%list /\
    Forall (fun e => (entry_score e <= s)%Q) before /\
    Forall (fun e => (s < entry_score e)%Q) after /\
    let pop := (before ++ (g, S (cur_gram_id st), s) :: after)%list in
    population st' = skipn (List.length pop - POPULATION_SIZE) pop.

(** Every grammar of the population is well formed. *)
Definition pop_wf (st : SearchState) : Prop :=
  Forall (fun e => wf_grammar (entry_grammar e)) (population st).

(** The leaf rule and the [char_map] entry made for the [i]-th element. *)
Definition leaf_rule (ic : nat * string) : Rule :=
  mkRule (t_name (fst ic + 1)) [[snd ic]].

Definition leaf_entry (ic : nat * string) : string * string :=
  (snd ic, t_name (fst ic + 1)).

(** The name [char_map] gives a quoted character. *)
Definition char_name (chars : list string) (q : string) : string :=
  match dict_get (map leaf_entry (enumerate chars)) q with
  | Ok v => v
  | Raise _ => ""
  end.

(** The site the three draws of [mutate_alternate] and [mutate_repeat]
    select: a rule other than [start], the index of one of its bodies, a
    position of that body, and the symbol found there. *)
Definition choose_site (r_key r_body r_idx : nat) (g : Grammar)
  : result (string * nat * nat * Symbol) :=
  nonterminals <- list_remove "start" (keys g) ;;
  rule_key <- weighted_choice r_key g nonterminals ;;
  rule <- get_rule g rule_key ;;
  body_idx <- random_choice r_body (range 0 (List.length (bodies rule))) ;;
  body <- get_nth (bodies rule) body_idx ;;
  idx <- random_choice r_idx (range 0 (List.length body)) ;;
  elem <- get_nth body idx ;;
  Ok (rule_key, body_idx, idx, elem).


(** [grammar.rules[coalescee].bodies], or nothing for a name that has no
    rule. *)
Definition bodies_of (g : Grammar) (name : string) : list Body :=
  match find (fun r => String.eqb (start r) name) (rules g) with
  | Some rule => bodies rule
  | None => []
  end.

(** * Properties *)

(** ** Generic facts about the runtime fragments *)

Lemma bind_ok {A B : Type} (c : result A) (k : A -> result B) (b : B) :
  bind c k = Ok b -> exists a, c = Ok a /\ k a = Ok b.
Proof.
  destruct c as [a | e]; simpl; intros H.
  - exists a. split; [reflexivity | exact H].
  - discriminate H.
Qed.

Lemma random_choice_in {A : Type} (r : nat) (l : list A) (x : A) :
  random_choice r l = Ok x -> In x l.
Proof.
  destruct l as [| y l']; intros H; [discriminate H |].
  unfold random_choice in H.
  replace x with (nth (r mod List.length (y :: l')) (y :: l') y) by congruence.
  apply nth_In. apply Nat.mod_upper_bound. simpl. discriminate.
Qed.

Lemma random_choice_total {A : Type} (r : nat) (l : list A) :
  l <> [] -> exists x, random_choice r l = Ok x.
Proof.
  destruct l as [| y l']; intros H; [contradiction H; reflexivity |].
  eexists. reflexivity.
Qed.

Lemma random_choice_range (r lo hi k : nat) :
  random_choice r (range lo hi) = Ok k -> lo <= k < hi.
Proof.
  intros H. apply random_choice_in in H. unfold range in H.
  apply in_seq in H. lia.
Qed.

Lemma NoDup_snoc (l : list string) (x : string) :
  NoDup l -> ~ In x l -> NoDup (l ++ [x]).
Proof.
  intros Hnd Hx. apply NoDup_app; [exact Hnd | constructor; [intros [] | constructor] |].
  intros a Ha [<- | []]. contradiction.
Qed.

(** ** Rounding to the nearest float *)

Lemma Qpos_num (q : Q) : (0 < q)%Q <-> (0 < Qnum q)%Z.
Proof. unfold Qlt. simpl. rewrite Z.mul_1_r. reflexivity. Qed.

Lemma two_pow_pos (e : Z) : (0 < 2 ^ e)%Q.
Proof. apply Qpower_0_lt. reflexivity. Qed.

Lemma two_pow_succ (e : Z) : (2 ^ (e + 1) == 2 * 2 ^ e)%Q.
Proof. rewrite Qpower_plus by discriminate. rewrite Qmult_comm. reflexivity. Qed.

Lemma Qlog2_spec (q : Q) :
  (0 < q)%Q -> (2 ^ Qlog2 q <= q)%Q /\ (q < 2 ^ (Qlog2 q + 1))%Q.
Proof.
  intros Hq. destruct q as [n d]. apply Qpos_num in Hq. cbn [Qnum] in Hq.
  unfold Qlog2. cbn [Qnum Qden].
  pose proof (Z.log2_spec n Hq) as [Hn1 Hn2].
  pose proof (Z.log2_spec (Zpos d) eq_refl) as [Hd1 Hd2].
  pose proof (Z.log2_nonneg n) as Hln. pose proof (Z.log2_nonneg (Zpos d)) as Hld.
  set (ln := Z.log2 n) in *. set (ld := Z.log2 (Zpos d)) in *.
  assert (HA : (inject_Z (2 ^ ln) == 2 ^ ln)%Q) by (apply (Zpower_Qpower 2); exact Hln).
  assert (HB : (inject_Z (2 ^ ld) == 2 ^ ld)%Q) by (apply (Zpower_Qpower 2); exact Hld).
  assert (Hc : (2 ^ (ln - ld) == 2 ^ ln / 2 ^ ld)%Q) by (apply Qpower_minus; discriminate).
  assert (Hq' : (n # d == inject_Z n / inject_Z (Zpos d))%Q) by apply Qmake_Qdiv.
  assert (Hn1' : (2 ^ ln <= inject_Z n)%Q) by (rewrite <- HA, <- Zle_Qle; exact Hn1).
  assert (Hn2' : (inject_Z n < 2 * 2 ^ ln)%Q).
  { rewrite <- HA. change 2%Q with (inject_Z 2). rewrite <- inject_Z_mult, <- Zlt_Qlt.
    rewrite Z.pow_succ_r in Hn2 by exact Hln. exact Hn2. }
  assert (Hd1' : (2 ^ ld <= inject_Z (Zpos d))%Q) by (rewrite <- HB, <- Zle_Qle; exact Hd1).
  assert (Hd2' : (inject_Z (Zpos d) < 2 * 2 ^ ld)%Q).
  { rewrite <- HB. change 2%Q with (inject_Z 2). rewrite <- inject_Z_mult, <- Zlt_Qlt.
    rewrite Z.pow_succ_r in Hd2 by exact Hld. exact Hd2. }
  pose proof (two_pow_pos ln) as HAp. pose proof (two_pow_pos ld) as HBp.
  assert (Hup : (n # d < 2 * 2 ^ (ln - ld))%Q).
  { rewrite Hq', Hc. set (A := (2 ^ ln)%Q) in *. set (B := (2 ^ ld)%Q) in *.
    set (N := inject_Z n) in *. set (D := inject_Z (Zpos d)) in *. clearbody A B N D.
    apply Qlt_shift_div_r; [lra |].
    assert (E : (2 * (A / B) * D == 2 * A * D / B)%Q) by (field; lra).
    rewrite E. apply Qlt_shift_div_l; [lra |]. nra. }
  assert (Hlow : (2 ^ (ln - ld) < 2 * (n # d))%Q).
  { rewrite Hq', Hc. set (A := (2 ^ ln)%Q) in *. set (B := (2 ^ ld)%Q) in *.
    set (N := inject_Z n) in *. set (D := inject_Z (Zpos d)) in *. clearbody A B N D.
    apply Qlt_shift_div_r; [lra |].
    assert (E : (2 * (N / D) * B == 2 * N * B / D)%Q) by (field; lra).
    rewrite E. apply Qlt_shift_div_l; [lra |]. nra. }
  destruct (Qle_bool (2 ^ (ln - ld)) (n # d)) eqn:E.
  - apply Qle_bool_iff in E. split; [exact E |]. rewrite two_pow_succ. exact Hup.
  - assert (Hlt : (n # d < 2 ^ (ln - ld))%Q).
    { apply Qnot_le_lt. intros H. apply Qle_bool_iff in H. congruence. }
    replace (ln - ld - 1 + 1)%Z with (ln - ld)%Z by ring. split; [| exact Hlt].
    assert (E2 : (2 ^ (ln - ld) == 2 * 2 ^ (ln - ld - 1))%Q).
    { rewrite <- two_pow_succ. replace (ln - ld - 1 + 1)%Z with (ln - ld)%Z by ring.
      reflexivity. }
    rewrite E2 in Hlow. lra.
Qed.

(** Rounding to the nearest integer. *)

Lemma round_half_even_comp (x y : Q) : (x == y)%Q -> round_half_even x = round_half_even y.
Proof.
  intros H. unfold round_half_even. rewrite (Qfloor_comp x y H).
  assert (E : (x - inject_Z (Qfloor y) == y - inject_Z (Qfloor y))%Q) by (rewrite H; reflexivity).
  rewrite (Qcompare_comp _ _ E (1 # 2) (1 # 2) (Qeq_refl _)). reflexivity.
Qed.

Lemma round_half_even_cases (x : Q) :
  (round_half_even x = Qfloor x /\ (x - inject_Z (Qfloor x) <= 1 # 2)%Q) \/
  (round_half_even x = (Qfloor x + 1)%Z /\ (1 # 2 <= x - inject_Z (Qfloor x))%Q).
Proof.
  unfold round_half_even.
  destruct (Qcompare_spec (x - inject_Z (Qfloor x)) (1 # 2)) as [E | E | E].
  - destruct (Z.even (Qfloor x)); [left | right]; (split; [reflexivity |]);
      rewrite E; apply Qle_refl.
  - left. split; [reflexivity | apply Qlt_le_weak; exact E].
  - right. split; [reflexivity | apply Qlt_le_weak; exact E].
Qed.

Lemma round_half_even_error (x : Q) :
  (x - (1 # 2) <= inject_Z (round_half_even x))%Q /\
  (inject_Z (round_half_even x) <= x + (1 # 2))%Q.
Proof.
  pose proof (Qfloor_le x) as H1. pose proof (Qlt_floor x) as H2.
  rewrite inject_Z_plus in H2. change (inject_Z 1) with 1%Q in H2.
  destruct (round_half_even_cases x) as [[-> H] | [-> H]].
  - set (f := inject_Z (Qfloor x)) in *. clearbody f. split; lra.
  - rewrite inject_Z_plus. change (inject_Z 1) with 1%Q.
    set (f := inject_Z (Qfloor x)) in *. clearbody f. split; lra.
Qed.

Lemma round_half_even_Z (z : Z) : round_half_even (inject_Z z) = z.
Proof.
  unfold round_half_even. rewrite Qfloor_Z.
  assert (E : (inject_Z z - inject_Z z ?= 1 # 2)%Q = Lt).
  { rewrite <- Qlt_alt. unfold Qminus. rewrite Qplus_opp_r. reflexivity. }
  rewrite E. reflexivity.
Qed.

Lemma round_half_even_mono (x y : Q) :
  (x <= y)%Q -> (round_half_even x <= round_half_even y)%Z.
Proof.
  intros Hxy. pose proof (Qfloor_resp_le x y Hxy) as Hf.
  destruct (Z.eq_dec (Qfloor x) (Qfloor y)) as [E | E].
  - unfold round_half_even. rewrite E.
    destruct (Qcompare_spec (x - inject_Z (Qfloor y)) (1 # 2)) as [Hx | Hx | Hx];
      destruct (Qcompare_spec (y - inject_Z (Qfloor y)) (1 # 2)) as [Hy | Hy | Hy];
      try destruct (Z.even (Qfloor y)); try lia; exfalso;
      set (f := inject_Z (Qfloor y)) in *; clearbody f; lra.
  - destruct (round_half_even_cases x) as [[-> _] | [-> _]];
      destruct (round_half_even_cases y) as [[-> _] | [-> _]]; lia.
Qed.

Lemma round_half_even_ge (x : Q) (a : Z) :
  (inject_Z a <= x)%Q -> (a <= round_half_even x)%Z.
Proof.
  intros H. rewrite <- (round_half_even_Z a). apply round_half_even_mono. exact H.
Qed.

Lemma round_half_even_le (x : Q) (b : Z) :
  (x <= inject_Z b)%Q -> (round_half_even x <= b)%Z.
Proof.
  intros H. rewrite <- (round_half_even_Z b). apply round_half_even_mono. exact H.
Qed.

(** The exponent. *)

Lemma two_pow_add (a b : Z) : (2 ^ (a + b) == 2 ^ a * 2 ^ b)%Q.
Proof. apply Qpower_plus. discriminate. Qed.

Lemma fexp_spec (q : Q) :
  (0 < q)%Q -> (2 ^ 52 * 2 ^ fexp q <= q)%Q /\ (q < 2 ^ 53 * 2 ^ fexp q)%Q.
Proof.
  intros Hq. destruct (Qlog2_spec q Hq) as [H1 H2]. unfold fexp.
  rewrite <- !two_pow_add.
  replace (52 + (Qlog2 q - 52))%Z with (Qlog2 q) by ring.
  replace (53 + (Qlog2 q - 52))%Z with (Qlog2 q + 1)%Z by ring.
  split; assumption.
Qed.

Lemma fexp_mono (a b : Q) : (0 < a)%Q -> (a <= b)%Q -> (fexp a <= fexp b)%Z.
Proof.
  intros Ha Hab. assert (Hb : (0 < b)%Q) by lra.
  destruct (fexp_spec a Ha) as [A1 _]. destruct (fexp_spec b Hb) as [_ B2].
  rewrite <- two_pow_add in A1, B2.
  assert (H : (2 ^ (52 + fexp a) < 2 ^ (53 + fexp b))%Q) by lra.
  apply Qpower_lt_compat_l_inv in H; [lia | reflexivity].
Qed.

Lemma fexp_comp (a b : Q) : (0 < a)%Q -> (a == b)%Q -> fexp a = fexp b.
Proof.
  intros Ha E. assert (Hb : (0 < b)%Q) by (rewrite <- E; exact Ha).
  apply Z.le_antisymm; apply fexp_mono; try assumption; rewrite E; apply Qle_refl.
Qed.

Lemma scaled_range (q : Q) :
  (0 < q)%Q -> (inject_Z (2 ^ 52) <= q / 2 ^ fexp q)%Q /\ (q / 2 ^ fexp q < inject_Z (2 ^ 53))%Q.
Proof.
  intros Hq. destruct (fexp_spec q Hq) as [H1 H2].
  pose proof (two_pow_pos (fexp q)) as He.
  change (inject_Z (2 ^ 52)) with (2 ^ 52)%Q. change (inject_Z (2 ^ 53)) with (2 ^ 53)%Q.
  split.
  - apply Qle_shift_div_l; assumption.
  - apply Qlt_shift_div_r; assumption.
Qed.

(** Rounding a positive rational to 53 significant bits. *)

Lemma round_pos_bounds (q : Q) :
  (0 < q)%Q ->
  (2 ^ 52 * 2 ^ fexp q <= round_pos q)%Q /\ (round_pos q <= 2 ^ 53 * 2 ^ fexp q)%Q.
Proof.
  intros Hq. destruct (scaled_range q Hq) as [H1 H2]. unfold round_pos.
  pose proof (two_pow_pos (fexp q)) as He.
  pose proof (round_half_even_ge _ _ H1) as G1.
  pose proof (round_half_even_le _ _ (Qlt_le_weak _ _ H2)) as G2.
  rewrite Zle_Qle in G1, G2.
  change (inject_Z (2 ^ 52)) with (2 ^ 52)%Q in G1.
  change (inject_Z (2 ^ 53)) with (2 ^ 53)%Q in G2.
  split; apply Qmult_le_compat_r; try assumption; apply Qlt_le_weak; exact He.
Qed.

Lemma round_pos_positive (q : Q) : (0 < q)%Q -> (0 < round_pos q)%Q.
Proof.
  intros Hq. destruct (round_pos_bounds q Hq) as [H _].
  pose proof (two_pow_pos (fexp q)) as He.
  apply Qlt_le_trans with (2 ^ 52 * 2 ^ fexp q)%Q; [| exact H].
  apply Qmult_lt_0_compat; [reflexivity | exact He].
Qed.

Lemma round_pos_mono (a b : Q) :
  (0 < a)%Q -> (a <= b)%Q -> (round_pos a <= round_pos b)%Q.
Proof.
  intros Ha Hab. assert (Hb : (0 < b)%Q) by lra.
  pose proof (fexp_mono a b Ha Hab) as He.
  destruct (Z.eq_dec (fexp a) (fexp b)) as [E | E].
  - unfold round_pos. rewrite E.
    pose proof (two_pow_pos (fexp b)) as Hp.
    apply Qmult_le_compat_r; [| apply Qlt_le_weak; exact Hp].
    rewrite <- Zle_Qle. apply round_half_even_mono.
    apply Qmult_le_compat_r; [exact Hab |].
    apply Qlt_le_weak. apply Qinv_lt_0_compat. exact Hp.
  - destruct (round_pos_bounds a Ha) as [_ A2]. destruct (round_pos_bounds b Hb) as [B1 _].
    apply Qle_trans with (2 ^ 53 * 2 ^ fexp a)%Q; [exact A2 |].
    apply Qle_trans with (2 ^ 52 * 2 ^ fexp b)%Q; [| exact B1].
    rewrite <- !two_pow_add. apply Qpower_le_compat_l; [lia | discriminate].
Qed.

Lemma round_pos_comp (a b : Q) : (0 < a)%Q -> (a == b)%Q -> (round_pos a == round_pos b)%Q.
Proof.
  intros Ha E. unfold round_pos. rewrite (fexp_comp a b Ha E).
  rewrite (round_half_even_comp (a / 2 ^ fexp b) (b / 2 ^ fexp b)); [reflexivity |].
  rewrite E. reflexivity.
Qed.

(** The rounding error is at most half a unit in the last place, which is
    at most [2^-53] times the value. *)
Lemma round_pos_error (q : Q) :
  (0 < q)%Q -> (Qabs (round_pos q - q) <= q * (1 # 2 ^ 53))%Q.
Proof.
  intros Hq. destruct (fexp_spec q Hq) as [H1 _].
  pose proof (two_pow_pos (fexp q)) as He.
  destruct (round_half_even_error (q / 2 ^ fexp q)) as [E1 E2].
  unfold round_pos.
  set (m := inject_Z (round_half_even (q / 2 ^ fexp q))) in *.
  set (p := (2 ^ fexp q)%Q) in *. clearbody m p.
  assert (Hx : (q == q / p * p)%Q) by (field; lra).
  set (x := (q / p)%Q) in *. clearbody x.
  change (2 ^ 52)%Q with (4503599627370496 # 1)%Q in H1.
  change (1 # 2 ^ 53)%Q with (1 # 9007199254740992)%Q.
  assert (A1 : ((m - x) * p <= (1 # 2) * p)%Q) by nra.
  assert (A2 : (- ((1 # 2) * p) <= (m - x) * p)%Q) by nra.
  apply Qabs_Qle_condition. split; nra.
Qed.

(** The rounding of the floats. *)

Lemma rnd_pos_eq (q : Q) : (0 < q)%Q -> rnd q = Qred (round_pos q).
Proof.
  intros Hq. apply Qpos_num in Hq. unfold rnd.
  destruct (Qnum q); [lia | reflexivity | lia].
Qed.

Lemma rnd_neg_eq (q : Q) : (q < 0)%Q -> rnd q = Qred (- round_pos (- q)).
Proof.
  intros Hq. unfold rnd. unfold Qlt in Hq. simpl in Hq. rewrite Z.mul_1_r in Hq.
  destruct (Qnum q); [lia | lia | reflexivity].
Qed.

Lemma rnd_zero_eq (q : Q) : (q == 0)%Q -> rnd q = 0%Q.
Proof.
  intros Hq. unfold rnd. unfold Qeq in Hq. simpl in Hq. rewrite Z.mul_1_r in Hq.
  rewrite Hq. reflexivity.
Qed.

Lemma rnd_comp (a b : Q) : (a == b)%Q -> rnd a = rnd b.
Proof.
  intros E. destruct (Q_dec a 0) as [[Ha | Ha] | Ha].
  - assert (Hb : (b < 0)%Q) by (rewrite <- E; exact Ha).
    rewrite (rnd_neg_eq a Ha), (rnd_neg_eq b Hb). apply Qred_complete.
    assert (Hna : (0 < - a)%Q) by lra.
    rewrite (round_pos_comp (- a) (- b) Hna); [reflexivity |]. rewrite E. reflexivity.
  - assert (Hb : (0 < b)%Q) by (rewrite <- E; exact Ha).
    rewrite (rnd_pos_eq a Ha), (rnd_pos_eq b Hb). apply Qred_complete.
    apply round_pos_comp; assumption.
  - assert (Hb : (b == 0)%Q) by (rewrite <- E; exact Ha).
    rewrite (rnd_zero_eq a Ha), (rnd_zero_eq b Hb). reflexivity.
Qed.

#[global] Instance rnd_proper : Proper (Qeq ==> Qeq) rnd.
Proof. intros a b E. rewrite (rnd_comp a b E). reflexivity. Qed.

Lemma rnd_positive (q : Q) : (0 < q)%Q -> (0 < rnd q)%Q.
Proof.
  intros Hq. rewrite (rnd_pos_eq q Hq), Qred_correct. apply round_pos_positive. exact Hq.
Qed.

Lemma rnd_nonneg (q : Q) : (0 <= q)%Q -> (0 <= rnd q)%Q.
Proof.
  intros Hq. destruct (Qle_lt_or_eq _ _ Hq) as [H | H].
  - apply Qlt_le_weak. apply rnd_positive. exact H.
  - rewrite (rnd_zero_eq q); [apply Qle_refl | symmetry; exact H].
Qed.

(** Rounding is monotone. *)
Lemma rnd_mono (a b : Q) : (0 <= a)%Q -> (a <= b)%Q -> (rnd a <= rnd b)%Q.
Proof.
  intros Ha Hab. destruct (Qle_lt_or_eq _ _ Ha) as [H | H].
  - assert (Hb : (0 < b)%Q) by lra.
    rewrite (rnd_pos_eq a H), (rnd_pos_eq b Hb), !Qred_correct.
    apply round_pos_mono; assumption.
  - rewrite (rnd_zero_eq a) by (symmetry; exact H). apply rnd_nonneg. lra.
Qed.

(** The relative error of one rounding is at most [2^-53]. *)
Lemma rnd_error (q : Q) :
  (0 <= q)%Q -> (Qabs (rnd q - q) <= q * (1 # 2 ^ 53))%Q.
Proof.
  intros Hq. destruct (Qle_lt_or_eq _ _ Hq) as [H | H].
  - rewrite (rnd_pos_eq q H), Qred_correct. apply round_pos_error. exact H.
  - rewrite (rnd_zero_eq q) by (symmetry; exact H). rewrite <- H.
    vm_compute. discriminate.
Qed.

Lemma rnd_error_bounds (q : Q) :
  (0 <= q)%Q ->
  (q - q * (1 # 2 ^ 53) <= rnd q)%Q /\ (rnd q <= q + q * (1 # 2 ^ 53))%Q.
Proof.
  intros Hq. pose proof (rnd_error q Hq) as H.
  apply Qabs_Qle_condition in H. destruct H as [H1 H2]. split; lra.
Qed.

Example rnd_one : rnd 1 = 1%Q.
Proof. reflexivity. Qed.

Example rnd_half : rnd (1 # 2) = (1 # 2)%Q.
Proof. reflexivity. Qed.

Example rnd_tenth : rnd (1 # 10) = (3602879701896397 # 36028797018963968)%Q.
Proof. reflexivity. Qed.

Example rnd_tie : rnd (18014398509481983 # 18014398509481984) = 1%Q.
Proof. reflexivity. Qed.

Lemma rnd_le_one (q : Q) : (0 <= q)%Q -> (q <= 1)%Q -> (rnd q <= 1)%Q.
Proof.
  intros H0 H1. apply Qle_trans with (rnd 1); [apply rnd_mono; assumption |].
  rewrite rnd_one. apply Qle_refl.
Qed.

Lemma rnd_ge_one (q : Q) : (1 <= q)%Q -> (1 <= rnd q)%Q.
Proof.
  intros H1. apply Qle_trans with (rnd 1); [rewrite rnd_one; apply Qle_refl |].
  apply rnd_mono; [discriminate | exact H1].
Qed.

(** ** Scoring *)

Section ScoringFacts.

Context {engine : Engine}.

Lemma parses_compiled (g : Grammar) (p : Lark) (x : string) :
  Grammar_parser g = Ok p -> parses g x = Ok (accepts p x).
Proof.
  intros Hp. unfold parses, accepts. rewrite Hp. simpl.
  destruct (Lark_parse p x); reflexivity.
Qed.

Lemma count_parsed_compiled (g : Grammar) (p : Lark) (l : list string) :
  Grammar_parser g = Ok p -> count_parsed g l = Ok (matched p l).
Proof.
  intros Hp. unfold matched.
  induction l as [| x l IH]; simpl; [reflexivity |].
  rewrite (parses_compiled g p x Hp). simpl. rewrite IH. simpl.
  destruct (accepts p x); reflexivity.
Qed.

Lemma count_parsed_not_compiled (g : Grammar) (e : exn) (x : string) (l : list string) :
  Grammar_parser g = Raise e -> count_parsed g (x :: l) = Raise e.
Proof.
  intros Hp. simpl. unfold parses. rewrite Hp. reflexivity.
Qed.

Lemma matched_le (p : Lark) (l : list string) : matched p l <= List.length l.
Proof. unfold matched. apply filter_length_le. Qed.

Lemma matched_app (p : Lark) (l1 l2 : list string) :
  matched p (l1 ++ l2) = matched p l1 + matched p l2.
Proof. unfold matched. rewrite filter_app, length_app. reflexivity. Qed.

End ScoringFacts.

Lemma max2_Qmax (a b : Q) : (max2 a b == Qmax a b)%Q.
Proof.
  unfold max2, Qgtb.
  destruct (Qle_bool b a) eqn:E; simpl.
  - apply Qle_bool_iff in E. symmetry. apply Q.max_l. exact E.
  - assert (H : (a <= b)%Q).
    { destruct (Qlt_le_dec a b) as [Hlt | Hle].
      - apply Qlt_le_weak. exact Hlt.
      - apply Qle_bool_iff in Hle. rewrite Hle in E. discriminate E. }
    symmetry. apply Q.max_r. exact H.
Qed.

Lemma truediv_pos (a n : nat) :
  n <> 0 -> truediv a n = Ok (rnd (inject_Z (Z.of_nat a) / inject_Z (Z.of_nat n))).
Proof. destruct n; [intros H; contradiction H; reflexivity | reflexivity]. Qed.

Lemma float_div_pos (x : Q) (n : nat) :
  n <> 0 -> float_div x n = Ok (rnd (x / float_of_nat n)).
Proof. destruct n; [intros H; contradiction H; reflexivity | reflexivity]. Qed.

Lemma inject_nat_pos (n : nat) : n <> 0 -> (0 < inject_Z (Z.of_nat n))%Q.
Proof.
  intros H. change 0%Q with (inject_Z 0). rewrite <- Zlt_Qlt. lia.
Qed.

Lemma inject_nat_ge1 (n : nat) : n <> 0 -> (1 <= inject_Z (Z.of_nat n))%Q.
Proof. intros H. change 1%Q with (inject_Z 1). rewrite <- Zle_Qle. lia. Qed.

(** A count over a size lies in [0, 1]. *)
Lemma ratio_bounds (k n : nat) :
  k <= n -> n <> 0 ->
  (0 <= inject_Z (Z.of_nat k) / inject_Z (Z.of_nat n) <= 1)%Q.
Proof.
  intros Hk Hn. pose proof (inject_nat_pos n Hn) as Hpos.
  split.
  - apply Qle_shift_div_l; [exact Hpos |].
    rewrite Qmult_0_l. change 0%Q with (inject_Z 0). rewrite <- Zle_Qle. lia.
  - apply Qle_shift_div_r; [exact Hpos |].
    rewrite Qmult_1_l. rewrite <- Zle_Qle. lia.
Qed.

Lemma half_ratio_bounds (n : nat) :
  n <> 0 -> (0 < (1 # 2) / inject_Z (Z.of_nat n) <= 1)%Q.
Proof.
  intros Hn. pose proof (inject_nat_pos n Hn) as Hpos.
  split.
  - apply Qlt_shift_div_l; [exact Hpos |]. rewrite Qmult_0_l. reflexivity.
  - apply Qle_shift_div_r; [exact Hpos |].
    rewrite Qmult_1_l. apply Qle_trans with (inject_Z 1).
    + discriminate.
    + rewrite <- Zle_Qle. lia.
Qed.

(** The same bounds after rounding. *)
Lemma float_of_nat_ge1 (n : nat) : n <> 0 -> (1 <= float_of_nat n)%Q.
Proof. intros Hn. apply rnd_ge_one. apply inject_nat_ge1. exact Hn. Qed.

Lemma float_ratio_bounds (k n : nat) :
  k <= n -> n <> 0 ->
  (0 <= rnd (inject_Z (Z.of_nat k) / inject_Z (Z.of_nat n)) <= 1)%Q.
Proof.
  intros Hk Hn. destruct (ratio_bounds k n Hk Hn) as [H0 H1]. split.
  - apply rnd_nonneg. exact H0.
  - apply rnd_le_one; assumption.
Qed.

Lemma half_over_bounds (r : Q) : (1 <= r)%Q -> (0 < (1 # 2) / r <= 1 # 2)%Q.
Proof.
  intros Hr. split.
  - apply Qlt_shift_div_l; [lra |]. rewrite Qmult_0_l. reflexivity.
  - apply Qle_shift_div_r; lra.
Qed.

Lemma float_half_bounds (n : nat) :
  n <> 0 -> (0 < rnd ((1 # 2) / float_of_nat n) <= 1 # 2)%Q.
Proof.
  intros Hn. destruct (half_over_bounds _ (float_of_nat_ge1 n Hn)) as [H0 H1]. split.
  - apply rnd_positive. exact H0.
  - apply Qle_trans with (rnd (1 # 2)); [| rewrite rnd_half; apply Qle_refl].
    apply rnd_mono; [apply Qlt_le_weak; exact H0 | exact H1].
Qed.

(** How far the rounded quantities are from the exact ones. *)
Lemma float_ratio_close (k n : nat) :
  k <= n -> n <> 0 ->
  (Qabs (rnd (inject_Z (Z.of_nat k) / inject_Z (Z.of_nat n))
         - inject_Z (Z.of_nat k) / inject_Z (Z.of_nat n)) <= 1 # 2 ^ 53)%Q.
Proof.
  intros Hk Hn. destruct (ratio_bounds k n Hk Hn) as [H0 H1].
  pose proof (rnd_error _ H0) as H.
  set (x := (inject_Z (Z.of_nat k) / inject_Z (Z.of_nat n))%Q) in *. clearbody x.
  apply Qle_trans with (x * (1 # 2 ^ 53))%Q; [exact H |].
  change (1 # 2 ^ 53)%Q with (1 # 9007199254740992)%Q. lra.
Qed.

Lemma float_half_close (n : nat) :
  n <> 0 ->
  (Qabs (rnd ((1 # 2) / float_of_nat n) - (1 # 2) / inject_Z (Z.of_nat n))
   <= 1 # 2 ^ 53)%Q.
Proof.
  intros Hn. pose proof (inject_nat_ge1 n Hn) as Hq.
  pose proof (float_of_nat_ge1 n Hn) as Hr.
  assert (Hq0 : (0 <= inject_Z (Z.of_nat n))%Q) by lra.
  destruct (rnd_error_bounds _ Hq0) as [E1 E2]. fold (float_of_nat n) in E1, E2.
  destruct (half_over_bounds _ Hr) as [Y0 Y1].
  destruct (rnd_error_bounds ((1 # 2) / float_of_nat n)) as [F1 F2];
    [apply Qlt_le_weak; exact Y0 |].
  set (q := inject_Z (Z.of_nat n)) in *. set (r := float_of_nat n) in *.
  set (z := rnd ((1 # 2) / r)) in *. clearbody q r z.
  change (1 # 2 ^ 53)%Q with (1 # 9007199254740992)%Q in *.
  assert (Hiq : (q * / q == 1)%Q) by (apply Qmult_inv_r; lra).
  assert (Hir : (r * / r == 1)%Q) by (apply Qmult_inv_r; lra).
  assert (Piq : (0 < / q)%Q) by (apply Qinv_lt_0_compat; lra).
  assert (Pir : (0 < / r)%Q) by (apply Qinv_lt_0_compat; lra).
  unfold Qdiv in *. set (iq := (/ q)%Q) in *. set (ir := (/ r)%Q) in *. clearbody iq ir.
  assert (Lir : (ir <= 1)%Q) by nra.
  assert (D : (ir - iq == (q - r) * iq * ir)%Q) by nra.
  assert (D1 : ((q - r) * iq * ir <= (1 # 9007199254740992) * ir)%Q).
  { assert (T : ((q - r) * iq <= 1 # 9007199254740992)%Q) by nra. nra. }
  assert (D2 : (- ((1 # 9007199254740992) * ir) <= (q - r) * iq * ir)%Q).
  { assert (T : (- (1 # 9007199254740992) <= (q - r) * iq)%Q) by nra. nra. }
  apply Qabs_Qle_condition. split; nra.
Qed.

Lemma Qmax_close (a1 a2 b1 b2 eps : Q) :
  (Qabs (a1 - b1) <= eps)%Q -> (Qabs (a2 - b2) <= eps)%Q ->
  (Qabs (Qmax a1 a2 - Qmax b1 b2) <= eps)%Q.
Proof.
  intros H1 H2. apply Qabs_Qle_condition in H1. apply Qabs_Qle_condition in H2.
  apply Qabs_Qle_condition.
  destruct (Q.max_spec a1 a2) as [[Ha ->] | [Ha ->]];
    destruct (Q.max_spec b1 b2) as [[Hb ->] | [Hb ->]]; split; lra.
Qed.

Section ScorerClaims.

Context {engine : Engine}.

Lemma positive_part_bounds (P np : nat) :
  P <= np -> np <> 0 -> (0 < positive_part P np <= 1)%Q.
Proof.
  intros HP Hn. unfold positive_part.
  pose proof (ratio_bounds P np HP Hn) as [H1 H2].
  pose proof (half_ratio_bounds np Hn) as [H3 H4].
  split.
  - apply Q.max_lt_iff. right. exact H3.
  - apply Q.max_lub; assumption.
Qed.

Lemma negative_part_bounds (N nn : nat) :
  N <= nn -> nn <> 0 -> (0 < negative_part N nn <= 1)%Q.
Proof.
  intros HN Hn. unfold negative_part.
  pose proof (ratio_bounds N nn HN Hn) as [H1 H2].
  pose proof (half_ratio_bounds nn Hn) as [H3 H4].
  split.
  - apply Q.max_lt_iff. right. exact H3.
  - apply Q.max_lub; [lra | exact H4].
Qed.

Lemma float_positive_part_bounds (P np : nat) :
  P <= np -> np <> 0 -> (0 < float_positive_part P np <= 1)%Q.
Proof.
  intros HP Hn. unfold float_positive_part.
  pose proof (float_ratio_bounds P np HP Hn) as [H1 H2].
  pose proof (float_half_bounds np Hn) as [H3 H4].
  split.
  - apply Q.max_lt_iff. right. exact H3.
  - apply Q.max_lub; [exact H2 | lra].
Qed.

Lemma float_complement_bounds (N nn : nat) :
  N <= nn -> nn <> 0 ->
  (0 <= rnd (1 - rnd (inject_Z (Z.of_nat N) / inject_Z (Z.of_nat nn))) <= 1)%Q.
Proof.
  intros HN Hn. pose proof (float_ratio_bounds N nn HN Hn) as [H1 H2]. split.
  - apply rnd_nonneg. lra.
  - apply rnd_le_one; lra.
Qed.

Lemma float_negative_part_bounds (N nn : nat) :
  N <= nn -> nn <> 0 -> (0 < float_negative_part N nn <= 1)%Q.
Proof.
  intros HN Hn. unfold float_negative_part.
  pose proof (float_complement_bounds N nn HN Hn) as [H1 H2].
  pose proof (float_half_bounds nn Hn) as [H3 H4].
  split.
  - apply Q.max_lt_iff. right. exact H3.
  - apply Q.max_lub; [exact H2 | lra].
Qed.

Lemma float_positive_part_close (P np : nat) :
  P <= np -> np <> 0 ->
  (Qabs (float_positive_part P np - positive_part P np) <= 1 # 2 ^ 53)%Q.
Proof.
  intros HP Hn. unfold float_positive_part, positive_part.
  apply Qmax_close; [apply float_ratio_close; assumption | apply float_half_close; exact Hn].
Qed.

Lemma float_negative_part_close (N nn : nat) :
  N <= nn -> nn <> 0 ->
  (Qabs (float_negative_part N nn - negative_part N nn) <= 1 # 2 ^ 52)%Q.
Proof.
  intros HN Hn. unfold float_negative_part, negative_part.
  apply Qmax_close.
  - pose proof (float_ratio_close N nn HN Hn) as Hz.
    pose proof (float_ratio_bounds N nn HN Hn) as [Z0' Z1].
    assert (Hu : (0 <= 1 - rnd (inject_Z (Z.of_nat N) / inject_Z (Z.of_nat nn)))%Q) by lra.
    destruct (rnd_error_bounds _ Hu) as [U1 U2].
    apply Qabs_Qle_condition in Hz.
    set (z := (inject_Z (Z.of_nat N) / inject_Z (Z.of_nat nn))%Q) in *.
    set (rz := rnd z) in *. set (ru := rnd (1 - rz)) in *. clearbody z rz ru.
    change (1 # 2 ^ 53)%Q with (1 # 9007199254740992)%Q in *.
    change (1 # 2 ^ 52)%Q with (1 # 4503599627370496)%Q.
    apply Qabs_Qle_condition. split; nra.
  - apply Qle_trans with (1 # 2 ^ 53)%Q; [apply float_half_close; exact Hn |].
    discriminate.
Qed.

(** The value [score] computes for a grammar that compiles. *)
Lemma score_compiled (self : Scorer) (g : Grammar) (p : Lark) :
  Grammar_parser g = Ok p ->
  positives self <> [] -> negatives self <> [] ->
  exists s, score self g = Ok s /\
    (s == rnd (float_positive_part (matched p (positives self))
                                   (List.length (positives self))
               * float_negative_part (matched p (negatives self))
                                     (List.length (negatives self))))%Q.
Proof.
  intros Hp Hpos Hneg.
  assert (Hnp : List.length (positives self) <> 0)
    by (destruct (positives self); [contradiction Hpos; reflexivity | discriminate]).
  assert (Hnn : List.length (negatives self) <> 0)
    by (destruct (negatives self); [contradiction Hneg; reflexivity | discriminate]).
  unfold score.
  rewrite !(count_parsed_compiled g p _ Hp). cbn [bind].
  rewrite (truediv_pos _ _ Hnp). cbn [bind]. rewrite (float_div_pos _ _ Hnp). cbn [bind].
  rewrite (truediv_pos _ _ Hnn). cbn [bind]. rewrite (float_div_pos _ _ Hnn). cbn [bind].
  eexists. split; [reflexivity |].
  unfold float_mul, float_sub, float_positive_part, float_negative_part.
  rewrite !max2_Qmax. reflexivity.
Qed.

(** C2 (amended): for every grammar that compiles into a parser and fixed
    non-empty positive and negative example sets, [Scorer.score] returns
    the formula max(P/|positives|, 0.5/|positives|) * max(1 - N/|negatives|,
    0.5/|negatives|) as binary floating point evaluates it, every quotient,
    the difference and the product rounded to the nearest float, where [P]
    and [N] count the positive and negative examples the parser accepts.
    The result is within [2^-51] of the exact value of the formula,
    strictly positive and at most 1. *)
Theorem score_formula (self : Scorer) (g : Grammar) (p : Lark) :
  Grammar_parser g = Ok p ->
  positives self <> [] -> negatives self <> [] ->
  exists s, score self g = Ok s /\
    (s == rnd (Qmax (rnd (inject_Z (Z.of_nat (matched p (positives self)))
                          / inject_Z (Z.of_nat (List.length (positives self)))))
                    (rnd ((1 # 2) / float_of_nat (List.length (positives self))))
               * Qmax (rnd (1 - rnd (inject_Z (Z.of_nat (matched p (negatives self)))
                                     / inject_Z (Z.of_nat (List.length (negatives self))))))
                      (rnd ((1 # 2) / float_of_nat (List.length (negatives self))))))%Q /\
    (Qabs (s - Qmax (inject_Z (Z.of_nat (matched p (positives self)))
                     / inject_Z (Z.of_nat (List.length (positives self))))
                    ((1 # 2) / inject_Z (Z.of_nat (List.length (positives self))))
               * Qmax (1 - inject_Z (Z.of_nat (matched p (negatives self)))
                           / inject_Z (Z.of_nat (List.length (negatives self))))
                      ((1 # 2) / inject_Z (Z.of_nat (List.length (negatives self)))))
     <= 1 # 2 ^ 51)%Q /\
    (0 < s)%Q /\ (s <= 1)%Q.
Proof.
  intros Hp Hpos Hneg.
  destruct (score_compiled self g p Hp Hpos Hneg) as [s [Hs Heq]].
  exists s. split; [exact Hs |]. split; [exact Heq |].
  assert (Hnp : List.length (positives self) <> 0)
    by (destruct (positives self); [contradiction Hpos; reflexivity | discriminate]).
  assert (Hnn : List.length (negatives self) <> 0)
    by (destruct (negatives self); [contradiction Hneg; reflexivity | discriminate]).
  pose proof (positive_part_bounds _ _ (matched_le p (positives self)) Hnp) as [A1 A2].
  pose proof (negative_part_bounds _ _ (matched_le p (negatives self)) Hnn) as [B1 B2].
  pose proof (float_positive_part_bounds _ _ (matched_le p (positives self)) Hnp) as [C1 C2].
  pose proof (float_negative_part_bounds _ _ (matched_le p (negatives self)) Hnn) as [D1 D2].
  pose proof (float_positive_part_close _ _ (matched_le p (positives self)) Hnp) as EA.
  pose proof (float_negative_part_close _ _ (matched_le p (negatives self)) Hnn) as EB.
  apply Qabs_Qle_condition in EA. apply Qabs_Qle_condition in EB.
  fold (positive_part (matched p (positives self)) (List.length (positives self))).
  fold (negative_part (matched p (negatives self)) (List.length (negatives self))).
  set (A := float_positive_part _ _) in *. set (B := float_negative_part _ _) in *.
  set (A' := positive_part _ _) in *. set (B' := negative_part _ _) in *.
  assert (HAB : (0 <= A * B)%Q) by nra.
  destruct (rnd_error_bounds _ HAB) as [R1 R2].
  assert (HAB1 : (A * B <= 1)%Q) by nra.
  assert (Hpos' : (0 < rnd (A * B))%Q) by (apply rnd_positive; nra).
  assert (Hle' : (rnd (A * B) <= 1)%Q) by (apply rnd_le_one; assumption).
  rewrite Heq. set (r := rnd (A * B)) in *. clearbody r A B A' B'.
  change (1 # 2 ^ 53)%Q with (1 # 9007199254740992)%Q in *.
  change (1 # 2 ^ 52)%Q with (1 # 4503599627370496)%Q in *.
  change (1 # 2 ^ 51)%Q with (1 # 2251799813685248)%Q.
  split; [| split; assumption].
  apply Qabs_Qle_condition. split; nra.
Qed.

(** C3 (amended): for every grammar that compiles into a parser, a failure
    raised while parsing an example is caught inside the scorer and counts
    as "does not match" for that example only: [parses] returns [False]
    for it, the examples before and after it are counted as if it were not
    there, and [Scorer.score] returns a value. *)
Theorem parse_failure_is_no_match (g : Grammar) (p : Lark) :
  Grammar_parser g = Ok p ->
  (forall x e, Lark_parse p x = Raise e -> parses g x = Ok false) /\
  (forall l1 x l2 e, Lark_parse p x = Raise e ->
     count_parsed g (l1 ++ x :: l2) = Ok (matched p l1 + matched p l2)) /\
  (forall self, positives self <> [] -> negatives self <> [] ->
     exists s, score self g = Ok s).
Proof.
  intros Hp. split; [| split].
  - intros x e Hx. rewrite (parses_compiled g p x Hp). unfold accepts.
    rewrite Hx. reflexivity.
  - intros l1 x l2 e Hx. rewrite (count_parsed_compiled g p _ Hp).
    rewrite matched_app. f_equal. f_equal.
    unfold matched. simpl. unfold accepts at 1. rewrite Hx. reflexivity.
  - intros self Hpos Hneg.
    destruct (score_compiled self g p Hp Hpos Hneg) as [s [Hs _]].
    exists s. exact Hs.
Qed.

(** A failure of [grammar.parser()] is not caught: it leaves [score] as
    soon as there is an example to try. *)
Lemma score_not_compiled (self : Scorer) (g : Grammar) (e : exn) :
  Grammar_parser g = Raise e -> positives self <> [] -> score self g = Raise e.
Proof.
  intros Hp Hpos. unfold score.
  destruct (positives self) as [| x l]; [contradiction Hpos; reflexivity |].
  rewrite (count_parsed_not_compiled g e x l Hp). reflexivity.
Qed.

(** C10 (amended): [Scorer.score] returns only when both example sets are
    non-empty. With no positive example it raises [ZeroDivisionError]
    for every grammar; with no negative example it raises, and what it
    raises is [ZeroDivisionError] whenever the grammar compiles. *)
Theorem score_needs_examples (self : Scorer) (g : Grammar) :
  (positives self = [] -> score self g = Raise ZeroDivisionError) /\
  (negatives self = [] -> forall p, Grammar_parser g = Ok p ->
     score self g = Raise ZeroDivisionError) /\
  (positives self = [] \/ negatives self = [] -> raises (score self g)).
Proof.
  assert (H1 : positives self = [] -> score self g = Raise ZeroDivisionError).
  { intros H. unfold score. rewrite H. reflexivity. }
  assert (H2 : negatives self = [] -> forall p, Grammar_parser g = Ok p ->
               score self g = Raise ZeroDivisionError).
  { intros H p Hp. destruct (positives self) as [| x l] eqn:Hpos.
    - apply H1. reflexivity.
    - unfold score. rewrite Hpos, H.
      rewrite (count_parsed_compiled g p _ Hp). reflexivity. }
  split; [exact H1 | split; [exact H2 |]].
  intros [H | H].
  - exists ZeroDivisionError. apply H1. exact H.
  - destruct (Grammar_parser g) as [p | e] eqn:Hp.
    + exists ZeroDivisionError. apply (H2 H p). reflexivity.
    + destruct (positives self) as [| x l] eqn:Hpos.
      * exists ZeroDivisionError. apply H1. reflexivity.
      * exists e. apply score_not_compiled; [exact Hp |].
        rewrite Hpos. discriminate.
Qed.

End ScorerClaims.

(** ** Names *)

Lemma t_name_inj (a b : nat) : t_name a = t_name b -> a = b.
Proof.
  unfold t_name. intros H. injection H as H.
  apply (f_equal NilEmpty.uint_of_string) in H.
  rewrite !NilEmpty.usu in H. injection H as H.
  apply (f_equal Nat.of_uint) in H.
  rewrite !Unsigned.of_to in H. exact H.
Qed.

Lemma t_name_not_start (a : nat) : t_name a <> "start".
Proof. unfold t_name. intros H. discriminate H. Qed.

Lemma quoted_inj (a b : ascii) : quoted a = quoted b -> a = b.
Proof. unfold quoted. intros H. injection H as H. exact H. Qed.

(** ** Population *)

Lemma Qgtb_true (a b : Q) : Qgtb a b = true <-> (b < a)%Q.
Proof.
  unfold Qgtb. rewrite negb_true_iff. split; intros H.
  - apply Qnot_le_lt. intros Hle. apply Qle_bool_iff in Hle. congruence.
  - destruct (Qle_bool a b) eqn:E; [| reflexivity].
    apply Qle_bool_iff in E. exfalso. apply (Qlt_not_le _ _ H). exact E.
Qed.

Lemma Qgtb_false (a b : Q) : Qgtb a b = false <-> (a <= b)%Q.
Proof.
  unfold Qgtb. rewrite negb_false_iff. apply Qle_bool_iff.
Qed.

Lemma entry_before_le (a b : Entry) :
  entry_before a b -> (entry_score a <= entry_score b)%Q.
Proof.
  intros [H | [H _]]; [apply Qlt_le_weak; exact H | rewrite H; apply Qle_refl].
Qed.

Lemma list_insert_cons {A : Type} (i : nat) (x y : A) (l : list A) :
  list_insert (S i) x (y :: l) = y :: list_insert i x l.
Proof. reflexivity. Qed.

Lemma length_list_insert {A : Type} (i : nat) (x : A) (l : list A) :
  List.length (list_insert i x l) = S (List.length l).
Proof.
  unfold list_insert. rewrite length_app. cbn [List.length].
  pose proof (f_equal (@List.length A) (firstn_skipn i l)) as H.
  rewrite length_app in H. lia.
Qed.

Lemma Forall_list_insert {A : Type} (P : A -> Prop) (i : nat) (x : A) (l : list A) :
  P x -> Forall P l -> Forall P (list_insert i x l).
Proof.
  intros Hx Hl. unfold list_insert. apply Forall_app. split.
  - rewrite <- (firstn_skipn i l) in Hl. apply Forall_app in Hl. apply Hl.
  - constructor; [exact Hx |].
    rewrite <- (firstn_skipn i l) in Hl. apply Forall_app in Hl. apply Hl.
Qed.

(** The entries the insertion loop walks past have a score that is not
    greater than the new one. *)
Lemma find_insert_idx_before (s : Q) (pop : list Entry) :
  Forall (fun e => (entry_score e <= s)%Q) (firstn (find_insert_idx s pop) pop).
Proof.
  induction pop as [| e rest IH]; simpl; [constructor |].
  destruct (Qgtb (entry_score e) s) eqn:E; simpl; [constructor |].
  constructor; [apply Qgtb_false; exact E | exact IH].
Qed.

(** In a sorted population, the entries from the insertion point on have a
    greater score. *)
Lemma find_insert_idx_after (s : Q) (pop : list Entry) :
  StronglySorted entry_before pop ->
  Forall (fun e => (s < entry_score e)%Q) (skipn (find_insert_idx s pop) pop).
Proof.
  induction pop as [| e rest IH]; simpl; intros Hs; [constructor |].
  apply StronglySorted_inv in Hs. destruct Hs as [Hrest He].
  destruct (Qgtb (entry_score e) s) eqn:E; simpl.
  - apply Qgtb_true in E. constructor; [exact E |].
    eapply Forall_impl; [| exact He]. intros y Hy. simpl in Hy.
    apply Qlt_le_trans with (entry_score e); [exact E | apply entry_before_le; exact Hy].
  - apply IH. exact Hrest.
Qed.

(** Inserting a youngest entry at the index the loop finds keeps the
    population sorted. *)
Lemma insert_sorted (x : Entry) (pop : list Entry) :
  StronglySorted entry_before pop ->
  Forall (fun e => entry_id e < entry_id x) pop ->
  StronglySorted entry_before
    (list_insert (find_insert_idx (entry_score x) pop) x pop).
Proof.
  induction pop as [| e rest IH]; intros Hs Hid.
  - simpl. constructor; constructor.
  - apply StronglySorted_inv in Hs. destruct Hs as [Hrest He].
    inversion Hid as [| ? ? Hide Hidrest]; subst.
    simpl. destruct (Qgtb (entry_score e) (entry_score x)) eqn:E.
    + apply Qgtb_true in E. unfold list_insert. simpl.
      constructor; [constructor; assumption |].
      constructor; [left; exact E |].
      eapply Forall_impl; [| exact He]. intros y Hy. left.
      apply Qlt_le_trans with (entry_score e); [exact E | apply entry_before_le; exact Hy].
    + apply Qgtb_false in E. rewrite list_insert_cons.
      constructor; [apply IH; assumption |].
      apply Forall_list_insert; [| exact He].
      destruct (Qle_lt_or_eq _ _ E) as [Hlt | Heq]; [left; exact Hlt | right].
      split; [exact Heq | exact Hide].
Qed.

(** The eviction loop removes exactly the overflow, from the front. *)
Lemma evict_skipn (fuel : nat) (pop : list Entry) :
  List.length pop - POPULATION_SIZE <= fuel ->
  evict fuel pop = skipn (List.length pop - POPULATION_SIZE) pop.
Proof.
  revert pop. induction fuel as [| fuel IH]; intros pop Hfuel; cbn [evict].
  - replace (List.length pop - POPULATION_SIZE) with 0 by lia. reflexivity.
  - destruct (POPULATION_SIZE <? List.length pop) eqn:E.
    + apply Nat.ltb_lt in E.
      destruct pop as [| e rest]; [cbn [List.length] in E; lia |].
      cbn [tl List.length] in *. rewrite IH by lia.
      replace (S (List.length rest) - POPULATION_SIZE)
        with (S (List.length rest - POPULATION_SIZE)) by lia.
      reflexivity.
    + apply Nat.ltb_ge in E.
      replace (List.length pop - POPULATION_SIZE) with 0 by lia. reflexivity.
Qed.

Lemma StronglySorted_skipn {A : Type} (R : A -> A -> Prop) (n : nat) (l : list A) :
  StronglySorted R l -> StronglySorted R (skipn n l).
Proof.
  revert l. induction n as [| n IH]; intros l Hs; [exact Hs |].
  destruct l as [| x l]; [exact Hs |].
  simpl. apply IH. apply StronglySorted_inv in Hs. apply Hs.
Qed.

Lemma Forall_skipn {A : Type} (P : A -> Prop) (n : nat) (l : list A) :
  Forall P l -> Forall P (skipn n l).
Proof.
  intros H. rewrite <- (firstn_skipn n l) in H. apply Forall_app in H. apply H.
Qed.

Lemma add_to_population_spec (g : Grammar) (s : Q) (id : nat) (st : SearchState) :
  StronglySorted entry_before (population st) ->
  Forall (fun e => entry_id e < id) (population st) ->
  Qgtb s (minimum_score st) = true ->
  let pop := list_insert (find_insert_idx s (population st)) (g, id, s) (population st) in
  exists first rest,
    skipn (List.length pop - POPULATION_SIZE) pop = first :: rest /\
    add_to_population g s id st
    = Ok (mkState (first :: rest) (entry_score first) (cur_gram_id st)) /\
    List.length (first :: rest) <= POPULATION_SIZE /\
    StronglySorted entry_before (first :: rest) /\
    Forall (fun e => entry_id e <= id) (first :: rest).
Proof.
  intros Hsorted Hids Hgt pop.
  assert (Hlen : List.length pop = S (List.length (population st))).
  { apply length_list_insert. }
  assert (Hk : List.length (skipn (List.length pop - POPULATION_SIZE) pop)
               = Nat.min (List.length pop) POPULATION_SIZE).
  { rewrite length_skipn. unfold POPULATION_SIZE. lia. }
  assert (Hpop : StronglySorted entry_before pop).
  { apply (insert_sorted (g, id, s)); [exact Hsorted | exact Hids]. }
  assert (Hpopid : Forall (fun e => entry_id e <= id) pop).
  { apply Forall_list_insert; [apply Nat.le_refl |].
    eapply Forall_impl; [| exact Hids]. intros e He. simpl in He. lia. }
  assert (Hadd : add_to_population g s id st
                 = (first <- get_nth (skipn (List.length pop - POPULATION_SIZE) pop) 0 ;;
                    Ok (mkState (skipn (List.length pop - POPULATION_SIZE) pop)
                                (entry_score first) (cur_gram_id st)))).
  { unfold add_to_population. rewrite Hgt. cbn [negb].
    rewrite evict_skipn by apply Nat.le_sub_l. reflexivity. }
  rewrite Hadd. clearbody pop.
  destruct (skipn (List.length pop - POPULATION_SIZE) pop) as [| first rest] eqn:Hskip.
  { exfalso. cbn [List.length] in Hk. unfold POPULATION_SIZE in Hk. lia. }
  exists first, rest. split; [reflexivity |].
  split; [reflexivity |]. split; [| split].
  - rewrite Hk. apply Nat.le_min_r.
  - rewrite <- Hskip. apply StronglySorted_skipn. exact Hpop.
  - rewrite <- Hskip. apply Forall_skipn. exact Hpopid.
Qed.

(** ** The generation loop *)

Lemma bindR_ok {A B : Type} (c : Rand A) (k : A -> Rand B) (i j : nat) (b : B) :
  bindR c k i = Ok (b, j) -> exists a i', c i = Ok (a, i') /\ k a i' = Ok (b, j).
Proof.
  unfold bindR. destruct (c i) as [[a i'] | e]; intros H; [| discriminate H].
  exists a, i'. split; [reflexivity | exact H].
Qed.

Lemma lift_ok {A : Type} (c : result A) (i j : nat) (a : A) :
  lift c i = Ok (a, j) -> c = Ok a /\ j = i.
Proof.
  unfold lift. destruct c as [a' | e]; intros H; [| discriminate H].
  injection H as -> ->. split; reflexivity.
Qed.

Lemma ret_ok {A : Type} (a b : A) (i j : nat) :
  ret a i = Ok (b, j) -> b = a /\ j = i.
Proof. unfold ret. intros H. injection H as -> ->. split; reflexivity. Qed.

Section GenerationFacts.

Context {engine : Engine} {util : Util} {pyset : PySet}.

Variable tape : nat -> nat.
Variable scorer : Scorer.

Lemma fuzz_one_inv (parent : Grammar) (st st' : SearchState) (i j : nat) :
  pop_inv st ->
  fuzz_one tape scorer parent st i = Ok (st', j) ->
  pop_inv st' /\ (unchanged st st' \/ admitted st st').
Proof.
  intros [Hlen [Hsorted [[first [rest [Hpop Hmin]]] Hids]]] Hrun.
  unfold fuzz_one in Hrun.
  apply bindR_ok in Hrun. destruct Hrun as [num [i1 [_ Hrun]]].
  apply bindR_ok in Hrun. destruct Hrun as [before_score [i2 [_ Hrun]]].
  apply bindR_ok in Hrun. destruct Hrun as [mutant [i3 [_ Hrun]]].
  apply bindR_ok in Hrun. destruct Hrun as [mutant_score [i4 [_ Hrun]]].
  cbn [minimum_score cur_gram_id population] in Hrun.
  destruct (Qgtb mutant_score (minimum_score st)) eqn:Hgt.
  - apply lift_ok in Hrun. destruct Hrun as [Hadd _].
    set (st1 := mkState (population st) (minimum_score st) (cur_gram_id st + 1)) in *.
    assert (Hids1 : Forall (fun e => entry_id e < cur_gram_id st + 1) (population st1)).
    { eapply Forall_impl; [| exact Hids]. intros e He. simpl in He. lia. }
    destruct (add_to_population_spec mutant mutant_score (cur_gram_id st + 1) st1
                Hsorted Hids1 Hgt) as [f [r [Hskip [Heq [Hl [Hs Hi]]]]]].
    rewrite Heq in Hadd. injection Hadd as <-. split.
    + repeat split; try assumption. exists f, r. split; reflexivity.
    + right. exists mutant, mutant_score,
        (firstn (find_insert_idx mutant_score (population st)) (population st)),
        (skipn (find_insert_idx mutant_score (population st)) (population st)).
      split; [apply Qgtb_true; exact Hgt |].
      split; [symmetry; apply firstn_skipn |].
      split; [apply find_insert_idx_before |].
      split; [apply find_insert_idx_after; exact Hsorted |].
      cbn zeta. cbn [population cur_gram_id].
      rewrite <- Hskip. rewrite Nat.add_1_r. reflexivity.
  - apply ret_ok in Hrun. destruct Hrun as [-> _]. split.
    + repeat split; cbn [population minimum_score cur_gram_id]; try assumption.
      * exists first, rest. split; assumption.
      * eapply Forall_impl; [| exact Hids]. intros e He. simpl in He. lia.
    + left. split; reflexivity.
Qed.

Lemma generation_inv (st st' : SearchState) (i j : nat) :
  pop_inv st ->
  generation tape scorer st i = Ok (st', j) ->
  pop_inv st' /\ (unchanged st st' \/ admitted st st').
Proof.
  intros Hinv Hrun. unfold generation in Hrun.
  apply bindR_ok in Hrun. destruct Hrun as [parent [i1 [_ Hrun]]].
  apply bindR_ok in Hrun. destruct Hrun as [st1 [i2 [Hfuzz Hrun]]].
  apply bindR_ok in Hrun. destruct Hrun as [best [i3 [_ Hrun]]].
  apply ret_ok in Hrun. destruct Hrun as [-> _].
  exact (fuzz_one_inv _ _ _ _ _ Hinv Hfuzz).
Qed.

Lemma generations_inv (n : nat) (st st' : SearchState) (i j : nat) :
  pop_inv st ->
  generations tape scorer n st i = Ok (st', j) ->
  pop_inv st'.
Proof.
  revert st i. induction n as [| n IH]; intros st i Hinv Hrun.
  - apply ret_ok in Hrun. destruct Hrun as [-> _]. exact Hinv.
  - cbn [generations] in Hrun.
    apply bindR_ok in Hrun. destruct Hrun as [st1 [i1 [Hgen Hrun]]].
    apply (IH st1 i1); [| exact Hrun].
    apply (generation_inv st st1 i i1 Hinv Hgen).
Qed.

End GenerationFacts.

Section SearchClaims.

Context {engine : Engine} {util : Util} {pyset : PySet}.

Lemma initial_state_inv (guides positives negatives : list string) (st : SearchState) :
  initial_state guides positives negatives = Ok st -> pop_inv st.
Proof.
  unfold initial_state. intros H.
  apply bind_ok in H. destruct H as [g [_ H]].
  apply bind_ok in H. destruct H as [m [_ H]].
  injection H as <-. unfold pop_inv. cbn [population minimum_score cur_gram_id].
  split; [unfold POPULATION_SIZE; simpl; lia |].
  split; [constructor; constructor |].
  split; [exists (g, 0, m), []; split; reflexivity |].
  constructor; [apply Nat.le_refl | constructor].
Qed.

(** C4: at every generation of the search the population invariant holds:
    at most 20 entries; sorted ascending by score, entries of equal score
    older first; the tracked minimum is the score of the first entry. A
    generation either leaves the population as it is or admits one entry,
    whose score is strictly above the minimum recorded before, placed
    after every entry whose score is not greater than its own, with the
    overflow evicted from the low-score end. *)
Theorem population_invariant (tape : nat -> nat) (n : nat)
  (guides pos neg : list string) (i j : nat) (st : SearchState) :
  search_loop tape n guides pos neg i = Ok (st, j) ->
  pop_inv st /\
  forall i' j' st',
    generation tape (mkScorer pos neg) st i' = Ok (st', j') ->
    pop_inv st' /\ (unchanged st st' \/ admitted st st').
Proof.
  intros Hrun. unfold search_loop in Hrun.
  apply bindR_ok in Hrun. destruct Hrun as [st0 [i0 [Hinit Hrun]]].
  apply lift_ok in Hinit. destruct Hinit as [Hinit _].
  assert (Hinv : pop_inv st).
  { apply (generations_inv tape (mkScorer pos neg) n st0 st i0 j); [| exact Hrun].
    apply (initial_state_inv _ _ _ _ Hinit). }
  split; [exact Hinv |].
  intros i' j' st' Hgen.
  exact (generation_inv tape (mkScorer pos neg) st st' i' j' Hinv Hgen).
Qed.

End SearchClaims.

(** ** Seed builder *)

Lemma add_rule_list_new (rule : Rule) (rs : list Rule) :
  ~ In (start rule) (map start rs) -> add_rule_list rule rs = (rs ++ [rule])%list.
Proof.
  induction rs as [| r rs IH]; simpl; intros Hnew; [reflexivity |].
  destruct (String.eqb (start r) (start rule)) eqn:E.
  - apply String.eqb_eq in E. exfalso. apply Hnew. left. exact E.
  - rewrite IH; [reflexivity |]. intros Hin. apply Hnew. right. exact Hin.
Qed.

Lemma dict_set_new (k v : string) (d : list (string * string)) :
  ~ In k (map fst d) -> dict_set k v d = (d ++ [(k, v)])%list.
Proof.
  induction d as [| [k' v'] d IH]; simpl; intros Hnew; [reflexivity |].
  destruct (String.eqb k' k) eqn:E.
  - apply String.eqb_eq in E. exfalso. apply Hnew. left. exact E.
  - rewrite IH; [reflexivity |]. intros Hin. apply Hnew. right. exact Hin.
Qed.

Lemma map_result_ok {A B : Type} (f : A -> result B) (h : A -> B) (l : list A) :
  (forall x, In x l -> f x = Ok (h x)) -> map_result f l = Ok (map h l).
Proof.
  induction l as [| x l IH]; simpl; intros H; [reflexivity |].
  rewrite (H x (or_introl eq_refl)). simpl.
  rewrite IH by (intros y Hy; apply H; right; exact Hy). reflexivity.
Qed.

Lemma add_leaves_fold (l : list (nat * string)) (rs : list Rule)
  (d : list (string * string)) :
  NoDup (map start rs ++ map (fun ic => t_name (fst ic + 1)) l) ->
  NoDup (map fst d ++ map snd l) ->
  fold_left
    (fun acc ic =>
       let idx := fst ic + 1 in
       (add_rule (add_body [snd ic] (Rule_new (t_name idx))) (fst acc),
        dict_set (snd ic) (t_name idx) (snd acc)))
    l (mkGrammar rs, d)
  = (mkGrammar (rs ++ map leaf_rule l), (d ++ map leaf_entry l)%list).
Proof.
  revert rs d. induction l as [| ic l IH]; intros rs d Hnames Hchars.
  - simpl. rewrite !app_nil_r. reflexivity.
  - cbn [fold_left fst snd map] in *.
    assert (Hn : ~ In (t_name (fst ic + 1)) (map start rs)).
    { apply NoDup_remove_2 in Hnames. intros Hin. apply Hnames.
      apply in_or_app. left. exact Hin. }
    assert (Hc : ~ In (snd ic) (map fst d)).
    { apply NoDup_remove_2 in Hchars. intros Hin. apply Hchars.
      apply in_or_app. left. exact Hin. }
    unfold add_rule. cbn [rules].
    rewrite add_rule_list_new by exact Hn.
    rewrite dict_set_new by exact Hc.
    change (add_body [snd ic] (Rule_new (t_name (fst ic + 1)))) with (leaf_rule ic).
    change (snd ic, t_name (fst ic + 1)) with (leaf_entry ic).
    rewrite IH.
    + rewrite <- !app_assoc. reflexivity.
    + rewrite map_app, <- app_assoc. exact Hnames.
    + rewrite map_app, <- app_assoc. exact Hchars.
Qed.

Lemma dict_get_leaf (l : list (nat * string)) (i : nat) (c : string) :
  NoDup (map snd l) -> In (i, c) l ->
  dict_get (map leaf_entry l) c = Ok (t_name (i + 1)).
Proof.
  induction l as [| [j c'] l IH]; simpl; intros Hnd Hin; [contradiction |].
  inversion Hnd as [| ? ? Hnotin Hnd']; subst.
  destruct Hin as [Heq | Hin].
  - injection Heq as -> ->. rewrite String.eqb_refl. reflexivity.
  - destruct (String.eqb c' c) eqn:E.
    + apply String.eqb_eq in E. subst c'. exfalso. apply Hnotin.
      apply (in_map snd) in Hin. exact Hin.
    + apply IH; assumption.
Qed.

Lemma map_combine_snd {A B C : Type} (f : A * B -> C) (h : B -> C)
  (a : list A) (b : list B) :
  List.length a = List.length b ->
  (forall x, In x (combine a b) -> f x = h (snd x)) ->
  map f (combine a b) = map h b.
Proof.
  revert b. induction a as [| x a IH]; intros [| y b] Hlen H; simpl in *;
    try discriminate; [reflexivity |].
  rewrite (H (x, y) (or_introl eq_refl)). simpl. f_equal.
  apply IH; [lia |]. intros z Hz. apply H. right. exact Hz.
Qed.

Lemma enumerate_fst {A : Type} (l : list A) :
  map fst (enumerate l) = seq 0 (List.length l).
Proof.
  unfold enumerate. generalize 0.
  induction l as [| x l IH]; intros n; simpl; [reflexivity |].
  rewrite IH. reflexivity.
Qed.

Lemma enumerate_snd {A : Type} (l : list A) : map snd (enumerate l) = l.
Proof.
  unfold enumerate. generalize 0.
  induction l as [| x l IH]; intros n; simpl; [reflexivity |].
  rewrite IH. reflexivity.
Qed.

Lemma add_guides_ok (d : list (string * string)) (name_of : string -> string)
  (guides : list string) (rule : Rule) :
  (forall guide c, In guide guides -> In c (list_ascii_of_string guide) ->
     dict_get d (quoted c) = Ok (name_of (quoted c))) ->
  add_guides d guides rule
  = Ok (mkRule (start rule)
          (bodies rule
           ++ map (fun guide => map (fun c => name_of (quoted c))
                                    (list_ascii_of_string guide))
                  guides)).
Proof.
  revert rule. induction guides as [| guide rest IH]; intros rule H.
  - simpl. rewrite app_nil_r. destruct rule; reflexivity.
  - cbn [add_guides].
    rewrite (map_result_ok _ (fun c => name_of (quoted c))).
    + cbn [bind]. rewrite IH.
      * cbn [add_body start bodies map]. rewrite <- app_assoc. reflexivity.
      * intros g c Hg Hc. apply (H g c); [right; exact Hg | exact Hc].
    + intros c Hc. apply (H guide c); [left; reflexivity | exact Hc].
Qed.

Lemma leaf_names_NoDup {A : Type} (l : list A) :
  NoDup ("start" :: "t0" :: map (fun ic : nat * A => t_name (fst ic + 1)) (enumerate l)).
Proof.
  assert (Heq : map (fun ic : nat * A => t_name (fst ic + 1)) (enumerate l)
                = map (fun i => t_name (i + 1)) (seq 0 (List.length l))).
  { rewrite <- enumerate_fst, map_map. reflexivity. }
  rewrite Heq.
  constructor; [| constructor].
  - intros [H | H]; [discriminate H |].
    apply in_map_iff in H. destruct H as [i [H _]].
    apply (t_name_not_start _ H).
  - intros H. apply in_map_iff in H. destruct H as [i [H _]].
    change "t0" with (t_name 0) in H. apply t_name_inj in H. lia.
  - apply Finite.Injective_map_NoDup; [| apply seq_NoDup].
    intros a b H. apply t_name_inj in H. lia.
Qed.

Section SeedClaims.

Context {pyset : PySet}.

Lemma set_iter_NoDup (l : list string) : NoDup (set_iter l).
Proof.
  eapply Permutation_NoDup; [symmetry; apply set_iter_perm | apply NoDup_nodup].
Qed.

Lemma set_iter_In (l : list string) (x : string) : In x (set_iter l) <-> In x l.
Proof.
  rewrite <- (nodup_In string_dec l x). split; intros H.
  - eapply Permutation_in; [apply set_iter_perm | exact H].
  - eapply Permutation_in; [symmetry; apply set_iter_perm | exact H].
Qed.

(** The rules of the seed, in the order [init_grammar] adds them. *)
Lemma init_grammar_rules (guides : list string) :
  let chars := set_iter (guide_chars guides) in
  init_grammar guides
  = Ok (mkGrammar
          (mkRule "start" [["t0"]]
           :: map leaf_rule (enumerate chars)
           ++ [mkRule "t0"
                 (map (fun guide => map (fun c => char_name chars (quoted c))
                                        (list_ascii_of_string guide))
                      guides)])) /\
  map leaf_rule (enumerate chars) = map (fun q => mkRule (char_name chars q) [[q]]) chars.
Proof.
  intros chars.
  pose proof (set_iter_NoDup (guide_chars guides)) as Hnd. fold chars in Hnd.
  set (l := enumerate chars).
  set (d := map leaf_entry l).
  pose proof (leaf_names_NoDup chars) as Hnames. fold l in Hnames.
  assert (Hleaf : forall i c, In (i, c) l -> dict_get d c = Ok (t_name (i + 1))).
  { intros i c Hin. apply dict_get_leaf; [| exact Hin].
    unfold l. rewrite enumerate_snd. exact Hnd. }
  assert (Hget : forall i c, In (i, c) l -> dict_get d c = Ok (char_name chars c)).
  { intros i c Hin. unfold char_name. fold l. fold d.
    rewrite (Hleaf i c Hin). reflexivity. }
  split.
  - unfold init_grammar, add_leaves. fold chars. fold l.
    unfold Grammar_new. cbn [add_body Rule_new start bodies app].
    rewrite add_leaves_fold.
    + cbn [app]. fold d.
      rewrite (add_guides_ok d (char_name chars)).
      * cbn [bind Rule_new start bodies app]. unfold add_rule. cbn [rules].
        rewrite add_rule_list_new; [rewrite <- app_comm_cons; reflexivity |].
        cbn [map start]. rewrite map_map.
        inversion Hnames as [| ? ? _ Hrest]; subst.
        inversion Hrest as [| ? ? Ht0 _]; subst.
        intros [H | H]; [discriminate H | apply Ht0; exact H].
      * intros guide c Hg Hc.
        assert (Hin : In (quoted c) chars).
        { apply set_iter_In. unfold guide_chars. apply in_flat_map.
          exists guide. split; [exact Hg | apply in_map; exact Hc]. }
        rewrite <- (enumerate_snd chars) in Hin. fold l in Hin.
        apply in_map_iff in Hin. destruct Hin as [[i q] [Hq Hin]].
        cbn [snd] in Hq. subst q. apply (Hget i). exact Hin.
    + cbn [map start app]. inversion Hnames as [| ? ? Hs Hrest]; subst.
      inversion Hrest as [| ? ? _ Hl]; subst.
      constructor; [| exact Hl].
      intros H. apply Hs. right. exact H.
    + cbn [map app]. unfold l. rewrite enumerate_snd. exact Hnd.
  - unfold l, enumerate. apply map_combine_snd; [apply length_seq |].
    intros [i c] Hin. unfold leaf_rule. cbn [fst snd]. f_equal.
    pose proof (Hget i c Hin) as H1. pose proof (Hleaf i c Hin) as H2. congruence.
Qed.

(** C9: for every list of guides, [init_grammar] returns a grammar made of
    the [start] rule, exactly one leaf rule per distinct character that
    appears in a guide, whose single body is that character between double
    quotes, and the entry rule [t0] with one body per guide, each the
    names of the leaf rules of the guide's characters in order. [chars]
    lists the distinct characters of the guides in the order the set gives
    them and [leaf_name] maps a character to the name of its leaf rule;
    the names of the leaves differ from one another, from [start] and from
    [t0]. *)
Theorem init_grammar_spec (guides : list string) :
  exists (leaf_name : ascii -> string) (chars : list ascii),
    NoDup chars /\
    (forall c, In c chars
               <-> exists guide, In guide guides /\ In c (list_ascii_of_string guide)) /\
    NoDup ("start" :: "t0" :: map leaf_name chars) /\
    init_grammar guides
    = Ok (mkGrammar
            (mkRule "start" [["t0"]]
             :: map (fun c => mkRule (leaf_name c)
                                [[String "034"%char (String c (String "034"%char EmptyString))]])
                    chars
             ++ [mkRule "t0"
                   (map (fun guide => map leaf_name (list_ascii_of_string guide))
                        guides)])).
Proof.
  destruct (init_grammar_rules guides) as [Heq Hleaves].
  set (qs := set_iter (guide_chars guides)) in *.
  pose (unquote := fun s : string =>
                     match s with
                     | String _ (String c _) => c
                     | _ => Ascii.zero
                     end).
  assert (Hqs : forall q, In q qs <->
                          exists guide c, In guide guides
                                          /\ In c (list_ascii_of_string guide)
                                          /\ q = quoted c).
  { intros q. unfold qs. rewrite set_iter_In. unfold guide_chars.
    rewrite in_flat_map. split.
    - intros [guide [Hg Hq]]. apply in_map_iff in Hq. destruct Hq as [c [Hc Hin]].
      exists guide, c. auto.
    - intros [guide [c [Hg [Hc ->]]]]. exists guide. split; [exact Hg |].
      apply in_map. exact Hc. }
  assert (Hmap : map quoted (map unquote qs) = qs).
  { rewrite map_map. rewrite <- (map_id qs) at 2. apply map_ext_in.
    intros q Hq. apply Hqs in Hq. destruct Hq as [_ [c [_ [_ ->]]]]. reflexivity. }
  assert (Hnd : NoDup (map quoted (map unquote qs))).
  { rewrite Hmap. apply set_iter_NoDup. }
  exists (fun c => char_name qs (quoted c)), (map unquote qs).
  split; [| split; [| split]].
  - apply NoDup_map_inv in Hnd. exact Hnd.
  - intros c. split.
    + intros Hc. apply (in_map quoted) in Hc. rewrite Hmap in Hc.
      apply Hqs in Hc. destruct Hc as [guide [c' [Hg [Hc' E]]]].
      apply quoted_inj in E. subst c'. exists guide. auto.
    + intros [guide [Hg Hc]].
      assert (Hq : In (quoted c) qs) by (apply Hqs; exists guide, c; auto).
      rewrite <- Hmap in Hq. apply in_map_iff in Hq. destruct Hq as [c' [E Hc']].
      apply quoted_inj in E. subst c'. exact Hc'.
  - pose proof (leaf_names_NoDup qs) as Hnames.
    assert (E : map (fun ic : nat * string => t_name (fst ic + 1)) (enumerate qs)
                = map (fun c => char_name qs (quoted c)) (map unquote qs)).
    { rewrite <- (map_map quoted (char_name qs)), Hmap.
      change (fun ic : nat * string => t_name (fst ic + 1))
        with (fun ic : nat * string => start (leaf_rule ic)).
      rewrite <- (map_map leaf_rule start), Hleaves, map_map. reflexivity. }
    rewrite <- E. exact Hnames.
  - rewrite Heq, Hleaves. rewrite <- Hmap at 1. rewrite map_map. reflexivity.
Qed.

Lemma init_grammar_wf (guides : list string) (g : Grammar) :
  init_grammar guides = Ok g -> wf_grammar g.
Proof.
  intros H. destruct (init_grammar_rules guides) as [Heq _].
  rewrite Heq in H. injection H as <-.
  pose proof (leaf_names_NoDup (set_iter (guide_chars guides))) as Hnd. split.
  - unfold keys. cbn [rules map start]. rewrite map_app, map_map. cbn [map start].
    inversion Hnd as [| ? ? Hs Hrest]; subst.
    inversion Hrest as [| ? ? Ht0 Hl]; subst.
    constructor.
    + intros Hin. apply in_app_iff in Hin. destruct Hin as [Hin | [Hin | []]].
      * apply Hs. right. exact Hin.
      * discriminate Hin.
    + apply NoDup_snoc; assumption.
  - eexists _, _, _, _. reflexivity.
Qed.

End SeedClaims.

(** ** Rebuilding a grammar rule by rule *)

Lemma rule_with_eq (name : string) (bs : list Body) : rule_with name bs = mkRule name bs.
Proof.
  unfold rule_with.
  assert (H : forall r, fold_left (fun new_rule body => add_body body new_rule) bs r
                        = mkRule (start r) (bodies r ++ bs)).
  { induction bs as [| b bs IH]; intros r; simpl.
    - rewrite app_nil_r. destruct r; reflexivity.
    - rewrite IH. cbn [add_body start bodies]. rewrite <- app_assoc. reflexivity. }
  rewrite H. reflexivity.
Qed.

Lemma rebuild_append (f : Rule -> Rule) (rs acc : list Rule) :
  (forall r, start (f r) = start r) ->
  NoDup (map start acc ++ map start rs) ->
  fold_left (fun m rule => add_rule (f rule) m) rs (mkGrammar acc)
  = mkGrammar (acc ++ map f rs).
Proof.
  intros Hf. revert acc. induction rs as [| r rs IH]; intros acc Hnd.
  - simpl. rewrite app_nil_r. reflexivity.
  - cbn [fold_left map]. unfold add_rule at 2. cbn [rules].
    rewrite add_rule_list_new.
    + rewrite IH.
      * rewrite <- app_assoc. reflexivity.
      * rewrite map_app. cbn [map]. rewrite Hf, <- app_assoc. exact Hnd.
    + rewrite Hf. cbn [map] in Hnd. apply NoDup_remove_2 in Hnd.
      intros Hin. apply Hnd. apply in_or_app. left. exact Hin.
Qed.

Lemma wf_entry_symbol (g : Grammar) :
  wf_grammar g -> exists entry, entry_symbol g = Ok entry.
Proof.
  intros [_ [s [b [bs [rest Hr]]]]]. exists s.
  unfold entry_symbol, get_rule. rewrite Hr. reflexivity.
Qed.

(** On a well-formed grammar the rebuilding loop visits the rules in
    order and ends with the image of each. *)
Lemma rebuild_map (f : Rule -> Rule) (g : Grammar) (entry : Symbol) :
  (forall r, start (f r) = start r) ->
  wf_grammar g ->
  rebuild f g (Grammar_new entry) = mkGrammar (map f (rules g)).
Proof.
  intros Hf [Hnd [s [b [bs [rest Hr]]]]].
  unfold rebuild, keys in *. rewrite Hr in *.
  cbn [fold_left map]. unfold Grammar_new, add_rule at 2. cbn [rules add_rule_list].
  cbn [add_body Rule_new start]. rewrite Hf. cbn [start].
  cbn [String.eqb Ascii.eqb Bool.eqb]. 
  rewrite rebuild_append; [reflexivity | exact Hf |].
  cbn [map app start]. rewrite Hf. exact Hnd.
Qed.

Lemma list_remove_spec (x : string) (l l' : list string) :
  list_remove x l = Ok l' ->
  NoDup l ->
  In x l /\ NoDup l' /\ forall y, In y l' <-> (In y l /\ y <> x).
Proof.
  revert l'. induction l as [| z l IH]; simpl; intros l' H Hnd; [discriminate H |].
  inversion Hnd as [| ? ? Hz Hnd']; subst.
  destruct (String.eqb z x) eqn:E.
  - apply String.eqb_eq in E. subst z. injection H as <-.
    split; [left; reflexivity |]. split; [exact Hnd' |].
    intros y. split.
    + intros Hy. split; [right; exact Hy |]. intros ->. contradiction.
    + intros [[-> | Hy] Hne]; [contradiction Hne; reflexivity | exact Hy].
  - apply String.eqb_neq in E.
    apply bind_ok in H. destruct H as [l'' [Hl'' H]]. injection H as <-.
    destruct (IH l'' Hl'' Hnd') as [Hin [Hnd'' Hiff]].
    split; [right; exact Hin |]. split.
    + constructor; [| exact Hnd'']. intros Hzin. apply Hiff in Hzin.
      apply Hz. apply Hzin.
    + intros y. simpl. rewrite Hiff. split.
      * intros [-> | [Hy Hne]]; [split; [left; reflexivity | exact E] |].
        split; [right; exact Hy | exact Hne].
      * intros [[-> | Hy] Hne]; [left; reflexivity | right; split; assumption].
Qed.

Lemma list_remove_total (x : string) (l : list string) :
  In x l -> exists l', list_remove x l = Ok l'.
Proof.
  induction l as [| z l IH]; simpl; intros Hin; [contradiction |].
  destruct (String.eqb z x) eqn:E; [eexists; reflexivity |].
  apply String.eqb_neq in E.
  destruct Hin as [-> | Hin]; [contradiction E; reflexivity |].
  destruct (IH Hin) as [l' Hl']. rewrite Hl'. eexists. reflexivity.
Qed.

Lemma get_rule_ok (g : Grammar) (key : string) (rule : Rule) :
  get_rule g key = Ok rule -> In rule (rules g) /\ start rule = key.
Proof.
  unfold get_rule.
  destruct (find (fun r => String.eqb (start r) key) (rules g)) as [r |] eqn:E;
    intros H; [| discriminate H].
  injection H as <-. apply find_some in E.
  destruct E as [Hin Heq]. apply String.eqb_eq in Heq. split; assumption.
Qed.

Lemma get_nth_ok {A : Type} (l : list A) (i : nat) (x : A) :
  get_nth l i = Ok x <-> nth_error l i = Some x.
Proof.
  unfold get_nth. destruct (nth_error l i); split; intros H;
    try discriminate H; injection H as <-; reflexivity.
Qed.

(** ** Site selection of Alternate and Repeat *)

Lemma weighted_choice_in (r : nat) (g : Grammar) (nts : list string) (k : string) :
  weighted_choice r g nts = Ok k -> In k nts /\ 0 < body_count g k.
Proof.
  unfold weighted_choice. destruct nts as [| n nts]; [discriminate |].
  destruct (list_sum (map (body_count g) (n :: nts)) =? 0); [discriminate |].
  intros H. apply random_choice_in in H. apply in_flat_map in H.
  destruct H as [nt [Hnt Hk]].
  assert (k = nt) by (apply repeat_spec in Hk; exact Hk). subst nt.
  split; [exact Hnt |].
  destruct (body_count g k); [contradiction | lia].
Qed.

Lemma choose_site_ok (r_key r_body r_idx : nat) (g : Grammar)
  (k : string) (bi i : nat) (x : Symbol) :
  NoDup (keys g) ->
  choose_site r_key r_body r_idx g = Ok (k, bi, i, x) ->
  exists nts rule body,
    list_remove "start" (keys g) = Ok nts /\
    weighted_choice r_key g nts = Ok k /\
    get_rule g k = Ok rule /\
    random_choice r_body (range 0 (List.length (bodies rule))) = Ok bi /\
    random_choice r_idx (range 0 (List.length body)) = Ok i /\
    In rule (rules g) /\ start rule = k /\ k <> "start" /\
    nth_error (bodies rule) bi = Some body /\ nth_error body i = Some x.
Proof.
  intros Hnd H. unfold choose_site in H.
  apply bind_ok in H. destruct H as [nts [Hnts H]].
  apply bind_ok in H. destruct H as [k' [Hk H]].
  apply bind_ok in H. destruct H as [rule [Hrule H]].
  apply bind_ok in H. destruct H as [bi' [Hbi H]].
  apply bind_ok in H. destruct H as [body [Hbody H]].
  apply bind_ok in H. destruct H as [i' [Hi H]].
  apply bind_ok in H. destruct H as [x' [Hx H]].
  injection H as -> -> -> ->.
  exists nts, rule, body.
  destruct (get_rule_ok _ _ _ Hrule) as [Hin Hstart].
  destruct (list_remove_spec _ _ _ Hnts Hnd) as [_ [_ Hiff]].
  destruct (weighted_choice_in _ _ _ _ Hk) as [Hknts _].
  apply Hiff in Hknts.
  repeat split; try assumption; try (apply get_nth_ok; assumption).
  apply Hknts.
Qed.

(** Replacing the element at one index of a list, as a map over the
    enumerated list. *)
Lemma map_enumerate_other {A : Type} (F : A -> A) (target off : nat) (l : list A) :
  target < off ->
  map (fun ib : nat * A => if fst ib =? target then F (snd ib) else snd ib)
      (combine (seq off (List.length l)) l) = l.
Proof.
  revert off. induction l as [| a l IH]; intros off Hlt; simpl; [reflexivity |].
  destruct (off =? target) eqn:E; [apply Nat.eqb_eq in E; lia |].
  rewrite IH by lia. reflexivity.
Qed.

Lemma map_enumerate_at {A : Type} (F : A -> A) (i off : nat) (l : list A) (a : A) :
  nth_error l i = Some a ->
  map (fun ib : nat * A => if fst ib =? off + i then F (snd ib) else snd ib)
      (combine (seq off (List.length l)) l)
  = set_nth i (F a) l.
Proof.
  revert i off. induction l as [| b l IH]; intros i off Hnth.
  - destruct i; discriminate Hnth.
  - destruct i as [| i].
    + injection Hnth as ->. cbn [List.length seq combine map fst snd].
      rewrite Nat.add_0_r, Nat.eqb_refl.
      rewrite map_enumerate_other by lia. reflexivity.
    + cbn [nth_error] in Hnth. cbn [List.length seq combine map fst snd].
      destruct (off =? off + S i) eqn:E; [apply Nat.eqb_eq in E; lia |].
      replace (off + S i) with (S off + i) by lia.
      rewrite (IH i (S off) Hnth). reflexivity.
Qed.

Lemma repeat_bodies_eq (bi i : nat) (R : Symbol) (bs : list Body) (body : Body) :
  nth_error bs bi = Some body ->
  repeat_bodies bi i R bs = set_nth bi (set_nth i R body) bs.
Proof.
  intros Hnth. unfold repeat_bodies, enumerate.
  rewrite <- (map_enumerate_at (fun b => set_nth i R b) bi 0 bs body Hnth).
  apply map_ext. intros [n b]. cbn [fst snd Nat.add].
  unfold set_nth. rewrite Nat.add_1_r. reflexivity.
Qed.

Lemma find_unique (g : Grammar) (rule : Rule) :
  NoDup (keys g) -> In rule (rules g) ->
  forall r, In r (rules g) -> start r = start rule -> r = rule.
Proof.
  unfold keys. induction (rules g) as [| a rs IH]; simpl; intros Hnd Hin r Hr Heq;
    [contradiction |].
  inversion Hnd as [| ? ? Ha Hnd']; subst.
  destruct Hin as [-> | Hin], Hr as [-> | Hr]; try reflexivity.
  - exfalso. apply Ha. rewrite <- Heq. apply in_map. exact Hr.
  - exfalso. apply Ha. rewrite Heq. apply in_map. exact Hin.
  - apply IH; assumption.
Qed.

Section RepeatClaims.

Context {util : Util}.

(** What [mutate_repeat] returns once a site [(k, bi, i)] holding [x] is
    chosen. *)
Lemma mutate_repeat_at_site (r_key r_body r_idx : nat) (g : Grammar)
  (k : string) (bi i : nat) (x : Symbol) :
  wf_grammar g ->
  choose_site r_key r_body r_idx g = Ok (k, bi, i, x) ->
  exists (R : Symbol) (rule : Rule) (body : Body),
    ~ In R (keys g) /\
    In rule (rules g) /\ start rule = k /\ k <> "start" /\
    nth_error (bodies rule) bi = Some body /\ nth_error body i = Some x /\
    mutate_repeat r_key r_body r_idx g
    = Ok (mkGrammar
            (map (fun r => if String.eqb (start r) k
                           then mkRule k (set_nth bi (set_nth i R body) (bodies r))
                           else r)
                 (rules g)
             ++ [mkRule R [[x]; [x; R]]])).
Proof.
  intros Hwf Hsite. pose proof Hwf as [Hnd _].
  destruct (choose_site_ok _ _ _ _ _ _ _ _ Hnd Hsite)
    as [nts [rule [body [Hnts [Hk [Hrule [Hbi [Hi [Hin [Hstart [Hne [Hbody Hx]]]]]]]]]]]].
  destruct (wf_entry_symbol g Hwf) as [entry Hentry].
  destruct (list_remove_spec _ _ _ Hnts Hnd) as [_ [_ Hiff]].
  set (R := new_nonterminal nts).
  assert (HR : ~ In R (keys g)).
  { intros HRin. destruct (string_dec R "start") as [E | E].
    - apply (new_nonterminal_not_start nts). exact E.
    - apply (new_nonterminal_fresh nts). apply Hiff. split; assumption. }
  exists R, rule, body. repeat (split; [assumption |]).
  unfold mutate_repeat. rewrite Hentry. cbn [bind].
  rewrite Hnts. cbn [bind]. rewrite Hk. cbn [bind]. rewrite Hrule. cbn [bind].
  rewrite Hbi. cbn [bind]. apply get_nth_ok in Hbody. rewrite Hbody. cbn [bind].
  rewrite Hi. cbn [bind]. apply get_nth_ok in Hx. rewrite Hx. cbn [bind].
  fold R. f_equal.
  rewrite rebuild_map; [| | exact Hwf].
  - unfold add_rule. cbn [rules]. rewrite add_rule_list_new.
    + f_equal. apply (f_equal2 (@app Rule)); [| reflexivity].
      apply map_ext_in. intros r Hr.
      destruct (String.eqb (start r) k) eqn:E.
      * apply String.eqb_eq in E. rewrite rule_with_eq.
        assert (r = rule) by (apply (find_unique g rule Hnd Hin r Hr); congruence).
        subst r. rewrite E.
        apply get_nth_ok in Hbody.
        rewrite (repeat_bodies_eq bi i R (bodies rule) body Hbody). reflexivity.
      * rewrite rule_with_eq. destruct r; reflexivity.
    + cbn [add_body Rule_new start]. rewrite map_map.
      intros HRin. apply HR. unfold keys.
      apply in_map_iff in HRin. destruct HRin as [r [Hr1 Hr2]].
      apply in_map_iff. exists r. split; [| exact Hr2].
      rewrite <- Hr1. destruct (String.eqb (start r) k); rewrite rule_with_eq; reflexivity.
  - intros r. destruct (String.eqb (start r) k); rewrite rule_with_eq; reflexivity.
Qed.

End RepeatClaims.

(** ** Subsequences *)










Section BubbleClaims.

Context {util : Util}.


(** The two ways [mutate_bubble] returns. *)
Lemma mutate_bubble_copies (r : nat) (g : Grammar) :
  wf_grammar g -> all_sequences g = [] -> mutate_bubble r g = Ok g.
Proof.
  intros Hwf Hnone. destruct (wf_entry_symbol g Hwf) as [entry Hentry].
  unfold mutate_bubble. rewrite Hentry. cbn [bind].
  rewrite Hnone. cbn [List.length Nat.eqb].
  rewrite rebuild_map; [| intros; rewrite rule_with_eq; reflexivity | exact Hwf].
  f_equal. destruct g as [rs]. cbn [rules]. f_equal.
  rewrite <- (map_id rs) at 2. apply map_ext.
  intros [n bs]. rewrite rule_with_eq. reflexivity.
Qed.

Lemma mutate_bubble_replaces (r : nat) (g : Grammar) :
  wf_grammar g -> all_sequences g <> [] ->
  exists sub,
    random_choice r (all_sequences g) = Ok sub /\
    mutate_bubble r g
    = Ok (mkGrammar
            (map (fun rule =>
                    mkRule (start rule)
                      (map (fun body => replace_all body sub (new_nonterminal (keys g)))
                           (bodies rule)))
                 (rules g)
             ++ [mkRule (new_nonterminal (keys g)) [sub]])).
Proof.
  intros Hwf Hsome. destruct (wf_entry_symbol g Hwf) as [entry Hentry].
  unfold mutate_bubble. rewrite Hentry. cbn [bind].
  destruct (all_sequences g) as [| s0 ss] eqn:Hseqs; [contradiction Hsome; reflexivity |].
  cbn [List.length Nat.eqb].
  destruct (random_choice_total r (s0 :: ss)) as [sub Hsub]; [discriminate |].
  rewrite Hsub. cbn [bind]. exists sub. split; [reflexivity |].
  rewrite rebuild_map; [| intros; rewrite rule_with_eq; reflexivity | exact Hwf].
  unfold add_rule. cbn [rules add_body Rule_new app].
  rewrite add_rule_list_new.
  - f_equal. f_equal. apply (f_equal2 (@app Rule)); [| reflexivity].
    apply map_ext. intros rule. apply rule_with_eq.
  - cbn [start]. rewrite map_map.
    erewrite map_ext; [apply new_nonterminal_fresh |].
    intros rule. rewrite rule_with_eq. reflexivity.
Qed.


End BubbleClaims.

(** ** When a site can be chosen *)

Lemma find_rule_in (g : Grammar) (rule : Rule) :
  NoDup (keys g) -> In rule (rules g) ->
  find (fun r => String.eqb (start r) (start rule)) (rules g) = Some rule.
Proof.
  intros Hnd Hin.
  destruct (find (fun r => String.eqb (start r) (start rule)) (rules g)) as [r |] eqn:E.
  - apply find_some in E. destruct E as [Hr Heq]. apply String.eqb_eq in Heq.
    f_equal. apply (find_unique g rule Hnd Hin r Hr Heq).
  - exfalso. apply (find_none _ _ E) in Hin. rewrite String.eqb_refl in Hin.
    discriminate Hin.
Qed.

Lemma list_sum_pos (f : string -> nat) (l : list string) (x : string) :
  In x l -> 0 < f x -> 0 < list_sum (map f l).
Proof.
  induction l as [| y l IH]; simpl; intros Hin Hx; [contradiction |].
  destruct Hin as [-> | Hin]; [lia |]. specialize (IH Hin Hx). lia.
Qed.

Lemma random_choice_range_total (r n : nat) :
  0 < n -> exists k, random_choice r (range 0 n) = Ok k /\ k < n.
Proof.
  intros Hn. destruct (random_choice_total r (range 0 n)) as [k Hk].
  - unfold range. destruct n; [lia | discriminate].
  - exists k. split; [exact Hk |]. apply random_choice_range in Hk. lia.
Qed.

(** The three draws select a site whenever some rule other than [start]
    has a body and no body of such a rule is empty. *)
Lemma choose_site_total (r_key r_body r_idx : nat) (g : Grammar) :
  wf_grammar g ->
  (exists rule, In rule (rules g) /\ start rule <> "start" /\ bodies rule <> []) ->
  (forall rule body,
     In rule (rules g) -> start rule <> "start" -> In body (bodies rule) -> body <> []) ->
  exists site, choose_site r_key r_body r_idx g = Ok site.
Proof.
  intros Hwf [rule0 [Hin0 [Hne0 Hb0]]] Hbodies. pose proof Hwf as [Hnd [s [b [bs [rest Hr]]]]].
  unfold choose_site.
  destruct (list_remove_total "start" (keys g)) as [nts Hnts].
  { unfold keys. rewrite Hr. left. reflexivity. }
  rewrite Hnts. cbn [bind].
  destruct (list_remove_spec _ _ _ Hnts Hnd) as [_ [_ Hiff]].
  assert (Hcount : forall rule, In rule (rules g) ->
                     body_count g (start rule) = List.length (bodies rule)).
  { intros rule Hin. unfold body_count. rewrite (find_rule_in g rule Hnd Hin). reflexivity. }
  assert (Hk : exists k, weighted_choice r_key g nts = Ok k).
  { unfold weighted_choice.
    assert (Hin : In (start rule0) nts).
    { apply Hiff. split; [apply in_map; exact Hin0 | exact Hne0]. }
    assert (Hpos : 0 < body_count g (start rule0)).
    { rewrite (Hcount rule0 Hin0). destruct (bodies rule0); [contradiction Hb0; reflexivity |].
      simpl. lia. }
    destruct nts as [| n nts]; [contradiction |].
    pose proof (list_sum_pos (body_count g) (n :: nts) _ Hin Hpos) as Hsum.
    destruct (list_sum (map (body_count g) (n :: nts)) =? 0) eqn:E;
      [apply Nat.eqb_eq in E; lia |].
    apply random_choice_total. intros Hnil.
    assert (Hx : In (start rule0)
                    (flat_map (fun nt => repeat nt (body_count g nt)) (n :: nts))).
    { apply in_flat_map. exists (start rule0). split; [exact Hin |].
      destruct (body_count g (start rule0)); [lia | left; reflexivity]. }
    rewrite Hnil in Hx. contradiction. }
  destruct Hk as [k Hk]. rewrite Hk. cbn [bind].
  destruct (weighted_choice_in _ _ _ _ Hk) as [Hknts Hkpos].
  apply Hiff in Hknts. destruct Hknts as [Hkin Hkne].
  unfold keys in Hkin. apply in_map_iff in Hkin. destruct Hkin as [rule [Hstart Hin]].
  subst k. rewrite (Hcount rule Hin) in Hkpos.
  unfold get_rule. rewrite (find_rule_in g rule Hnd Hin). cbn [bind].
  destruct (random_choice_range_total r_body _ Hkpos) as [bi [Hbi Hbilt]].
  rewrite Hbi. cbn [bind].
  destruct (nth_error (bodies rule) bi) as [body |] eqn:Hbody;
    [| apply nth_error_None in Hbody; lia].
  apply get_nth_ok in Hbody. rewrite Hbody. cbn [bind].
  apply get_nth_ok in Hbody.
  assert (Hlen : 0 < List.length body).
  { pose proof (Hbodies rule body Hin Hkne (nth_error_In _ _ Hbody)) as Hnon.
    destruct body; [contradiction Hnon; reflexivity | simpl; lia]. }
  destruct (random_choice_range_total r_idx _ Hlen) as [i [Hi Hilt]].
  rewrite Hi. cbn [bind].
  destruct (nth_error body i) as [x |] eqn:Hx; [| apply nth_error_None in Hx; lia].
  apply get_nth_ok in Hx. rewrite Hx. cbn [bind].
  eexists. reflexivity.
Qed.

Section RepeatFacts.

Context {util : Util}.

(** [mutate_repeat] returns only if a site was chosen. *)
Lemma mutate_repeat_ok_site (r_key r_body r_idx : nat) (g g' : Grammar) :
  mutate_repeat r_key r_body r_idx g = Ok g' ->
  exists site, choose_site r_key r_body r_idx g = Ok site.
Proof.
  unfold mutate_repeat, choose_site. intros H.
  apply bind_ok in H. destruct H as [entry [_ H]].
  apply bind_ok in H. destruct H as [nts [Hnts H]]. rewrite Hnts. cbn [bind].
  apply bind_ok in H. destruct H as [k [Hk H]]. rewrite Hk. cbn [bind].
  apply bind_ok in H. destruct H as [rule [Hrule H]]. rewrite Hrule. cbn [bind].
  apply bind_ok in H. destruct H as [bi [Hbi H]]. rewrite Hbi. cbn [bind].
  apply bind_ok in H. destruct H as [body [Hbody H]]. rewrite Hbody. cbn [bind].
  apply bind_ok in H. destruct H as [i [Hi H]]. rewrite Hi. cbn [bind].
  apply bind_ok in H. destruct H as [x [Hx H]]. rewrite Hx. cbn [bind].
  eexists. reflexivity.
Qed.

(** C7 (amended): for every grammar and every site the draws select (a
    nonterminal other than [start], one of its bodies and a position of
    that body, which takes the drawn body to be non-empty),
    [mutate_repeat] returns a grammar in which a fresh nonterminal [R] has
    exactly the two bodies [x] and [x, R], where [x] is the symbol that was
    at the chosen position; the chosen position of the chosen body holds
    [R]; every other rule and body is as in the input. A site is selected,
    whatever the draws, when some rule other than [start] has a body and
    no body of such a rule is empty. *)
Theorem mutate_repeat_spec (r_key r_body r_idx : nat) (g : Grammar) :
  wf_grammar g ->
  (forall k bi i x,
     choose_site r_key r_body r_idx g = Ok (k, bi, i, x) ->
     exists (R : Symbol) (rule : Rule) (body : Body),
       ~ In R (keys g) /\
       In rule (rules g) /\ start rule = k /\ k <> "start" /\
       nth_error (bodies rule) bi = Some body /\ nth_error body i = Some x /\
       mutate_repeat r_key r_body r_idx g
       = Ok (mkGrammar
               (map (fun r => if String.eqb (start r) k
                              then mkRule k (set_nth bi (set_nth i R body) (bodies r))
                              else r)
                    (rules g)
                ++ [mkRule R [[x]; [x; R]]]))) /\
  ((exists rule, In rule (rules g) /\ start rule <> "start" /\ bodies rule <> []) ->
   (forall rule body,
      In rule (rules g) -> start rule <> "start" -> In body (bodies rule) -> body <> []) ->
   exists site, choose_site r_key r_body r_idx g = Ok site).
Proof.
  intros Hwf. split.
  - intros k bi i x Hsite. exact (mutate_repeat_at_site _ _ _ g k bi i x Hwf Hsite).
  - intros Hsome Hnonempty. exact (choose_site_total _ _ _ g Hwf Hsome Hnonempty).
Qed.

End RepeatFacts.

(** ** Coalesce: the number of nonterminals merged *)

(** The count drawn from [range(2, min(6, n))] lies between 2 and 5 and
    stays below [n]. *)
Lemma coalesce_num_range (r n k : nat) :
  random_choice r (range 2 (min 6 n)) = Ok k -> 2 <= k <= 5 /\ k < n.
Proof. intros H. apply random_choice_range in H. lia. Qed.

Lemma coalesce_num_total (r n : nat) :
  3 <= n -> exists k, random_choice r (range 2 (min 6 n)) = Ok k.
Proof.
  intros Hn. apply random_choice_total. unfold range.
  destruct (min 6 n - 2) eqn:E; [lia | discriminate].
Qed.

Section CoalesceFacts.

Context {util : Util}.

(** X5: with at most two rules besides [start] there is no count to draw
    and [mutate_coalesce] raises [IndexError]. *)
Theorem mutate_coalesce_too_few (r_num : nat) (r_sample : nat -> nat) (g : Grammar)
  (nts : list string) :
  wf_grammar g ->
  list_remove "start" (keys g) = Ok nts ->
  List.length nts <= 2 ->
  mutate_coalesce r_num r_sample g = Raise IndexError.
Proof.
  intros Hwf Hnts Hlen. destruct (wf_entry_symbol g Hwf) as [entry Hentry].
  unfold mutate_coalesce. rewrite Hentry. cbn [bind]. rewrite Hnts. cbn [bind].
  replace (range 2 (min 6 (List.length nts))) with (@nil nat); [reflexivity |].
  unfold range. replace (min 6 (List.length nts) - 2) with 0 by lia. reflexivity.
Qed.

End CoalesceFacts.

(** ** The value of [search] *)

Section SearchResult.

Context {engine : Engine} {util : Util} {pyset : PySet}.

(** Whatever the inputs and the draws, a call of [search] that completes
    has run its thirty generations and evaluates to [None]. *)
Lemma search_returns_None (tape : nat -> nat) (guides pos neg : list string)
  (i j : nat) (r : option Grammar) :
  search tape guides pos neg i = Ok (r, j) ->
  r = None /\ exists st k, search_loop tape 30 guides pos neg i = Ok (st, k).
Proof.
  unfold search. intros H.
  apply bindR_ok in H. destruct H as [st [k [Hloop H]]].
  apply bindR_ok in H. destruct H as [best [k' [_ H]]].
  apply ret_ok in H. destruct H as [-> _].
  split; [reflexivity |]. exists st, k. exact Hloop.
Qed.

End SearchResult.

(** ** Sampling without replacement *)

Lemma random_sample_spec {A : Type} (draws : nat -> nat) (k : nat) (l : list A) :
  NoDup l -> k <= List.length l ->
  List.length (random_sample draws k l) = k /\
  NoDup (random_sample draws k l) /\
  incl (random_sample draws k l) l.
Proof.
  revert draws l. induction k as [| k IH]; intros draws l Hnd Hk.
  - simpl. repeat split; [constructor | intros x []].
  - destruct l as [| x0 l0]; [simpl in Hk; lia |].
    cbn [random_sample].
    set (l := x0 :: l0) in *.
    set (i := draws 0 mod List.length l).
    assert (Hi : i < List.length l) by (apply Nat.mod_upper_bound; discriminate).
    pose proof (nth_error_nth' l x0 Hi) as Hnth.
    pose proof (firstn_skipn_middle i l Hnth) as Hsplit.
    set (c := nth i l x0) in *.
    set (rest := (firstn i l ++ skipn (S i) l)%list).
    assert (Hrest : NoDup rest /\ ~ In c rest).
    { apply NoDup_remove. rewrite Hsplit. exact Hnd. }
    assert (Hlen : List.length rest = List.length l - 1).
    { pose proof (f_equal (@List.length A) Hsplit) as H.
      unfold rest. rewrite length_app in *. cbn [List.length] in H. lia. }
    destruct (IH (fun n => draws (S n)) rest (proj1 Hrest)) as [H1 [H2 H3]]; [lia |].
    assert (Hincl : incl rest l).
    { intros y Hy. rewrite <- Hsplit. unfold rest in Hy.
      apply in_app_iff in Hy. apply in_app_iff.
      destruct Hy as [Hy | Hy]; [left; exact Hy | right; right; exact Hy]. }
    split; [| split].
    + cbn [List.length]. rewrite H1. reflexivity.
    + constructor; [| exact H2]. intros Hin. apply (proj2 Hrest). apply H3. exact Hin.
    + intros y [<- | Hy].
      * apply (nth_error_In l i Hnth).
      * apply Hincl. apply H3. exact Hy.
Qed.

(** ** Coalesce: what it returns when a count can be drawn *)

Section CoalesceSpec.

Context {util : Util}.

Lemma non_start_keys (g : Grammar) :
  wf_grammar g ->
  exists nts,
    list_remove "start" (keys g) = Ok nts /\
    List.length nts = List.length (keys g) - 1 /\
    NoDup nts /\
    (forall y, In y nts <-> In y (keys g) /\ y <> "start").
Proof.
  intros [Hnd [s [b [bs [rest Hr]]]]].
  destruct (list_remove_total "start" (keys g)) as [nts Hnts].
  { unfold keys. rewrite Hr. left. reflexivity. }
  destruct (list_remove_spec _ _ _ Hnts Hnd) as [_ [Hndnts Hiff]].
  exists nts. split; [exact Hnts |]. split; [| split; [exact Hndnts | exact Hiff]].
  unfold keys in *. rewrite Hr in *. simpl in Hnts. injection Hnts as <-.
  simpl. lia.
Qed.

Lemma fresh_for_keys (g : Grammar) (nts : list string) :
  (forall y, In y nts <-> In y (keys g) /\ y <> "start") ->
  ~ In (new_nonterminal nts) (keys g).
Proof.
  intros Hiff HRin. destruct (string_dec (new_nonterminal nts) "start") as [E | E].
  - apply (new_nonterminal_not_start nts). exact E.
  - apply (new_nonterminal_fresh nts). apply Hiff. split; assumption.
Qed.

(** What [mutate_coalesce] returns once the count [k] is drawn. *)
Lemma mutate_coalesce_value (r_num : nat) (r_sample : nat -> nat) (g : Grammar)
  (nts : list string) (k : nat) :
  wf_grammar g ->
  list_remove "start" (keys g) = Ok nts ->
  random_choice r_num (range 2 (min 6 (List.length nts))) = Ok k ->
  mutate_coalesce r_num r_sample g
  = Ok (mkGrammar
          (map (fun rule =>
                  mkRule (start rule)
                    (map (map (fun e => if mem e (random_sample r_sample k nts)
                                        then new_nonterminal nts else e))
                         (bodies rule)))
               (rules g)
           ++ [mkRule (new_nonterminal nts)
                 (flat_map (bodies_of g) (random_sample r_sample k nts))])).
Proof.
  intros Hwf Hnts Hk. pose proof Hwf as [Hnd _].
  destruct (wf_entry_symbol g Hwf) as [entry Hentry].
  destruct (list_remove_spec _ _ _ Hnts Hnd) as [_ [_ Hiff]].
  unfold mutate_coalesce. rewrite Hentry. cbn [bind]. rewrite Hnts. cbn [bind].
  rewrite Hk. cbn [bind].
  rewrite rebuild_map; [| intros; rewrite rule_with_eq; reflexivity | exact Hwf].
  unfold add_rule. cbn [rules]. rewrite add_rule_list_new.
  - f_equal. f_equal. apply (f_equal2 (@app Rule)); [| reflexivity].
    apply map_ext. intros rule. apply rule_with_eq.
  - cbn [start]. rewrite map_map.
    erewrite map_ext; [exact (fresh_for_keys g nts Hiff) |].
    intros rule. rewrite rule_with_eq. reflexivity.
Qed.

(** X1: on a grammar with [n >= 3] rules besides [start], [mutate_coalesce]
    returns for every draw: it draws a count [k] with [2 <= k <= 5] and
    [k < n], samples [k] distinct names of rules other than [start], mints
    a name no rule has, renames every occurrence of a sampled name in
    every body to it, and adds for it a rule whose bodies are those of the
    sampled rules, one after the other. *)
Theorem mutate_coalesce_spec (r_num : nat) (r_sample : nat -> nat) (g : Grammar) :
  wf_grammar g ->
  3 <= List.length (keys g) - 1 ->
  exists (k : nat) (to_coalesce : list string) (replacer_id : string),
    2 <= k <= 5 /\ k < List.length (keys g) - 1 /\
    List.length to_coalesce = k /\ NoDup to_coalesce /\
    (forall name, In name to_coalesce -> In name (keys g) /\ name <> "start") /\
    ~ In replacer_id (keys g) /\
    mutate_coalesce r_num r_sample g
    = Ok (mkGrammar
            (map (fun rule =>
                    mkRule (start rule)
                      (map (map (fun e => if mem e to_coalesce then replacer_id else e))
                           (bodies rule)))
                 (rules g)
             ++ [mkRule replacer_id (flat_map (bodies_of g) to_coalesce)])).
Proof.
  intros Hwf Hn.
  destruct (non_start_keys g Hwf) as [nts [Hnts [Hlen [Hndnts Hiff]]]].
  destruct (coalesce_num_total r_num (List.length nts)) as [k Hk]; [lia |].
  pose proof (coalesce_num_range _ _ _ Hk) as [Hk25 Hkn].
  destruct (random_sample_spec r_sample k nts Hndnts) as [Hs1 [Hs2 Hs3]]; [lia |].
  exists k, (random_sample r_sample k nts), (new_nonterminal nts).
  split; [exact Hk25 |]. split; [lia |]. split; [exact Hs1 |]. split; [exact Hs2 |].
  split; [intros name Hname; apply Hiff; apply Hs3; exact Hname |].
  split; [exact (fresh_for_keys g nts Hiff) |].
  exact (mutate_coalesce_value r_num r_sample g nts k Hwf Hnts Hk).
Qed.

End CoalesceSpec.

(** ** Alternate: what it returns *)

Lemma list_remove_incl (x : string) (l l' : list string) :
  list_remove x l = Ok l' -> incl l' l.
Proof.
  revert l'. induction l as [| y l IH]; simpl; intros l' H; [discriminate H |].
  destruct (String.eqb y x).
  - injection H as <-. intros z Hz. right. exact Hz.
  - apply bind_ok in H. destruct H as [l'' [Hl'' H]]. injection H as <-.
    intros z [<- | Hz]; [left; reflexivity | right; apply (IH l'' Hl''); exact Hz].
Qed.

Section AlternateSpec.

Context {util : Util}.

(** X2: whenever [mutate_alternate] returns, the draws have selected a site
    [(k, bi, i)] holding [x] and a symbol [alternate], a terminal occurring
    in some body or the name of a rule other than [start]; the result is
    the input with one body appended to the rule [k]: the chosen body with
    [alternate] at position [i]. No body is removed or changed. *)
Theorem mutate_alternate_spec (r_key r_body r_idx r_alt : nat) (g g' : Grammar) :
  wf_grammar g ->
  mutate_alternate r_key r_body r_idx r_alt g = Ok g' ->
  exists (k : string) (bi i : nat) (x alternate : Symbol) (rule : Rule) (body : Body),
    choose_site r_key r_body r_idx g = Ok (k, bi, i, x) /\
    In rule (rules g) /\ start rule = k /\ k <> "start" /\
    nth_error (bodies rule) bi = Some body /\ nth_error body i = Some x /\
    (In alternate (terminals_of g (keys g)) \/
     (In alternate (keys g) /\ alternate <> "start")) /\
    g' = mkGrammar
           (map (fun r => if String.eqb (start r) k
                          then mkRule (start r) (bodies r ++ [set_nth i alternate body])
                          else r)
                (rules g)).
Proof.
  intros Hwf H. pose proof Hwf as [Hnd _].
  unfold mutate_alternate, copy in H.
  apply bind_ok in H. destruct H as [nts [Hnts H]].
  apply bind_ok in H. destruct H as [k [Hk H]].
  apply bind_ok in H. destruct H as [rule [Hrule H]].
  apply bind_ok in H. destruct H as [bi [Hbi H]].
  apply bind_ok in H. destruct H as [body [Hbody H]].
  apply bind_ok in H. destruct H as [i [Hi H]].
  apply bind_ok in H. destruct H as [x [Hx H]].
  apply bind_ok in H. destruct H as [alts [Halts H]].
  apply bind_ok in H. destruct H as [alternate [Halt H]].
  injection H as <-.
  assert (Hsite : choose_site r_key r_body r_idx g = Ok (k, bi, i, x)).
  { unfold choose_site. rewrite Hnts. cbn [bind]. rewrite Hk. cbn [bind].
    rewrite Hrule. cbn [bind]. rewrite Hbi. cbn [bind]. rewrite Hbody. cbn [bind].
    rewrite Hi. cbn [bind]. rewrite Hx. reflexivity. }
  destruct (choose_site_ok _ _ _ _ _ _ _ _ Hnd Hsite)
    as [nts' [rule' [body' [Hnts' [_ [Hrule' [_ [_ [Hin [Hstart [Hne [Hb' Hx']]]]]]]]]]]].
  assert (rule' = rule) by congruence. subst rule'.
  assert (body' = body) by (apply get_nth_ok in Hbody; congruence). subst body'.
  exists k, bi, i, x, alternate, rule, body.
  repeat (split; [assumption |]). split.
  - apply random_choice_in in Halt. apply (list_remove_incl _ _ _ Halts) in Halt.
    apply in_app_iff in Halt. destruct Halt as [Ht | Hn]; [left; exact Ht | right].
    destruct (list_remove_spec _ _ _ Hnts Hnd) as [_ [_ Hiff]]. apply Hiff. exact Hn.
  - reflexivity.
Qed.

End AlternateSpec.

(** ** Well-formedness is preserved *)

Lemma wf_extend (g : Grammar) (f : Rule -> Rule) (extra : list Rule) :
  wf_grammar g ->
  (forall r, start (f r) = start r) ->
  (forall r s b bs, bodies r = (s :: b) :: bs ->
     exists s' b' bs', bodies (f r) = (s' :: b') :: bs') ->
  NoDup (keys g ++ map start extra) ->
  wf_grammar (mkGrammar (map f (rules g) ++ extra)).
Proof.
  intros [Hnd [s [b [bs [rest Hr]]]]] Hstart Hbody Hfresh. split.
  - unfold keys in *. cbn [rules]. rewrite map_app, map_map.
    erewrite map_ext; [exact Hfresh | exact Hstart].
  - cbn [rules]. rewrite Hr. cbn [map app].
    destruct (Hbody (mkRule "start" ((s :: b) :: bs)) s b bs eq_refl) as [s' [b' [bs' Hb]]].
    exists s', b', bs', (map f rest ++ extra)%list.
    specialize (Hstart (mkRule "start" ((s :: b) :: bs))). cbn [start] in Hstart.
    destruct (f (mkRule "start" ((s :: b) :: bs))) as [n bd].
    cbn [start bodies] in *. subst. reflexivity.
Qed.

Lemma replace_all_nonempty (body sub : list string) (name : string) :
  body <> [] -> replace_all body sub name <> [].
Proof.
  intros Hb. unfold replace_all. destruct (occurs_in sub body); [| exact Hb].
  destruct body as [| b body]; [contradiction Hb; reflexivity |].
  destruct sub as [| s sub]; simpl; [discriminate |].
  destruct (String.eqb s b); discriminate.
Qed.

Section WellFormed.

Context {util : Util}.

Lemma mutate_bubble_wf (r : nat) (g g' : Grammar) :
  wf_grammar g -> mutate_bubble r g = Ok g' -> wf_grammar g'.
Proof.
  intros Hwf H.
  destruct (all_sequences g) as [| s0 ss] eqn:E.
  - rewrite (mutate_bubble_copies r g Hwf E) in H. injection H as <-. exact Hwf.
  - destruct (mutate_bubble_replaces r g Hwf) as [sub [_ Heq]];
      [rewrite E; discriminate |].
    rewrite Heq in H. injection H as <-.
    apply wf_extend; [exact Hwf | reflexivity | |].
    + intros r0 s b bs Hb. cbn [bodies]. rewrite Hb. cbn [map].
      destruct (replace_all (s :: b) sub (new_nonterminal (keys g))) as [| s' b'] eqn:Er.
      * exfalso. apply (replace_all_nonempty (s :: b) sub (new_nonterminal (keys g)));
          [discriminate | exact Er].
      * exists s', b'. eexists. reflexivity.
    + apply NoDup_snoc; [apply Hwf | apply new_nonterminal_fresh].
Qed.

Lemma mutate_repeat_wf (r_key r_body r_idx : nat) (g g' : Grammar) :
  wf_grammar g -> mutate_repeat r_key r_body r_idx g = Ok g' -> wf_grammar g'.
Proof.
  intros Hwf H.
  destruct (mutate_repeat_ok_site _ _ _ _ _ H) as [[[[k bi] i] x] Hsite].
  destruct (mutate_repeat_at_site _ _ _ g k bi i x Hwf Hsite)
    as [R [rule [body [HR [Hin [Hstart [Hne [Hbody [Hx Heq]]]]]]]]].
  rewrite Heq in H. injection H as <-.
  apply wf_extend; [exact Hwf | | |].
  - intros r. destruct (String.eqb (start r) k) eqn:E; [| reflexivity].
    apply String.eqb_eq in E. symmetry. exact E.
  - intros r s b bs Hb. destruct (String.eqb (start r) k) eqn:E.
    + cbn [bodies]. unfold set_nth.
      destruct bi as [| bi].
      * cbn [firstn app]. destruct i as [| i].
        -- cbn [firstn app]. eexists _, _, _. reflexivity.
        -- destruct body as [| y body]; [discriminate Hx |].
           cbn [firstn app]. eexists _, _, _. reflexivity.
      * rewrite Hb. cbn [firstn app]. eexists _, _, _. reflexivity.
    + exists s, b, bs. exact Hb.
  - apply NoDup_snoc; [apply Hwf | exact HR].
Qed.

Lemma mutate_alternate_value (r_key r_body r_idx r_alt : nat) (g g' : Grammar) :
  mutate_alternate r_key r_body r_idx r_alt g = Ok g' ->
  exists k new_body, g' = update_rule k (add_body new_body) g.
Proof.
  unfold mutate_alternate, copy. intros H.
  repeat (apply bind_ok in H; destruct H as [? [_ H]]).
  injection H as <-. eexists _, _. reflexivity.
Qed.

Lemma mutate_alternate_wf (r_key r_body r_idx r_alt : nat) (g g' : Grammar) :
  wf_grammar g -> mutate_alternate r_key r_body r_idx r_alt g = Ok g' -> wf_grammar g'.
Proof.
  intros Hwf H.
  destruct (mutate_alternate_value _ _ _ _ g g' H) as [k [new_body ->]].
  unfold update_rule. rewrite <- (app_nil_r (map _ (rules g))).
  apply wf_extend; [exact Hwf | | |].
  - intros r. destruct (String.eqb (start r) k); reflexivity.
  - intros r s b bs Hb. destruct (String.eqb (start r) k).
    + cbn [add_body bodies]. rewrite Hb. cbn [app]. eexists _, _, _. reflexivity.
    + exists s, b, bs. exact Hb.
  - cbn [map]. rewrite app_nil_r. apply Hwf.
Qed.

End WellFormed.

Section WellFormedSearch.

Context {engine : Engine} {util : Util} {pyset : PySet}.

Lemma mutate_coalesce_wf (r_num : nat) (r_sample : nat -> nat) (g g' : Grammar) :
  wf_grammar g -> mutate_coalesce r_num r_sample g = Ok g' -> wf_grammar g'.
Proof.
  intros Hwf H.
  destruct (non_start_keys g Hwf) as [nts [Hnts [_ [_ Hiff]]]].
  destruct (random_choice r_num (range 2 (min 6 (List.length nts)))) as [k | e] eqn:Hk.
  - rewrite (mutate_coalesce_value r_num r_sample g nts k Hwf Hnts Hk) in H.
    injection H as <-.
    apply wf_extend; [exact Hwf | reflexivity | |].
    + intros r s b bs Hb. cbn [bodies]. rewrite Hb. cbn [map].
      eexists _, _, _. reflexivity.
    + apply NoDup_snoc; [apply Hwf | exact (fresh_for_keys g nts Hiff)].
  - exfalso. destruct (wf_entry_symbol g Hwf) as [entry Hentry].
    unfold mutate_coalesce in H. rewrite Hentry in H. cbn [bind] in H.
    rewrite Hnts in H. cbn [bind] in H. rewrite Hk in H. discriminate H.
Qed.

Variable tape : nat -> nat.

Lemma cascade_wf (n : nat) (g g' : Grammar) (i j : nat) :
  wf_grammar g -> cascade tape n g i = Ok (g', j) -> wf_grammar g'.
Proof.
  revert g i. induction n as [| n IH]; intros g i Hwf H.
  - apply ret_ok in H. destruct H as [-> _]. exact Hwf.
  - cbn [cascade] in H.
    apply bindR_ok in H. destruct H as [f [i1 [Hf H]]].
    apply bindR_ok in H. destruct H as [g1 [i2 [Hg1 H]]].
    apply (IH g1 i2); [| exact H].
    unfold choose in Hf. apply lift_ok in Hf. destruct Hf as [Hf _].
    apply random_choice_in in Hf.
    destruct Hf as [<- | [<- | [<- | [<- | []]]]];
      apply lift_ok in Hg1; destruct Hg1 as [Hg1 _].
    + exact (mutate_bubble_wf _ _ _ Hwf Hg1).
    + exact (mutate_coalesce_wf _ _ _ _ Hwf Hg1).
    + exact (mutate_alternate_wf _ _ _ _ _ _ Hwf Hg1).
    + exact (mutate_repeat_wf _ _ _ _ _ Hwf Hg1).
Qed.

Variable scorer : Scorer.

Lemma generation_wf (st st' : SearchState) (i j : nat) :
  pop_wf st -> generation tape scorer st i = Ok (st', j) -> pop_wf st'.
Proof.
  unfold pop_wf. intros Hwf H. unfold generation in H.
  apply bindR_ok in H. destruct H as [parent [i1 [Hparent H]]].
  apply bindR_ok in H. destruct H as [st1 [i2 [Hfuzz H]]].
  apply bindR_ok in H. destruct H as [best [i3 [_ H]]].
  apply ret_ok in H. destruct H as [-> _].
  assert (Hp : wf_grammar (entry_grammar parent)).
  { unfold choose in Hparent. apply lift_ok in Hparent. destruct Hparent as [Hparent _].
    apply random_choice_in in Hparent.
    rewrite Forall_forall in Hwf. apply Hwf. exact Hparent. }
  unfold fuzz_one in Hfuzz.
  apply bindR_ok in Hfuzz. destruct Hfuzz as [num [k1 [_ Hfuzz]]].
  apply bindR_ok in Hfuzz. destruct Hfuzz as [before_score [k2 [_ Hfuzz]]].
  apply bindR_ok in Hfuzz. destruct Hfuzz as [mutant [k3 [Hcascade Hfuzz]]].
  apply bindR_ok in Hfuzz. destruct Hfuzz as [mutant_score [k4 [_ Hfuzz]]].
  pose proof (cascade_wf _ _ _ _ _ Hp Hcascade) as Hm.
  cbn [minimum_score cur_gram_id population] in Hfuzz.
  destruct (Qgtb mutant_score (minimum_score st)).
  - apply lift_ok in Hfuzz. destruct Hfuzz as [Hadd _].
    unfold add_to_population in Hadd. cbn [minimum_score population cur_gram_id] in Hadd.
    destruct (negb (Qgtb mutant_score (minimum_score st))); [discriminate Hadd |].
    apply bind_ok in Hadd. destruct Hadd as [first [_ Hadd]]. injection Hadd as <-.
    cbn [population]. rewrite evict_skipn by apply Nat.le_sub_l.
    apply Forall_skipn. apply Forall_list_insert; [exact Hm | exact Hwf].
  - apply ret_ok in Hfuzz. destruct Hfuzz as [-> _]. exact Hwf.
Qed.

Lemma generations_wf (n : nat) (st st' : SearchState) (i j : nat) :
  pop_wf st -> generations tape scorer n st i = Ok (st', j) -> pop_wf st'.
Proof.
  revert st i. induction n as [| n IH]; intros st i Hwf H.
  - apply ret_ok in H. destruct H as [-> _]. exact Hwf.
  - cbn [generations] in H.
    apply bindR_ok in H. destruct H as [st1 [i1 [Hgen H]]].
    apply (IH st1 i1); [| exact H]. exact (generation_wf st st1 i i1 Hwf Hgen).
Qed.

(** The loop of [generations (a + b)] is [a] generations followed by [b]
    more: the state reached by [search_loop k] for [k <= 30] is the state
    [search] is in after its [k]-th generation. *)
Lemma generations_add (a b : nat) (st : SearchState) (i : nat) :
  generations tape scorer (a + b) st i
  = bindR (generations tape scorer a st) (generations tape scorer b) i.
Proof.
  revert st i. induction a as [| a IH]; intros st i.
  - reflexivity.
  - cbn [Nat.add generations]. unfold bindR.
    destruct (generation tape scorer st i) as [[st1 i1] | e]; [| reflexivity].
    rewrite IH. unfold bindR. reflexivity.
Qed.

End WellFormedSearch.

Section SearchWellFormed.

Context {engine : Engine} {util : Util} {pyset : PySet}.

(** X3: every grammar the search keeps, and so every grammar it hands to
    a mutation operator, is well formed. *)
Theorem population_well_formed (tape : nat -> nat) (n : nat)
  (guides pos neg : list string) (i j : nat) (st : SearchState) :
  search_loop tape n guides pos neg i = Ok (st, j) ->
  Forall (fun e => wf_grammar (entry_grammar e)) (population st).
Proof.
  intros H. unfold search_loop in H.
  apply bindR_ok in H. destruct H as [st0 [i0 [Hinit H]]].
  apply lift_ok in Hinit. destruct Hinit as [Hinit _].
  apply (generations_wf tape (mkScorer pos neg) n st0 st i0 j); [| exact H].
  unfold initial_state in Hinit.
  apply bind_ok in Hinit. destruct Hinit as [g [Hg Hinit]].
  apply bind_ok in Hinit. destruct Hinit as [m [_ Hinit]]. injection Hinit as <-.
  unfold pop_wf. cbn [population]. constructor; [| constructor].
  exact (init_grammar_wf guides g Hg).
Qed.

End SearchWellFormed.

(** * Further properties of the code *)

(** ** Scorer: when it returns, its floor, its maximum *)

Lemma inject_nat_le (a b : nat) :
  a <= b -> (inject_Z (Z.of_nat a) <= inject_Z (Z.of_nat b))%Q.
Proof. intros H. rewrite <- Zle_Qle. lia. Qed.

Lemma nonempty_length {A : Type} (l : list A) : l <> [] -> List.length l <> 0.
Proof. destruct l; [intros H; contradiction H; reflexivity | discriminate]. Qed.

Lemma ratio_mono (a b n : nat) :
  a <= b -> n <> 0 ->
  (inject_Z (Z.of_nat a) / inject_Z (Z.of_nat n)
   <= inject_Z (Z.of_nat b) / inject_Z (Z.of_nat n))%Q.
Proof.
  intros Hab Hn. unfold Qdiv.
  apply Qmult_le_compat_r; [apply inject_nat_le; exact Hab |].
  apply Qlt_le_weak, Qinv_lt_0_compat, inject_nat_pos. exact Hn.
Qed.

(** The largest float below 1 and the spacing of the floats just below
    1 are floats. *)
Example rnd_below_one :
  rnd (9007199254740991 # 9007199254740992) = (9007199254740991 # 9007199254740992)%Q.
Proof. reflexivity. Qed.

Example rnd_spacing : rnd (1 # 9007199254740992) = (1 # 9007199254740992)%Q.
Proof. reflexivity. Qed.

(** A size of at most [2^53] has a reciprocal of at least [2^-53]. *)
Lemma small_size_inv (n : nat) :
  n <> 0 -> (Z.of_nat n <= 2 ^ 53)%Z ->
  ((1 # 9007199254740992) <= 1 / inject_Z (Z.of_nat n))%Q.
Proof.
  intros Hn Hb. pose proof (inject_nat_pos n Hn) as Hq.
  assert (Hle : (inject_Z (Z.of_nat n) <= inject_Z (2 ^ 53))%Q) by (rewrite <- Zle_Qle; exact Hb).
  change (inject_Z (2 ^ 53)) with (9007199254740992 # 1)%Q in Hle.
  set (q := inject_Z (Z.of_nat n)) in *. clearbody q.
  apply Qle_shift_div_l; [exact Hq |]. lra.
Qed.

(** The positive factor is 1 when every positive is matched, and stays a
    float below 1 otherwise. *)
Lemma float_positive_part_full (np : nat) :
  np <> 0 -> (float_positive_part np np == 1)%Q.
Proof.
  intros Hn. unfold float_positive_part.
  pose proof (inject_nat_pos np Hn) as Hq. pose proof (float_half_bounds np Hn) as [_ Hh].
  assert (E : (inject_Z (Z.of_nat np) / inject_Z (Z.of_nat np) == 1)%Q) by (field; lra).
  rewrite (rnd_comp _ _ E), rnd_one. apply Q.max_l. lra.
Qed.

Lemma float_positive_part_short (P np : nat) :
  P < np -> (Z.of_nat np <= 2 ^ 53)%Z ->
  (float_positive_part P np <= 9007199254740991 # 9007199254740992)%Q.
Proof.
  intros HP Hb. assert (Hn : np <> 0) by lia. unfold float_positive_part.
  pose proof (float_half_bounds np Hn) as [_ Hh].
  pose proof (small_size_inv np Hn Hb) as Hinv.
  pose proof (ratio_bounds P np (Nat.lt_le_incl _ _ HP) Hn) as [H0 _].
  assert (Hx : (inject_Z (Z.of_nat P) / inject_Z (Z.of_nat np)
                <= 9007199254740991 # 9007199254740992)%Q).
  { pose proof (inject_nat_pos np Hn) as Hq.
    assert (Hs : (inject_Z (Z.of_nat P) + 1 <= inject_Z (Z.of_nat np))%Q).
    { change 1%Q with (inject_Z 1). rewrite <- inject_Z_plus, <- Zle_Qle. lia. }
    set (q := inject_Z (Z.of_nat np)) in *. set (a := inject_Z (Z.of_nat P)) in *.
    clearbody q a.
    assert (E : (a / q == 1 - (q - a) * (1 / q))%Q) by (field; lra).
    rewrite E. assert (T : (1 / q <= (q - a) * (1 / q))%Q).
    { assert (Hi : (0 < 1 / q)%Q) by (apply Qlt_shift_div_l; lra). nra. }
    lra. }
  apply Q.max_lub; [| lra].
  rewrite <- rnd_below_one. apply rnd_mono; assumption.
Qed.

(** The negative factor is 1 when no negative is matched, and stays a
    float below 1 otherwise. *)
Lemma float_negative_part_none (nn : nat) :
  nn <> 0 -> (float_negative_part 0 nn == 1)%Q.
Proof.
  intros Hn. unfold float_negative_part.
  pose proof (inject_nat_pos nn Hn) as Hq. pose proof (float_half_bounds nn Hn) as [_ Hh].
  assert (E : (inject_Z (Z.of_nat 0) / inject_Z (Z.of_nat nn) == 0)%Q).
  { change (inject_Z (Z.of_nat 0)) with 0%Q. field. lra. }
  rewrite (rnd_zero_eq _ E).
  assert (E1 : (1 - 0 == 1)%Q) by reflexivity.
  rewrite (rnd_comp _ _ E1), rnd_one. apply Q.max_l. lra.
Qed.

Lemma float_negative_part_some (N nn : nat) :
  0 < N -> N <= nn -> (Z.of_nat nn <= 2 ^ 53)%Z ->
  (float_negative_part N nn <= 9007199254740991 # 9007199254740992)%Q.
Proof.
  intros HN0 HN Hb. assert (Hn : nn <> 0) by lia. unfold float_negative_part.
  pose proof (float_half_bounds nn Hn) as [_ Hh].
  pose proof (small_size_inv nn Hn Hb) as Hinv.
  pose proof (float_ratio_bounds N nn HN Hn) as [_ Hz1].
  assert (Hz : ((1 # 9007199254740992)
                <= rnd (inject_Z (Z.of_nat N) / inject_Z (Z.of_nat nn)))%Q).
  { rewrite <- rnd_spacing. apply rnd_mono; [discriminate |].
    apply Qle_trans with (1 / inject_Z (Z.of_nat nn))%Q; [exact Hinv |].
    change 1%Q with (inject_Z (Z.of_nat 1)) at 1. apply ratio_mono; [lia | exact Hn]. }
  apply Q.max_lub; [| lra].
  rewrite <- rnd_below_one. apply rnd_mono; lra.
Qed.

Lemma float_positive_part_mono (P P' np : nat) :
  P <= P' -> np <> 0 -> (float_positive_part P np <= float_positive_part P' np)%Q.
Proof.
  intros HP Hn. unfold float_positive_part. apply Q.max_le_compat_r.
  apply rnd_mono; [| apply ratio_mono; assumption].
  pose proof (inject_nat_pos np Hn) as Hq.
  apply Qle_shift_div_l; [exact Hq |]. rewrite Qmult_0_l.
  change 0%Q with (inject_Z 0). rewrite <- Zle_Qle. lia.
Qed.

Lemma float_negative_part_anti (N N' nn : nat) :
  N' <= N -> N <= nn -> nn <> 0 ->
  (float_negative_part N nn <= float_negative_part N' nn)%Q.
Proof.
  intros HN HNn Hn. unfold float_negative_part. apply Q.max_le_compat_r.
  pose proof (float_ratio_bounds N nn HNn Hn) as [_ H1].
  assert (H : (rnd (inject_Z (Z.of_nat N') / inject_Z (Z.of_nat nn))
               <= rnd (inject_Z (Z.of_nat N) / inject_Z (Z.of_nat nn)))%Q).
  { apply rnd_mono; [| apply ratio_mono; assumption].
    pose proof (inject_nat_pos nn Hn) as Hq.
    apply Qle_shift_div_l; [exact Hq |]. rewrite Qmult_0_l.
    change 0%Q with (inject_Z 0). rewrite <- Zle_Qle. lia. }
  apply rnd_mono; lra.
Qed.

(** The factors on their floors. *)
Lemma float_positive_part_zero (np : nat) :
  np <> 0 -> (float_positive_part 0 np == rnd ((1 # 2) / float_of_nat np))%Q.
Proof.
  intros Hn. unfold float_positive_part.
  pose proof (inject_nat_pos np Hn) as Hq. pose proof (float_half_bounds np Hn) as [Hh _].
  assert (E : (inject_Z (Z.of_nat 0) / inject_Z (Z.of_nat np) == 0)%Q).
  { change (inject_Z (Z.of_nat 0)) with 0%Q. field. lra. }
  rewrite (rnd_zero_eq _ E). apply Q.max_r. lra.
Qed.

Lemma float_negative_part_all (nn : nat) :
  nn <> 0 -> (float_negative_part nn nn == rnd ((1 # 2) / float_of_nat nn))%Q.
Proof.
  intros Hn. unfold float_negative_part.
  pose proof (inject_nat_pos nn Hn) as Hq. pose proof (float_half_bounds nn Hn) as [Hh _].
  assert (E : (inject_Z (Z.of_nat nn) / inject_Z (Z.of_nat nn) == 1)%Q) by (field; lra).
  rewrite (rnd_comp _ _ E), rnd_one.
  assert (E1 : (1 - 1 == 0)%Q) by reflexivity.
  rewrite (rnd_zero_eq _ E1). apply Q.max_r. lra.
Qed.

(** Off their floors the factors are at least half as large again. *)
Lemma float_half_upper (n : nat) :
  n <> 0 ->
  (rnd ((1 # 2) / float_of_nat n)
   <= (9007199254740993 # 9007199254740992) * ((1 # 2) * / float_of_nat n))%Q /\
  ((9007199254740991 # 9007199254740992) * / float_of_nat n
   <= / inject_Z (Z.of_nat n))%Q /\
  (0 < / float_of_nat n)%Q.
Proof.
  intros Hn. pose proof (inject_nat_ge1 n Hn) as Hq.
  pose proof (float_of_nat_ge1 n Hn) as Hr.
  assert (Hq0 : (0 <= inject_Z (Z.of_nat n))%Q) by lra.
  destruct (rnd_error_bounds _ Hq0) as [E1 _]. fold (float_of_nat n) in E1.
  destruct (half_over_bounds _ Hr) as [Y0 _].
  destruct (rnd_error_bounds ((1 # 2) / float_of_nat n)) as [_ F2];
    [apply Qlt_le_weak; exact Y0 |].
  set (q := inject_Z (Z.of_nat n)) in *. set (r := float_of_nat n) in *.
  set (z := rnd ((1 # 2) / r)) in *. clearbody q r z.
  change (1 # 2 ^ 53)%Q with (1 # 9007199254740992)%Q in *.
  assert (Hiq : (q * / q == 1)%Q) by (apply Qmult_inv_r; lra).
  assert (Hir : (r * / r == 1)%Q) by (apply Qmult_inv_r; lra).
  assert (Piq : (0 < / q)%Q) by (apply Qinv_lt_0_compat; lra).
  assert (Pir : (0 < / r)%Q) by (apply Qinv_lt_0_compat; lra).
  unfold Qdiv in *. set (iq := (/ q)%Q) in *. set (ir := (/ r)%Q) in *. clearbody iq ir.
  split; [lra |]. split; [| exact Pir].
  assert (T : ((q - q * (1 # 9007199254740992)) * (iq * ir) <= r * (iq * ir))%Q).
  { apply Qmult_le_compat_r; [exact E1 |]. apply Qlt_le_weak, Qmult_lt_0_compat; assumption. }
  assert (T1 : ((q - q * (1 # 9007199254740992)) * (iq * ir)
                == (q * iq) * ((9007199254740991 # 9007199254740992) * ir))%Q) by ring.
  assert (T2 : (r * (iq * ir) == (r * ir) * iq)%Q) by ring.
  rewrite T1, T2, Hiq, Hir in T. lra.
Qed.

Lemma float_positive_part_above (P np : nat) :
  0 < P -> P <= np ->
  ((3 # 2) * rnd ((1 # 2) / float_of_nat np) <= float_positive_part P np)%Q.
Proof.
  intros HP0 HP. assert (Hn : np <> 0) by lia.
  destruct (float_half_upper np Hn) as [U1 [U2 U3]].
  pose proof (inject_nat_pos np Hn) as Hq.
  assert (Hx : (0 <= 1 / inject_Z (Z.of_nat np))%Q).
  { apply Qle_shift_div_l; [exact Hq |]. lra. }
  destruct (rnd_error_bounds _ Hx) as [X1 _].
  assert (Hm : (rnd (1 / inject_Z (Z.of_nat np))
                <= rnd (inject_Z (Z.of_nat P) / inject_Z (Z.of_nat np)))%Q).
  { apply rnd_mono; [exact Hx |].
    change 1%Q with (inject_Z (Z.of_nat 1)) at 1. apply ratio_mono; [lia | exact Hn]. }
  unfold float_positive_part.
  apply Qle_trans with (rnd (inject_Z (Z.of_nat P) / inject_Z (Z.of_nat np)));
    [| apply Q.le_max_l].
  unfold Qdiv in *. rewrite Qmult_1_l in X1, Hm.
  set (fa := rnd ((1 # 2) * / float_of_nat np)) in *.
  set (ir := (/ float_of_nat np)%Q) in *. set (iq := (/ inject_Z (Z.of_nat np))%Q) in *.
  set (a := rnd (inject_Z (Z.of_nat P) * iq)) in *. set (x := rnd iq) in *.
  clearbody fa ir iq a x.
  change (1 # 2 ^ 53)%Q with (1 # 9007199254740992)%Q in *. lra.
Qed.

Lemma float_negative_part_above (N nn : nat) :
  N < nn -> (Z.of_nat nn <= 2 ^ 50)%Z ->
  ((3 # 2) * rnd ((1 # 2) / float_of_nat nn) <= float_negative_part N nn)%Q.
Proof.
  intros HN Hb. assert (Hn : nn <> 0) by lia.
  destruct (float_half_upper nn Hn) as [U1 [U2 U3]].
  pose proof (inject_nat_pos nn Hn) as Hq.
  pose proof (ratio_bounds N nn (Nat.lt_le_incl _ _ HN) Hn) as [Z0' Z1].
  destruct (rnd_error_bounds _ Z0') as [_ Zr].
  pose proof (float_ratio_bounds N nn (Nat.lt_le_incl _ _ HN) Hn) as [_ Zr1].
  assert (Hu : (0 <= 1 - rnd (inject_Z (Z.of_nat N) / inject_Z (Z.of_nat nn)))%Q) by lra.
  destruct (rnd_error_bounds _ Hu) as [Ur _].
  assert (Hinv : ((1 # 1125899906842624) <= / inject_Z (Z.of_nat nn))%Q).
  { assert (Hle : (inject_Z (Z.of_nat nn) <= inject_Z (2 ^ 50))%Q)
      by (rewrite <- Zle_Qle; exact Hb).
    change (inject_Z (2 ^ 50)) with (1125899906842624 # 1)%Q in Hle.
    set (q := inject_Z (Z.of_nat nn)) in *. clearbody q.
    rewrite <- (Qmult_1_l (/ q)). apply Qle_shift_div_l; [exact Hq |]. lra. }
  assert (Hz : (inject_Z (Z.of_nat N) / inject_Z (Z.of_nat nn)
                <= 1 - / inject_Z (Z.of_nat nn))%Q).
  { assert (Hs : (inject_Z (Z.of_nat N) + 1 <= inject_Z (Z.of_nat nn))%Q).
    { change 1%Q with (inject_Z 1). rewrite <- inject_Z_plus, <- Zle_Qle. lia. }
    set (q := inject_Z (Z.of_nat nn)) in *. set (a := inject_Z (Z.of_nat N)) in *.
    clearbody q a.
    assert (E : (a / q == 1 - (q - a) * / q)%Q) by (field; lra).
    rewrite E. assert (Hi : (0 < / q)%Q) by (apply Qinv_lt_0_compat; exact Hq). nra. }
  unfold float_negative_part.
  apply Qle_trans
    with (rnd (1 - rnd (inject_Z (Z.of_nat N) / inject_Z (Z.of_nat nn))));
    [| apply Q.le_max_l].
  set (z := (inject_Z (Z.of_nat N) / inject_Z (Z.of_nat nn))%Q) in *.
  unfold Qdiv in U1 |- *.
  set (fb := rnd ((1 # 2) * / float_of_nat nn)) in *.
  set (ir := (/ float_of_nat nn)%Q) in *. set (iq := (/ inject_Z (Z.of_nat nn))%Q) in *.
  set (rz := rnd z) in *. set (ru := rnd (1 - rz)) in *.
  clearbody fb ir iq z rz ru.
  change (1 # 2 ^ 53)%Q with (1 # 9007199254740992)%Q in *. lra.
Qed.

Section ScorerReturns.

Context {engine : Engine}.

(** A value of [score] comes from a grammar that compiled and from two
    non-empty example lists. *)
Lemma score_ok_inv (self : Scorer) (g : Grammar) (s : Q) :
  score self g = Ok s ->
  positives self <> [] /\ negatives self <> [] /\ exists p, Grammar_parser g = Ok p.
Proof.
  intros H.
  destruct (positives self) as [| x l] eqn:Hpos.
  { unfold score in H. rewrite Hpos in H. discriminate H. }
  destruct (Grammar_parser g) as [p | e] eqn:Hp.
  - destruct (negatives self) as [| y l'] eqn:Hneg.
    + unfold score in H. rewrite Hpos, Hneg in H.
      rewrite (count_parsed_compiled g p _ Hp) in H. discriminate H.
    + split; [discriminate |]. split; [discriminate |]. exists p. reflexivity.
  - rewrite (score_not_compiled self g e Hp) in H; [discriminate H |].
    rewrite Hpos. discriminate.
Qed.

(** A value of [score] is the rounded product of the two rounded
    factors. *)
Lemma score_value (self : Scorer) (g : Grammar) (p : Lark) (s : Q) :
  Grammar_parser g = Ok p -> score self g = Ok s ->
  List.length (positives self) <> 0 /\ List.length (negatives self) <> 0 /\
  (s == rnd (float_positive_part (matched p (positives self))
                                 (List.length (positives self))
             * float_negative_part (matched p (negatives self))
                                   (List.length (negatives self))))%Q.
Proof.
  intros Hp Hs. destruct (score_ok_inv self g s Hs) as [Hpos [Hneg _]].
  destruct (score_compiled self g p Hp Hpos Hneg) as [s' [Hs' Heq]].
  assert (s' = s) by congruence. subst s'.
  split; [apply nonempty_length; exact Hpos |].
  split; [apply nonempty_length; exact Hneg | exact Heq].
Qed.

Lemma score_range (self : Scorer) (g : Grammar) (s : Q) :
  score self g = Ok s -> (0 < s <= 1)%Q.
Proof.
  intros Hs. destruct (score_ok_inv self g s Hs) as [_ [_ [p Hp]]].
  destruct (score_value self g p s Hp Hs) as [Hnp [Hnn Heq]].
  pose proof (float_positive_part_bounds _ _ (matched_le p (positives self)) Hnp) as [A1 A2].
  pose proof (float_negative_part_bounds _ _ (matched_le p (negatives self)) Hnn) as [B1 B2].
  rewrite Heq. split.
  - apply rnd_positive. nra.
  - apply rnd_le_one; nra.
Qed.

(** X6: [Scorer.score] returns a value exactly when both example lists are
    non-empty and [grammar.parser()] returns; in every other case it
    raises. *)
Theorem score_returns_iff (self : Scorer) (g : Grammar) :
  (exists s, score self g = Ok s) <->
  (positives self <> [] /\ negatives self <> [] /\ exists p, Grammar_parser g = Ok p).
Proof.
  split.
  - intros [s Hs]. exact (score_ok_inv self g s Hs).
  - intros [Hpos [Hneg [p Hp]]].
    destruct (score_compiled self g p Hp Hpos Hneg) as [s [Hs _]].
    exists s. exact Hs.
Qed.

(** X7: the floor the docstring announces, as the floats give it. A
    score is never below the float product of the two floats
    [0.5 / len(positives)] and [0.5 / len(negatives)], which is positive;
    it is that product when the grammar parses no positive example and
    every negative one, and, for at most [2^50] negative examples, only
    then. *)
Theorem score_floor (self : Scorer) (g : Grammar) (p : Lark) (s : Q) :
  Grammar_parser g = Ok p -> score self g = Ok s ->
  let floor := rnd (rnd ((1 # 2) / float_of_nat (List.length (positives self)))
                    * rnd ((1 # 2) / float_of_nat (List.length (negatives self)))) in
  (0 < floor)%Q /\ (floor <= s)%Q /\
  (matched p (positives self) = 0 /\
   matched p (negatives self) = List.length (negatives self) ->
   (s == floor)%Q) /\
  ((Z.of_nat (List.length (negatives self)) <= 2 ^ 50)%Z ->
   (s == floor)%Q ->
   matched p (positives self) = 0 /\
   matched p (negatives self) = List.length (negatives self)).
Proof.
  intros Hp Hs floor. subst floor.
  destruct (score_value self g p s Hp Hs) as [Hnp [Hnn Heq]].
  pose proof (float_half_bounds _ Hnp) as [C1 C2].
  pose proof (float_half_bounds _ Hnn) as [D1 D2].
  pose proof (float_positive_part_bounds _ _ (matched_le p (positives self)) Hnp) as [A1 A2].
  pose proof (float_negative_part_bounds _ _ (matched_le p (negatives self)) Hnn) as [B1 B2].
  assert (FA : (rnd ((1 # 2) / float_of_nat (List.length (positives self)))
                <= float_positive_part (matched p (positives self))
                                       (List.length (positives self)))%Q)
    by apply Q.le_max_r.
  assert (FB : (rnd ((1 # 2) / float_of_nat (List.length (negatives self)))
                <= float_negative_part (matched p (negatives self))
                                       (List.length (negatives self)))%Q)
    by apply Q.le_max_r.
  split; [apply rnd_positive; nra |]. split; [rewrite Heq; apply rnd_mono; nra |]. split.
  - intros [HP HN]. rewrite Heq, HP, HN.
    rewrite (float_positive_part_zero _ Hnp), (float_negative_part_all _ Hnn).
    reflexivity.
  - intros Hb Hfloor. rewrite Heq in Hfloor.
    assert (Habove : forall A B fa fb : Q,
               (0 < fa)%Q -> (0 < fb)%Q -> (fa <= A)%Q -> (fb <= B)%Q ->
               ((3 # 2) * (fa * fb) <= A * B)%Q ->
               (rnd (A * B) == rnd (fa * fb))%Q -> False).
    { intros A B fa fb Hfa Hfb HA HB H32 E.
      assert (H1 : (0 <= A * B)%Q) by nra. assert (H2 : (0 <= fa * fb)%Q) by nra.
      destruct (rnd_error_bounds _ H1) as [R1 _]. destruct (rnd_error_bounds _ H2) as [_ R2].
      assert (Hp' : (0 < fa * fb)%Q) by nra.
      set (x := (A * B)%Q) in *. set (y := (fa * fb)%Q) in *.
      set (rx := rnd x) in *. set (ry := rnd y) in *. clearbody x y rx ry.
      change (1 # 2 ^ 53)%Q with (1 # 9007199254740992)%Q in *. lra. }
    split.
    + destruct (Nat.eq_dec (matched p (positives self)) 0) as [E | E]; [exact E | exfalso].
      assert (HP0 : 0 < matched p (positives self)) by lia.
      pose proof (float_positive_part_above _ _ HP0 (matched_le p (positives self))) as HA.
      apply (Habove _ _ _ _ C1 D1 FA FB); [nra | exact Hfloor].
    + destruct (Nat.eq_dec (matched p (negatives self)) (List.length (negatives self)))
        as [E | E]; [exact E | exfalso].
      assert (HN : matched p (negatives self) < List.length (negatives self)).
      { pose proof (matched_le p (negatives self)). lia. }
      pose proof (float_negative_part_above _ _ HN Hb) as HB.
      apply (Habove _ _ _ _ C1 D1 FA FB); [nra | exact Hfloor].
Qed.

(** X8: [score_is_good] holds of the score of a grammar that parses every
    positive example and no negative one; and, for example lists of at
    most [2^53] entries, of no other score. (Beyond that size a quotient
    [P / len] with [P < len] can round to 1.0.) *)
Theorem score_is_good_iff_perfect (self : Scorer) (g : Grammar) (p : Lark) (s : Q) :
  Grammar_parser g = Ok p -> score self g = Ok s ->
  (matched p (positives self) = List.length (positives self) /\
   matched p (negatives self) = 0 ->
   score_is_good s = true) /\
  ((Z.of_nat (List.length (positives self)) <= 2 ^ 53)%Z ->
   (Z.of_nat (List.length (negatives self)) <= 2 ^ 53)%Z ->
   score_is_good s = true ->
   matched p (positives self) = List.length (positives self) /\
   matched p (negatives self) = 0).
Proof.
  intros Hp Hs.
  destruct (score_value self g p s Hp Hs) as [Hnp [Hnn Heq]].
  pose proof (float_positive_part_bounds _ _ (matched_le p (positives self)) Hnp) as [A1 A2].
  pose proof (float_negative_part_bounds _ _ (matched_le p (negatives self)) Hnn) as [B1 B2].
  unfold score_is_good. rewrite Qle_bool_iff. split.
  - intros [HP HN]. rewrite Heq, HP, HN.
    rewrite (float_positive_part_full _ Hnp), (float_negative_part_none _ Hnn).
    assert (E : (1 * 1 == 1)%Q) by reflexivity.
    rewrite (rnd_comp _ _ E), rnd_one. apply Qle_refl.
  - intros Hbp Hbn Hgood. rewrite Heq in Hgood.
    assert (Hbelow : forall A B : Q,
               (0 < A)%Q -> (0 < B)%Q ->
               (A * B <= 9007199254740991 # 9007199254740992)%Q ->
               (1 <= rnd (A * B))%Q -> False).
    { intros A B HA HB Hle H1.
      assert (H : (rnd (A * B) <= 9007199254740991 # 9007199254740992)%Q).
      { rewrite <- rnd_below_one. apply rnd_mono; [nra | exact Hle]. }
      lra. }
    split.
    + destruct (Nat.eq_dec (matched p (positives self)) (List.length (positives self)))
        as [E | E]; [exact E | exfalso].
      assert (Hlt : matched p (positives self) < List.length (positives self)).
      { pose proof (matched_le p (positives self)). lia. }
      pose proof (float_positive_part_short _ _ Hlt Hbp) as HA.
      apply (Hbelow _ _ A1 B1); [nra | exact Hgood].
    + destruct (Nat.eq_dec (matched p (negatives self)) 0) as [E | E]; [exact E | exfalso].
      assert (Hpos : 0 < matched p (negatives self)) by lia.
      pose proof (float_negative_part_some _ _ Hpos (matched_le p (negatives self)) Hbn) as HB.
      apply (Hbelow _ _ A1 B1); [nra | exact Hgood].
Qed.

(** X9: the score only depends on the two counts, and it is monotone in
    them: a grammar that parses at least as many positives and at most as
    many negatives as another one scores at least as much. *)
Theorem score_monotone (self : Scorer) (g1 g2 : Grammar) (p1 p2 : Lark) (s1 s2 : Q) :
  Grammar_parser g1 = Ok p1 -> Grammar_parser g2 = Ok p2 ->
  score self g1 = Ok s1 -> score self g2 = Ok s2 ->
  matched p1 (positives self) <= matched p2 (positives self) ->
  matched p2 (negatives self) <= matched p1 (negatives self) ->
  (s1 <= s2)%Q.
Proof.
  intros Hp1 Hp2 Hs1 Hs2 HP HN.
  destruct (score_value self g1 p1 s1 Hp1 Hs1) as [Hnp [Hnn Heq1]].
  destruct (score_value self g2 p2 s2 Hp2 Hs2) as [_ [_ Heq2]].
  pose proof (float_positive_part_bounds _ _ (matched_le p1 (positives self)) Hnp) as [A1 _].
  pose proof (float_negative_part_bounds _ _ (matched_le p1 (negatives self)) Hnn) as [B1 _].
  pose proof (float_positive_part_mono _ _ _ HP Hnp) as A.
  pose proof (float_negative_part_anti _ _ _ HN (matched_le p1 (negatives self)) Hnn) as B.
  rewrite Heq1, Heq2. apply rnd_mono; nra.
Qed.

End ScorerReturns.

(** ** Admission into the population *)

Lemma list_insert_perm {A : Type} (i : nat) (x : A) (l : list A) :
  Permutation (list_insert i x l) (x :: l).
Proof.
  unfold list_insert. rewrite <- (firstn_skipn i l) at 3.
  symmetry. apply Permutation_middle.
Qed.

Lemma list_insert_in {A : Type} (i : nat) (x : A) (l : list A) :
  In x (list_insert i x l).
Proof. unfold list_insert. apply in_or_app. right. left. reflexivity. Qed.

Lemma skipn_incl {A : Type} (n : nat) (l : list A) : incl (skipn n l) l.
Proof.
  intros x Hx. rewrite <- (firstn_skipn n l). apply in_or_app. right. exact Hx.
Qed.

(** What [add_to_population] does once the assertion has passed: insert,
    then drop the overflow from the front. *)
Lemma add_to_population_value (g : Grammar) (s : Q) (id : nat) (st : SearchState) :
  (minimum_score st < s)%Q ->
  let pop := list_insert (find_insert_idx s (population st)) (g, id, s) (population st) in
  exists first rest,
    skipn (List.length pop - POPULATION_SIZE) pop = first :: rest /\
    add_to_population g s id st
    = Ok (mkState (first :: rest) (entry_score first) (cur_gram_id st)).
Proof.
  intros Hgt pop. apply Qgtb_true in Hgt.
  assert (Hlen : List.length pop = S (List.length (population st))).
  { apply length_list_insert. }
  assert (Hk : List.length (skipn (List.length pop - POPULATION_SIZE) pop)
               = Nat.min (List.length pop) POPULATION_SIZE).
  { rewrite length_skipn. unfold POPULATION_SIZE. lia. }
  assert (Hadd : add_to_population g s id st
                 = (first <- get_nth (skipn (List.length pop - POPULATION_SIZE) pop) 0 ;;
                    Ok (mkState (skipn (List.length pop - POPULATION_SIZE) pop)
                                (entry_score first) (cur_gram_id st)))).
  { unfold add_to_population. rewrite Hgt. cbn [negb].
    rewrite evict_skipn by apply Nat.le_sub_l. reflexivity. }
  rewrite Hadd. clearbody pop.
  destruct (skipn (List.length pop - POPULATION_SIZE) pop) as [| first rest] eqn:Hskip.
  { exfalso. cbn [List.length] in Hk. unfold POPULATION_SIZE in Hk. lia. }
  exists first, rest. split; reflexivity.
Qed.

(** X10: [add_to_population] fails its assertion exactly when the score
    is not above the recorded minimum. In every other case it returns,
    whatever the population holds: the result has
    min(len(population) + 1, 20) entries, all of them among the old
    entries and the new one, the recorded minimum is the score of its first
    entry and the generation counter is untouched. *)
Theorem add_to_population_outcome (g : Grammar) (s : Q) (id : nat) (st : SearchState) :
  (add_to_population g s id st = Raise AssertionError <-> (s <= minimum_score st)%Q) /\
  ((minimum_score st < s)%Q ->
   exists first rest,
     add_to_population g s id st
     = Ok (mkState (first :: rest) (entry_score first) (cur_gram_id st)) /\
     List.length (first :: rest)
     = Nat.min (S (List.length (population st))) POPULATION_SIZE /\
     incl (first :: rest) ((g, id, s) :: population st)).
Proof.
  assert (Hret : (minimum_score st < s)%Q ->
            exists first rest,
              add_to_population g s id st
              = Ok (mkState (first :: rest) (entry_score first) (cur_gram_id st)) /\
              List.length (first :: rest)
              = Nat.min (S (List.length (population st))) POPULATION_SIZE /\
              incl (first :: rest) ((g, id, s) :: population st)).
  { intros Hgt.
    destruct (add_to_population_value g s id st Hgt) as [first [rest [Hskip Heq]]].
    exists first, rest. split; [exact Heq |]. unfold Entry in *. rewrite <- Hskip. split.
    - rewrite length_skipn, length_list_insert. unfold POPULATION_SIZE. lia.
    - intros e He. apply skipn_incl in He.
      exact (Permutation_in e (list_insert_perm _ _ _) He). }
  split; [| exact Hret]. split.
  - intros H. destruct (Qlt_le_dec (minimum_score st) s) as [Hlt | Hle]; [| exact Hle].
    destruct (Hret Hlt) as [first [rest [Heq _]]]. rewrite Heq in H. discriminate H.
  - intros Hle. apply Qgtb_false in Hle. unfold add_to_population. rewrite Hle.
    reflexivity.
Qed.

(** The shape of an admission into a population that satisfies the
    invariant: the newcomer goes somewhere after the first entry, and the
    first entry is dropped when there were 20 entries already. *)
Lemma admission_shape (g : Grammar) (s : Q) (id : nat) (st st' : SearchState) :
  pop_inv st -> (minimum_score st < s)%Q ->
  add_to_population g s id st = Ok st' ->
  exists first rest i,
    population st = first :: rest /\ minimum_score st = entry_score first /\
    cur_gram_id st' = cur_gram_id st /\
    ((List.length (population st) < POPULATION_SIZE /\
      population st' = first :: list_insert i (g, id, s) rest) \/
     (List.length (population st) = POPULATION_SIZE /\
      population st' = list_insert i (g, id, s) rest)).
Proof.
  intros [Hlen [Hsorted [[first [rest [Hpop Hmin]]] _]]] Hgt Hadd.
  destruct (add_to_population_value g s id st Hgt) as [f [r [Hskip Heq]]].
  rewrite Heq in Hadd. injection Hadd as <-. cbn [population cur_gram_id].
  unfold Entry in *. rewrite <- Hskip. clear Hskip Heq f r.
  assert (Hidx : find_insert_idx s (population st)
                 = S (find_insert_idx s rest)).
  { rewrite Hpop. cbn [find_insert_idx].
    assert (E : Qgtb (entry_score first) s = false).
    { apply Qgtb_false. rewrite <- Hmin. apply Qlt_le_weak. exact Hgt. }
    rewrite E. reflexivity. }
  exists first, rest, (find_insert_idx s rest).
  split; [exact Hpop |]. split; [exact Hmin |]. split; [reflexivity |].
  rewrite Hidx, Hpop, list_insert_cons. rewrite Hpop in Hlen.
  cbn [List.length] in *. rewrite length_list_insert.
  destruct (Nat.eq_dec (List.length rest) 19) as [E | E].
  - right. split; [unfold POPULATION_SIZE; lia |].
    rewrite E. reflexivity.
  - left. split; [unfold POPULATION_SIZE in *; lia |].
    replace (S (S (List.length rest)) - POPULATION_SIZE) with 0
      by (unfold POPULATION_SIZE in *; lia).
    reflexivity.
Qed.

(** X11: in a population that satisfies the invariant, a newcomer is
    inserted after the lowest entry and so survives its own admission;
    below 20 entries nothing is dropped, and at 20 entries the one entry
    dropped is the previous first one, whose score no remaining entry
    undercuts. *)
Theorem admission_evicts_lowest (g : Grammar) (s : Q) (id : nat) (st st' : SearchState) :
  pop_inv st -> (minimum_score st < s)%Q ->
  add_to_population g s id st = Ok st' ->
  In (g, id, s) (population st') /\
  (List.length (population st) < POPULATION_SIZE ->
   Permutation (population st') ((g, id, s) :: population st)) /\
  (List.length (population st) = POPULATION_SIZE ->
   exists lowest,
     hd_error (population st) = Some lowest /\
     Permutation (lowest :: population st') ((g, id, s) :: population st) /\
     Forall (fun e => (entry_score lowest <= entry_score e)%Q) (population st')).
Proof.
  intros Hinv Hgt Hadd.
  destruct (admission_shape g s id st st' Hinv Hgt Hadd)
    as [first [rest [i [Hpop [Hmin [_ Hcase]]]]]].
  destruct Hinv as [_ [Hsorted _]].
  assert (Hperm : Permutation (first :: list_insert i (g, id, s) rest)
                              ((g, id, s) :: first :: rest)).
  { apply perm_trans with (first :: (g, id, s) :: rest); [| apply perm_swap].
    apply perm_skip. apply list_insert_perm. }
  rewrite Hpop in *.
  destruct Hcase as [[Hlt ->] | [Hfull ->]].
  - split; [right; apply list_insert_in |].
    split; [intros _; exact Hperm |].
    intros Hfull. rewrite Hfull in Hlt. exfalso. apply (Nat.lt_irrefl _ Hlt).
  - split; [apply list_insert_in |]. split.
    + intros Hlt. rewrite Hfull in Hlt. exfalso. apply (Nat.lt_irrefl _ Hlt).
    + intros _. exists first. split; [reflexivity |]. split; [exact Hperm |].
      apply Forall_list_insert.
      * cbn [entry_score snd]. rewrite <- Hmin. apply Qlt_le_weak. exact Hgt.
      * apply StronglySorted_inv in Hsorted. destruct Hsorted as [_ Hall].
        eapply Forall_impl; [| exact Hall]. intros e He. apply entry_before_le. exact He.
Qed.

(** ** What the generations do to the population *)

Lemma NoDup_skipn {A : Type} (n : nat) (l : list A) : NoDup l -> NoDup (skipn n l).
Proof.
  intros H. rewrite <- (firstn_skipn n l) in H. apply NoDup_app_remove_l in H. exact H.
Qed.

Lemma best_score_snoc (st : SearchState) (l : list Entry) (e : Entry) :
  population st = (l ++ [e])%list -> best_score st = Ok (entry_score e).
Proof.
  intros H. unfold best_score. rewrite H, rev_app_distr. reflexivity.
Qed.

(** In a sorted population no entry has a greater score than the last. *)
Lemma sorted_last_max (l : list Entry) (e : Entry) :
  StronglySorted entry_before (l ++ [e]) ->
  Forall (fun x => (entry_score x <= entry_score e)%Q) (l ++ [e]).
Proof.
  induction l as [| a l IH]; cbn [app]; intros Hs.
  - constructor; [apply Qle_refl | constructor].
  - apply StronglySorted_inv in Hs. destruct Hs as [Hrest Ha].
    constructor; [| apply IH; exact Hrest].
    rewrite Forall_forall in Ha. apply entry_before_le. apply Ha.
    apply in_or_app. right. left. reflexivity.
Qed.

(** In a population that satisfies the invariant no entry scores below
    the recorded minimum. *)
Lemma pop_inv_min_le (st : SearchState) :
  pop_inv st ->
  Forall (fun e => (minimum_score st <= entry_score e)%Q) (population st).
Proof.
  intros [_ [Hsorted [[first [rest [Hpop Hmin]]] _]]].
  rewrite Hpop in *. rewrite Hmin. apply StronglySorted_inv in Hsorted.
  destruct Hsorted as [_ Hall].
  constructor; [apply Qle_refl |].
  eapply Forall_impl; [| exact Hall]. intros e He. apply entry_before_le. exact He.
Qed.

Lemma last_in_tail {A : Type} (a e : A) (rest l : list A) :
  a :: rest = (l ++ [e])%list -> rest <> [] -> In e rest.
Proof.
  intros H Hne. destruct l as [| b l].
  - injection H as _ H. contradiction.
  - injection H as _ H. rewrite H. apply in_or_app. right. left. reflexivity.
Qed.

Section GenerationShape.

Context {engine : Engine} {util : Util} {pyset : PySet}.

Variable tape : nat -> nat.
Variable scorer : Scorer.

(** The two ways [fuzz_one] ends: the generation counter has advanced,
    and either nothing else changed or the scored mutant was handed to
    [add_to_population]. *)
Lemma fuzz_one_shape (parent : Grammar) (st st' : SearchState) (i j : nat) :
  fuzz_one tape scorer parent st i = Ok (st', j) ->
  let st1 := mkState (population st) (minimum_score st) (cur_gram_id st + 1) in
  st' = st1 \/
  exists mutant s,
    score scorer mutant = Ok s /\ (minimum_score st < s)%Q /\
    add_to_population mutant s (cur_gram_id st + 1) st1 = Ok st'.
Proof.
  intros Hrun. unfold fuzz_one in Hrun.
  apply bindR_ok in Hrun. destruct Hrun as [num [i1 [_ Hrun]]].
  apply bindR_ok in Hrun. destruct Hrun as [before_score [i2 [_ Hrun]]].
  apply bindR_ok in Hrun. destruct Hrun as [mutant [i3 [_ Hrun]]].
  apply bindR_ok in Hrun. destruct Hrun as [mutant_score [i4 [Hscore Hrun]]].
  apply lift_ok in Hscore. destruct Hscore as [Hscore _].
  cbn [minimum_score cur_gram_id population] in Hrun. cbn zeta.
  destruct (Qgtb mutant_score (minimum_score st)) eqn:Hgt.
  - apply lift_ok in Hrun. destruct Hrun as [Hadd _].
    right. exists mutant, mutant_score.
    split; [exact Hscore |]. split; [apply Qgtb_true; exact Hgt | exact Hadd].
  - apply ret_ok in Hrun. destruct Hrun as [-> _]. left. reflexivity.
Qed.

Lemma generation_shape (st st' : SearchState) (i j : nat) :
  generation tape scorer st i = Ok (st', j) ->
  exists parent i1 j1,
    In parent (population st) /\
    fuzz_one tape scorer (entry_grammar parent) st i1 = Ok (st', j1).
Proof.
  intros Hrun. unfold generation in Hrun.
  apply bindR_ok in Hrun. destruct Hrun as [parent [i1 [Hparent Hrun]]].
  apply bindR_ok in Hrun. destruct Hrun as [st1 [i2 [Hfuzz Hrun]]].
  apply bindR_ok in Hrun. destruct Hrun as [best [i3 [_ Hrun]]].
  apply ret_ok in Hrun. destruct Hrun as [-> _].
  exists parent, i1, i2. split; [| exact Hfuzz].
  unfold choose in Hparent. apply lift_ok in Hparent. destruct Hparent as [Hparent _].
  apply (random_choice_in _ _ _ Hparent).
Qed.

(** One generation never lowers the minimum, the best score or the
    size. *)
Lemma generation_progress (st st' : SearchState) (i j : nat) :
  pop_inv st ->
  generation tape scorer st i = Ok (st', j) ->
  (minimum_score st <= minimum_score st')%Q /\
  List.length (population st) <= List.length (population st') /\
  exists b b', best_score st = Ok b /\ best_score st' = Ok b' /\ (b <= b')%Q.
Proof.
  intros Hinv Hgen.
  destruct (generation_inv tape scorer st st' i j Hinv Hgen) as [Hinv' _].
  destruct (generation_shape st st' i j Hgen) as [parent [i1 [j1 [_ Hfuzz]]]].
  pose proof (pop_inv_min_le st Hinv) as Hmin_le.
  pose proof Hinv as [_ [_ [[first [rest [Hpop Hmin]]] _]]].
  assert (Hlast : exists l e, population st = (l ++ [e])%list).
  { destruct (exists_last (l := population st)) as [l [e He]];
      [rewrite Hpop; discriminate | exists l, e; exact He]. }
  destruct Hlast as [l [e He]].
  destruct (fuzz_one_shape (entry_grammar parent) st st' i1 j1) as [-> | [mutant [s [_ [Hgt Hadd]]]]].
  { exact Hfuzz. }
  { cbn [minimum_score population]. split; [apply Qle_refl |]. split; [apply Nat.le_refl |].
    exists (entry_score e), (entry_score e).
    split; [apply (best_score_snoc st l e He) |].
    split; [apply (best_score_snoc _ l e); exact He | apply Qle_refl]. }
  assert (Hinv1 : pop_inv (mkState (population st) (minimum_score st) (cur_gram_id st + 1))).
  { destruct Hinv as [H1 [H2 [H3 H4]]].
    split; [exact H1 |]. split; [exact H2 |]. split; [exact H3 |].
    cbn [population cur_gram_id]. eapply Forall_impl; [| exact H4].
    intros x Hx. simpl in Hx. lia. }
  destruct (admission_shape mutant s _ _ st' Hinv1 Hgt Hadd)
    as [f [r [k [Hpop1 [_ [_ Hcase]]]]]].
  cbn [population] in Hpop1, Hcase.
  assert (f = first /\ r = rest) as [-> ->] by (split; congruence).
  pose proof Hinv' as [_ [Hsorted' [[first' [rest' [Hpop' Hmin']]] _]]].
  assert (Hsub : incl (population st') ((mutant, cur_gram_id st + 1, s) :: population st)).
  { rewrite Hpop. destruct Hcase as [[_ ->] | [_ ->]].
    - intros x [<- | Hx]; [right; left; reflexivity |].
      apply (Permutation_in x (list_insert_perm _ _ _)) in Hx.
      destruct Hx as [<- | Hx]; [left; reflexivity | right; right; exact Hx].
    - intros x Hx. apply (Permutation_in x (list_insert_perm _ _ _)) in Hx.
      destruct Hx as [<- | Hx]; [left; reflexivity | right; right; exact Hx]. }
  split; [| split].
  - rewrite Hmin'.
    assert (Hin : In first' ((mutant, cur_gram_id st + 1, s) :: population st)).
    { apply Hsub. rewrite Hpop'. left. reflexivity. }
    destruct Hin as [<- | Hin].
    + cbn [entry_score snd]. apply Qlt_le_weak. exact Hgt.
    + rewrite Forall_forall in Hmin_le. apply Hmin_le. exact Hin.
  - rewrite Hpop. destruct Hcase as [[_ ->] | [_ ->]]; cbn [List.length];
      rewrite length_list_insert; lia.
  - assert (Hlast' : exists l' e', population st' = (l' ++ [e'])%list).
    { destruct (exists_last (l := population st')) as [l' [e' He']];
        [rewrite Hpop'; discriminate | exists l', e'; exact He']. }
    destruct Hlast' as [l' [e' He']].
    exists (entry_score e), (entry_score e').
    split; [apply (best_score_snoc st l e He) |].
    split; [apply (best_score_snoc st' l' e' He') |].
    assert (Hin : In e (population st')).
    { rewrite Hpop in He. destruct Hcase as [[_ ->] | [Hfull ->]].
      - destruct l as [| a l0].
        + injection He as -> _. left. reflexivity.
        + injection He as _ Hr. right.
          apply (Permutation_in e (Permutation_sym (list_insert_perm _ _ _))).
          right. rewrite Hr. apply in_or_app. right. left. reflexivity.
      - apply (Permutation_in e (Permutation_sym (list_insert_perm _ _ _))).
        right. apply (last_in_tail first e rest l He).
        intros ->. rewrite Hpop in Hfull. discriminate Hfull. }
    rewrite He' in Hsorted', Hin.
    pose proof (sorted_last_max l' e' Hsorted') as Hmax.
    rewrite Forall_forall in Hmax. apply Hmax. exact Hin.
Qed.

Lemma generations_progress (n : nat) (st st' : SearchState) (i j : nat) :
  pop_inv st ->
  generations tape scorer n st i = Ok (st', j) ->
  (minimum_score st <= minimum_score st')%Q /\
  List.length (population st) <= List.length (population st') /\
  exists b b', best_score st = Ok b /\ best_score st' = Ok b' /\ (b <= b')%Q.
Proof.
  revert st i. induction n as [| n IH]; intros st i Hinv Hrun.
  - apply ret_ok in Hrun. destruct Hrun as [-> _].
    split; [apply Qle_refl |]. split; [apply Nat.le_refl |].
    pose proof Hinv as [_ [_ [[first [rest [Hpop _]]] _]]].
    destruct (exists_last (l := population st)) as [l [e He]];
      [rewrite Hpop; discriminate |].
    exists (entry_score e), (entry_score e).
    split; [apply (best_score_snoc st l e He) |].
    split; [apply (best_score_snoc st l e He) | apply Qle_refl].
  - cbn [generations] in Hrun.
    apply bindR_ok in Hrun. destruct Hrun as [st1 [i1 [Hgen Hrun]]].
    destruct (generation_inv tape scorer st st1 i i1 Hinv Hgen) as [Hinv1 _].
    destruct (generation_progress st st1 i i1 Hinv Hgen)
      as [A1 [A2 [b [b1 [A3 [A4 A5]]]]]].
    destruct (IH st1 i1 Hinv1 Hrun) as [B1 [B2 [b1' [b' [B3 [B4 B5]]]]]].
    split; [apply Qle_trans with (minimum_score st1); assumption |].
    split; [lia |].
    exists b, b'. split; [exact A3 |]. split; [exact B4 |].
    assert (b1' = b1) by congruence. subst b1'.
    apply Qle_trans with b1; assumption.
Qed.

(** Ids: one generation advances the counter by one; the ids of the
    population stay pairwise distinct and never run ahead of it. *)
Lemma generation_ids (st st' : SearchState) (i j : nat) :
  NoDup (map entry_id (population st)) ->
  Forall (fun e => entry_id e <= cur_gram_id st) (population st) ->
  generation tape scorer st i = Ok (st', j) ->
  cur_gram_id st' = cur_gram_id st + 1 /\
  NoDup (map entry_id (population st')) /\
  Forall (fun e => entry_id e <= cur_gram_id st') (population st') /\
  List.length (population st') <= S (List.length (population st)).
Proof.
  intros Hnd Hids Hgen.
  destruct (generation_shape st st' i j Hgen) as [parent [i1 [j1 [_ Hfuzz]]]].
  destruct (fuzz_one_shape (entry_grammar parent) st st' i1 j1 Hfuzz)
    as [-> | [mutant [s [_ [Hgt Hadd]]]]].
  - cbn [population cur_gram_id]. split; [reflexivity |]. split; [exact Hnd |].
    split; [| lia].
    eapply Forall_impl; [| exact Hids]. intros x Hx. simpl in Hx. lia.
  - destruct (add_to_population_value mutant s (cur_gram_id st + 1) (mkState (population st) (minimum_score st) (cur_gram_id st + 1)) Hgt)
      as [f [r [Hskip Heq]]].
    rewrite Heq in Hadd. injection Hadd as <-.
    cbn [population cur_gram_id] in *.
    unfold Entry in *. rewrite <- Hskip.
    split; [reflexivity |].
    set (new := (mutant, cur_gram_id st + 1, s)).
    assert (Hperm : Permutation
                      (list_insert (find_insert_idx s (population st)) new (population st))
                      (new :: population st)) by apply list_insert_perm.
    split; [| split].
    + rewrite <- skipn_map. apply NoDup_skipn.
      apply (Permutation_NoDup (Permutation_map entry_id (Permutation_sym Hperm))).
      cbn [map]. constructor; [| exact Hnd].
      intros Hin. apply in_map_iff in Hin. destruct Hin as [x [Hx Hin]].
      rewrite Forall_forall in Hids. specialize (Hids x Hin).
      unfold new in Hx. cbn [entry_id fst snd] in Hx. lia.
    + apply Forall_skipn.
      apply (Permutation_Forall (Permutation_sym Hperm)).
      constructor; [unfold new; cbn [entry_id fst snd]; lia |].
      eapply Forall_impl; [| exact Hids]. intros x Hx. simpl in Hx. lia.
    + rewrite length_skipn, length_list_insert. lia.
Qed.

(** Scores: every entry of the population keeps a score in (0, 1]. *)
Lemma generation_scores (st st' : SearchState) (i j : nat) :
  Forall (fun e => (0 < entry_score e <= 1)%Q) (population st) ->
  generation tape scorer st i = Ok (st', j) ->
  Forall (fun e => (0 < entry_score e <= 1)%Q) (population st').
Proof.
  intros Hall Hgen.
  destruct (generation_shape st st' i j Hgen) as [parent [i1 [j1 [_ Hfuzz]]]].
  destruct (fuzz_one_shape (entry_grammar parent) st st' i1 j1 Hfuzz)
    as [-> | [mutant [s [Hs [Hgt Hadd]]]]]; [exact Hall |].
  destruct (add_to_population_value mutant s (cur_gram_id st + 1) (mkState (population st) (minimum_score st) (cur_gram_id st + 1)) Hgt)
    as [f [r [Hskip Heq]]].
  rewrite Heq in Hadd. injection Hadd as <-. cbn [population] in *.
  unfold Entry in *. rewrite <- Hskip.
  apply Forall_skipn. apply Forall_list_insert; [| exact Hall].
  cbn [entry_score snd]. exact (score_range scorer mutant s Hs).
Qed.

(** A population whose minimum has reached 1 is never changed again. *)
Lemma generation_frozen (st st' : SearchState) (i j : nat) :
  (1 <= minimum_score st)%Q ->
  generation tape scorer st i = Ok (st', j) ->
  population st' = population st /\ minimum_score st' = minimum_score st.
Proof.
  intros Hmin Hgen.
  destruct (generation_shape st st' i j Hgen) as [parent [i1 [j1 [_ Hfuzz]]]].
  destruct (fuzz_one_shape (entry_grammar parent) st st' i1 j1 Hfuzz)
    as [-> | [mutant [s [Hs [Hgt _]]]]]; [split; reflexivity |].
  exfalso. pose proof (score_range scorer mutant s Hs) as [_ Hle]. lra.
Qed.

Lemma generations_ids (n : nat) (st st' : SearchState) (i j : nat) :
  NoDup (map entry_id (population st)) ->
  Forall (fun e => entry_id e <= cur_gram_id st) (population st) ->
  generations tape scorer n st i = Ok (st', j) ->
  cur_gram_id st' = cur_gram_id st + n /\
  NoDup (map entry_id (population st')) /\
  Forall (fun e => entry_id e <= cur_gram_id st') (population st') /\
  List.length (population st') <= List.length (population st) + n.
Proof.
  revert st i. induction n as [| n IH]; intros st i Hnd Hids Hrun.
  - apply ret_ok in Hrun. destruct Hrun as [-> _].
    split; [lia |]. split; [exact Hnd |]. split; [exact Hids | lia].
  - cbn [generations] in Hrun.
    apply bindR_ok in Hrun. destruct Hrun as [st1 [i1 [Hgen Hrun]]].
    destruct (generation_ids st st1 i i1 Hnd Hids Hgen) as [A1 [A2 [A3 A4]]].
    destruct (IH st1 i1 A2 A3 Hrun) as [B1 [B2 [B3 B4]]].
    split; [lia |]. split; [exact B2 |]. split; [exact B3 | lia].
Qed.

Lemma generations_scores (n : nat) (st st' : SearchState) (i j : nat) :
  Forall (fun e => (0 < entry_score e <= 1)%Q) (population st) ->
  generations tape scorer n st i = Ok (st', j) ->
  Forall (fun e => (0 < entry_score e <= 1)%Q) (population st').
Proof.
  revert st i. induction n as [| n IH]; intros st i Hall Hrun.
  - apply ret_ok in Hrun. destruct Hrun as [-> _]. exact Hall.
  - cbn [generations] in Hrun.
    apply bindR_ok in Hrun. destruct Hrun as [st1 [i1 [Hgen Hrun]]].
    apply (IH st1 i1); [| exact Hrun]. exact (generation_scores st st1 i i1 Hall Hgen).
Qed.

Lemma generations_frozen (n : nat) (st st' : SearchState) (i j : nat) :
  (1 <= minimum_score st)%Q ->
  generations tape scorer n st i = Ok (st', j) ->
  population st' = population st /\ minimum_score st' = minimum_score st.
Proof.
  revert st i. induction n as [| n IH]; intros st i Hmin Hrun.
  - apply ret_ok in Hrun. destruct Hrun as [-> _]. split; reflexivity.
  - cbn [generations] in Hrun.
    apply bindR_ok in Hrun. destruct Hrun as [st1 [i1 [Hgen Hrun]]].
    destruct (generation_frozen st st1 i i1 Hmin Hgen) as [A1 A2].
    destruct (IH st1 i1) as [B1 B2]; [rewrite A2; exact Hmin | exact Hrun |].
    split; congruence.
Qed.

End GenerationShape.

Section SearchProgress.

Context {engine : Engine} {util : Util} {pyset : PySet}.

(** A run of [n + m] generations is a run of [n] generations followed by
    [m] more. *)
Lemma search_loop_split (tape : nat -> nat) (n m : nat)
  (guides pos neg : list string) (i j' : nat) (st' : SearchState) :
  search_loop tape (n + m) guides pos neg i = Ok (st', j') ->
  exists st j,
    search_loop tape n guides pos neg i = Ok (st, j) /\
    generations tape (mkScorer pos neg) m st j = Ok (st', j').
Proof.
  unfold search_loop. intros H.
  apply bindR_ok in H. destruct H as [st0 [i0 [Hinit H]]].
  rewrite generations_add in H.
  apply bindR_ok in H. destruct H as [st [j [Hn Hm]]].
  exists st, j. split; [| exact Hm].
  unfold bindR. rewrite Hinit. exact Hn.
Qed.

Lemma search_loop_inv (tape : nat -> nat) (n : nat)
  (guides pos neg : list string) (i j : nat) (st : SearchState) :
  search_loop tape n guides pos neg i = Ok (st, j) -> pop_inv st.
Proof.
  unfold search_loop. intros H.
  apply bindR_ok in H. destruct H as [st0 [i0 [Hinit H]]].
  apply lift_ok in Hinit. destruct Hinit as [Hinit _].
  apply (generations_inv tape (mkScorer pos neg) n st0 st i0 j); [| exact H].
  exact (initial_state_inv _ _ _ _ Hinit).
Qed.

(** X12: the search only moves forward. A run that reaches generation
    [n + m] has passed generation [n], and between the two the recorded
    minimum, the best score (the one printed) and the size of the
    population have not decreased. *)
Theorem search_progress (tape : nat -> nat) (n m : nat)
  (guides pos neg : list string) (i j' : nat) (st' : SearchState) :
  search_loop tape (n + m) guides pos neg i = Ok (st', j') ->
  exists st j,
    search_loop tape n guides pos neg i = Ok (st, j) /\
    (minimum_score st <= minimum_score st')%Q /\
    List.length (population st) <= List.length (population st') /\
    exists b b', best_score st = Ok b /\ best_score st' = Ok b' /\ (b <= b')%Q.
Proof.
  intros H. destruct (search_loop_split tape n m guides pos neg i j' st' H)
    as [st [j [Hn Hm]]].
  exists st, j. split; [exact Hn |].
  apply (generations_progress tape (mkScorer pos neg) m st st' j j'); [| exact Hm].
  exact (search_loop_inv tape n guides pos neg i j st Hn).
Qed.

(** X13: after [n] generations the generation counter is [n], whether or
    not the mutants were admitted; the ids of the population are pairwise
    distinct and at most [n], and there are at most [n + 1] entries. *)
Theorem search_ids (tape : nat -> nat) (n : nat)
  (guides pos neg : list string) (i j : nat) (st : SearchState) :
  search_loop tape n guides pos neg i = Ok (st, j) ->
  cur_gram_id st = n /\
  NoDup (map entry_id (population st)) /\
  Forall (fun e => entry_id e <= n) (population st) /\
  List.length (population st) <= n + 1.
Proof.
  unfold search_loop. intros H.
  apply bindR_ok in H. destruct H as [st0 [i0 [Hinit H]]].
  apply lift_ok in Hinit. destruct Hinit as [Hinit _].
  unfold initial_state in Hinit.
  apply bind_ok in Hinit. destruct Hinit as [g [_ Hinit]].
  apply bind_ok in Hinit. destruct Hinit as [s [_ Hinit]]. injection Hinit as <-.
  destruct (generations_ids tape (mkScorer pos neg) n (mkState [(g, 0, s)] s 0) st i0 j)
    as [A1 [A2 [A3 A4]]]; [ | | exact H | ].
  - cbn [population map]. constructor; [intros [] | constructor].
  - cbn [population cur_gram_id]. constructor; [apply Nat.le_refl | constructor].
  - cbn [population cur_gram_id List.length] in *.
    split; [exact A1 |]. split; [exact A2 |]. split; [| lia].
    rewrite A1 in A3. exact A3.
Qed.

(** X14: every score the population holds, and the recorded minimum, lie
    in (0, 1]. *)
Theorem population_scores_bounded (tape : nat -> nat) (n : nat)
  (guides pos neg : list string) (i j : nat) (st : SearchState) :
  search_loop tape n guides pos neg i = Ok (st, j) ->
  Forall (fun e => (0 < entry_score e <= 1)%Q) (population st) /\
  (0 < minimum_score st <= 1)%Q.
Proof.
  intros Hrun.
  pose proof (search_loop_inv tape n guides pos neg i j st Hrun)
    as [_ [_ [[first [rest [Hpop Hmin]]] _]]].
  assert (Hall : Forall (fun e => (0 < entry_score e <= 1)%Q) (population st)).
  { unfold search_loop in Hrun.
    apply bindR_ok in Hrun. destruct Hrun as [st0 [i0 [Hinit H]]].
    apply lift_ok in Hinit. destruct Hinit as [Hinit _].
    apply (generations_scores tape (mkScorer pos neg) n st0 st i0 j); [| exact H].
    unfold initial_state in Hinit.
    apply bind_ok in Hinit. destruct Hinit as [g [_ Hinit]].
    apply bind_ok in Hinit. destruct Hinit as [s [Hs Hinit]]. injection Hinit as <-.
    cbn [population]. constructor; [| constructor].
    exact (score_range (mkScorer pos neg) g s Hs). }
  split; [exact Hall |].
  rewrite Hmin. rewrite Hpop in Hall. inversion Hall; assumption.
Qed.

(** X15: [search] never consults [score_is_good], but once the recorded
    minimum is good (at least 1) no mutant can be admitted: every later
    generation leaves the population and the minimum as they are. In
    particular a seed that is already perfect stays the only entry. *)
Theorem good_population_is_frozen (tape : nat -> nat) (n m : nat)
  (guides pos neg : list string) (i j j' : nat) (st st' : SearchState) :
  search_loop tape n guides pos neg i = Ok (st, j) ->
  score_is_good (minimum_score st) = true ->
  search_loop tape (n + m) guides pos neg i = Ok (st', j') ->
  population st' = population st /\ minimum_score st' = minimum_score st.
Proof.
  intros Hn Hgood Hnm.
  destruct (search_loop_split tape n m guides pos neg i j' st' Hnm)
    as [st2 [j2 [Hn2 Hm]]].
  assert (st2 = st /\ j2 = j) as [-> ->] by (split; congruence).
  apply (generations_frozen tape (mkScorer pos neg) m st st' j j'); [| exact Hm].
  unfold score_is_good in Hgood. apply Qle_bool_iff. exact Hgood.
Qed.

(** X16: without positive examples [search] raises [ZeroDivisionError]
    while scoring the seed, before any generation, whatever the guides,
    the engine and the draws; without negative examples it raises too. *)
Theorem search_needs_examples (tape : nat -> nat) (guides pos neg : list string) (i : nat) :
  search tape guides [] neg i = Raise ZeroDivisionError /\
  exists e, search tape guides pos [] i = Raise e.
Proof.
  destruct (init_grammar_rules guides) as [Hinit _].
  split.
  - unfold search, search_loop, initial_state, bindR, lift.
    rewrite Hinit. reflexivity.
  - unfold search, search_loop, initial_state, bindR, lift.
    rewrite Hinit. cbn [bind].
    destruct (score (mkScorer pos []) _) as [s | e] eqn:Hs.
    + apply score_ok_inv in Hs. destruct Hs as [_ [Hneg _]].
      contradiction Hneg. reflexivity.
    + exists e. reflexivity.
Qed.

End SearchProgress.

(** ** How the operators fail *)

Lemma mem_spec (x : string) (l : list string) : mem x l = true <-> In x l.
Proof.
  unfold mem. rewrite existsb_exists. split.
  - intros [y [Hy E]]. apply String.eqb_eq in E. subst y. exact Hy.
  - intros H. exists x. split; [exact H | apply String.eqb_refl].
Qed.

Lemma list_remove_absent (x : string) (l : list string) :
  ~ In x l -> list_remove x l = Raise ValueError.
Proof.
  induction l as [| y l IH]; simpl; intros H; [reflexivity |].
  destruct (String.eqb y x) eqn:E.
  - apply String.eqb_eq in E. exfalso. apply H. left. exact E.
  - rewrite IH; [reflexivity |]. intros Hin. apply H. right. exact Hin.
Qed.

Lemma list_remove_length (x : string) (l l' : list string) :
  list_remove x l = Ok l' -> List.length l = S (List.length l').
Proof.
  revert l'. induction l as [| y l IH]; simpl; intros l' H; [discriminate H |].
  destruct (String.eqb y x).
  - injection H as <-. reflexivity.
  - apply bind_ok in H. destruct H as [l'' [Hl'' H]]. injection H as <-.
    simpl. rewrite (IH l'' Hl''). reflexivity.
Qed.

Lemma list_sum_zero (l : list nat) : list_sum l = 0 -> forall x, In x l -> x = 0.
Proof.
  induction l as [| a l IH]; simpl; intros H x Hx; [contradiction |].
  destruct Hx as [<- | Hx]; [lia | apply IH; [lia | exact Hx]].
Qed.

Lemma list_sum_nonzero (f : string -> nat) (l : list string) :
  list_sum (map f l) <> 0 -> exists x, In x l /\ 0 < f x.
Proof.
  induction l as [| a l IH]; simpl; intros H; [contradiction H; reflexivity |].
  destruct (f a) eqn:E.
  - destruct IH as [x [Hx Hfx]]; [simpl in H; exact H |].
    exists x. split; [right; exact Hx | exact Hfx].
  - exists a. split; [left; reflexivity | lia].
Qed.

(** A symbol of a body that names no rule is listed among the terminals,
    and nothing else is. *)
Lemma terminals_of_spec (g : Grammar) (x : Symbol) :
  In x (terminals_of g (keys g)) <->
  (exists rule body, In rule (rules g) /\ In body (bodies rule) /\ In x body) /\
  ~ In x (keys g).
Proof.
  unfold terminals_of. rewrite in_flat_map. split.
  - intros [rule [Hrule H]]. apply in_flat_map in H. destruct H as [body [Hbody H]].
    apply filter_In in H. destruct H as [Hx Hm]. split.
    + exists rule, body. repeat split; assumption.
    + intros Hin. apply mem_spec in Hin. rewrite Hin in Hm. discriminate Hm.
  - intros [[rule [body [Hrule [Hbody Hx]]]] Hn]. exists rule. split; [exact Hrule |].
    apply in_flat_map. exists body. split; [exact Hbody |].
    apply filter_In. split; [exact Hx |].
    destruct (mem x (keys g)) eqn:E; [| reflexivity].
    apply mem_spec in E. contradiction.
Qed.

Lemma body_count_rule (g : Grammar) (rule : Rule) :
  NoDup (keys g) -> In rule (rules g) ->
  body_count g (start rule) = List.length (bodies rule).
Proof.
  intros Hnd Hin. unfold body_count. rewrite (find_rule_in g rule Hnd Hin). reflexivity.
Qed.

(** The four ways the selection of a site ends on a well-formed grammar:
    it returns a site; or [random.choices] has nothing to choose from
    because [start] is the only rule; or the weights divide by a total of
    zero bodies; or the drawn body is empty and has no position to draw. *)
Lemma choose_site_cases (r_key r_body r_idx : nat) (g : Grammar) :
  wf_grammar g ->
  (exists site, choose_site r_key r_body r_idx g = Ok site) \/
  (choose_site r_key r_body r_idx g = Raise IndexError /\ keys g = ["start"]) \/
  (choose_site r_key r_body r_idx g = Raise ZeroDivisionError /\
   keys g <> ["start"] /\
   forall rule, In rule (rules g) -> start rule <> "start" -> bodies rule = []) \/
  (choose_site r_key r_body r_idx g = Raise IndexError /\
   exists rule, In rule (rules g) /\ start rule <> "start" /\ In [] (bodies rule)).
Proof.
  intros Hwf. pose proof Hwf as [Hnd [s0 [b0 [bs0 [rest0 Hr]]]]].
  destruct (non_start_keys g Hwf) as [nts [Hnts [Hlen [_ Hiff]]]].
  unfold choose_site. rewrite Hnts. cbn [bind].
  destruct nts as [| n nts'].
  { right. left. split; [reflexivity |].
    unfold keys in *. rewrite Hr in *. cbn [map List.length start] in *.
    destruct rest0; [reflexivity | cbn [map List.length] in Hlen; lia]. }
  assert (Hkeys : keys g <> ["start"]).
  { intros E. rewrite E in Hlen. discriminate Hlen. }
  unfold weighted_choice.
  destruct (list_sum (map (body_count g) (n :: nts')) =? 0) eqn:Etotal.
  { right. right. left. split; [reflexivity |]. split; [exact Hkeys |].
    apply Nat.eqb_eq in Etotal. intros rule Hin Hne.
    assert (H0 : body_count g (start rule) = 0).
    { apply (list_sum_zero _ Etotal). apply in_map. apply Hiff.
      split; [apply in_map; exact Hin | exact Hne]. }
    rewrite (body_count_rule g rule Hnd Hin) in H0.
    destruct (bodies rule); [reflexivity | discriminate H0]. }
  apply Nat.eqb_neq in Etotal.
  destruct (list_sum_nonzero _ _ Etotal) as [nt [Hnt Hpos]].
  destruct (random_choice_total r_key
              (flat_map (fun nt => repeat nt (body_count g nt)) (n :: nts'))) as [k Hk].
  { intros Hnil.
    assert (Hx : In nt (flat_map (fun nt => repeat nt (body_count g nt)) (n :: nts'))).
    { apply in_flat_map. exists nt. split; [exact Hnt |].
      destruct (body_count g nt); [lia | left; reflexivity]. }
    rewrite Hnil in Hx. contradiction. }
  rewrite Hk. cbn [bind].
  assert (Hkin : In k (n :: nts') /\ 0 < body_count g k).
  { apply random_choice_in in Hk. apply in_flat_map in Hk.
    destruct Hk as [nt' [Hnt' Hk]].
    assert (k = nt') by (apply repeat_spec in Hk; exact Hk). subst nt'.
    split; [exact Hnt' |]. destruct (body_count g k); [contradiction | lia]. }
  destruct Hkin as [Hknts Hkpos].
  apply Hiff in Hknts. destruct Hknts as [Hkin Hkne].
  unfold keys in Hkin. apply in_map_iff in Hkin. destruct Hkin as [rule [Hstart Hin]].
  subst k. rewrite (body_count_rule g rule Hnd Hin) in Hkpos.
  unfold get_rule. rewrite (find_rule_in g rule Hnd Hin). cbn [bind].
  destruct (random_choice_range_total r_body _ Hkpos) as [bi [Hbi Hbilt]].
  rewrite Hbi. cbn [bind].
  destruct (nth_error (bodies rule) bi) as [body |] eqn:Hbody;
    [| apply nth_error_None in Hbody; lia].
  pose proof (nth_error_In _ _ Hbody) as Hbin.
  apply get_nth_ok in Hbody. rewrite Hbody. cbn [bind].
  destruct body as [| x body].
  { right. right. right. split; [reflexivity |].
    exists rule. split; [exact Hin |]. split; [exact Hkne | exact Hbin]. }
  left.
  destruct (random_choice_range_total r_idx (List.length (x :: body))) as [i [Hi Hilt]];
    [simpl; lia |].
  rewrite Hi. cbn [bind].
  destruct (nth_error (x :: body) i) as [y |] eqn:Hy; [| apply nth_error_None in Hy; lia].
  apply get_nth_ok in Hy. rewrite Hy. cbn [bind].
  eexists. reflexivity.
Qed.

Ltac step_bind :=
  match goal with
  | |- bind ?c _ = Raise _ -> _ =>
      destruct c; cbn [bind]; [| intros H; injection H as ->; reflexivity]
  end.

Section OperatorOutcomes.

Context {util : Util}.

(** An exception of the site selection is the exception of the
    operator. *)
Lemma mutate_repeat_raises (r_key r_body r_idx : nat) (g : Grammar) (e : exn) :
  wf_grammar g ->
  choose_site r_key r_body r_idx g = Raise e ->
  mutate_repeat r_key r_body r_idx g = Raise e.
Proof.
  intros Hwf. destruct (wf_entry_symbol g Hwf) as [entry Hentry].
  unfold mutate_repeat, choose_site. rewrite Hentry. cbn [bind].
  repeat step_bind. intros H. discriminate H.
Qed.

Lemma mutate_alternate_raises (r_key r_body r_idx r_alt : nat) (g : Grammar) (e : exn) :
  choose_site r_key r_body r_idx g = Raise e ->
  mutate_alternate r_key r_body r_idx r_alt g = Raise e.
Proof.
  unfold mutate_alternate, choose_site, copy.
  repeat step_bind. intros H. discriminate H.
Qed.

(** X17: on a well-formed grammar [mutate_repeat] ends in one of four
    ways. It returns; or it raises [IndexError] because [start] is the
    only rule; or it raises [ZeroDivisionError] because no rule other than
    [start] has a body, so that the weights divide by zero; or it raises
    [IndexError] because the body it drew from a rule other than [start]
    is empty. It raises nothing else. *)
Theorem mutate_repeat_outcomes (r_key r_body r_idx : nat) (g : Grammar) :
  wf_grammar g ->
  (exists g', mutate_repeat r_key r_body r_idx g = Ok g') \/
  (mutate_repeat r_key r_body r_idx g = Raise IndexError /\ keys g = ["start"]) \/
  (mutate_repeat r_key r_body r_idx g = Raise ZeroDivisionError /\
   keys g <> ["start"] /\
   forall rule, In rule (rules g) -> start rule <> "start" -> bodies rule = []) \/
  (mutate_repeat r_key r_body r_idx g = Raise IndexError /\
   exists rule, In rule (rules g) /\ start rule <> "start" /\ In [] (bodies rule)).
Proof.
  intros Hwf.
  destruct (choose_site_cases r_key r_body r_idx g Hwf)
    as [[[[[k bi] i] x] Hsite] | [[Hraise H] | [[Hraise H] | [Hraise H]]]].
  - left.
    destruct (mutate_repeat_at_site _ _ _ g k bi i x Hwf Hsite)
      as [R [rule [body [_ [_ [_ [_ [_ [_ Heq]]]]]]]]].
    eexists. exact Heq.
  - right. left. split; [apply mutate_repeat_raises; assumption | exact H].
  - right. right. left. split; [apply mutate_repeat_raises; assumption | exact H].
  - right. right. right. split; [apply mutate_repeat_raises; assumption | exact H].
Qed.

(** What [mutate_alternate] does once a site holding [x] is selected. *)
Lemma mutate_alternate_at_site (r_key r_body r_idx r_alt : nat) (g : Grammar)
  (k : string) (bi i : nat) (x : Symbol) :
  wf_grammar g ->
  choose_site r_key r_body r_idx g = Ok (k, bi, i, x) ->
  (x = "start" -> mutate_alternate r_key r_body r_idx r_alt g = Raise ValueError) /\
  (x <> "start" ->
   List.length (terminals_of g (keys g)) + (List.length (keys g) - 1) = 1 ->
   mutate_alternate r_key r_body r_idx r_alt g = Raise IndexError) /\
  (x <> "start" ->
   2 <= List.length (terminals_of g (keys g)) + (List.length (keys g) - 1) ->
   exists g', mutate_alternate r_key r_body r_idx r_alt g = Ok g').
Proof.
  intros Hwf Hsite. pose proof Hwf as [Hnd _].
  set (candidates := List.length (terminals_of g (keys g)) + (List.length (keys g) - 1)).
  destruct (choose_site_ok _ _ _ _ _ _ _ _ Hnd Hsite)
    as [nts [rule [body [Hnts [Hk [Hrule [Hbi [Hi [Hin [Hstart [Hne [Hbody Hx]]]]]]]]]]]].
  destruct (list_remove_spec _ _ _ Hnts Hnd) as [_ [_ Hiff]].
  assert (Hlen : List.length (terminals_of g (keys g) ++ nts) = candidates).
  { unfold candidates. rewrite length_app.
    pose proof (list_remove_length _ _ _ Hnts) as Hl. unfold Symbol in *. lia. }
  assert (Hrun : mutate_alternate r_key r_body r_idx r_alt g
                 = (alternates <- list_remove x (terminals_of g (keys g) ++ nts) ;;
                    alternate <- random_choice r_alt alternates ;;
                    Ok (update_rule k (add_body (set_nth i alternate body)) g))).
  { unfold mutate_alternate, copy. rewrite Hnts. cbn [bind]. rewrite Hk. cbn [bind].
    rewrite Hrule. cbn [bind]. rewrite Hbi. cbn [bind].
    apply get_nth_ok in Hbody. rewrite Hbody. cbn [bind]. rewrite Hi. cbn [bind].
    apply get_nth_ok in Hx. rewrite Hx. cbn [bind]. reflexivity. }
  rewrite Hrun. clear Hrun.
  assert (Hremove : x <> "start" ->
            exists alts, list_remove x (terminals_of g (keys g) ++ nts) = Ok alts /\
                         S (List.length alts) = candidates).
  { intros Hxne.
    destruct (list_remove_total x (terminals_of g (keys g) ++ nts)) as [alts Halts].
    - apply in_or_app. destruct (in_dec string_dec x (keys g)) as [Hxk | Hxk].
      + right. apply Hiff. split; assumption.
      + left. apply terminals_of_spec. split; [| exact Hxk].
        exists rule, body. split; [exact Hin |].
        split; [apply (nth_error_In _ _ Hbody) | apply (nth_error_In _ _ Hx)].
    - exists alts. split; [exact Halts |].
      apply list_remove_length in Halts. rewrite <- Hlen. symmetry. exact Halts. }
  split; [| split].
  - intros ->. rewrite list_remove_absent; [reflexivity |].
    intros Hxin. apply in_app_or in Hxin. destruct Hxin as [Ht | Hn].
    + apply terminals_of_spec in Ht. destruct Ht as [_ Ht]. apply Ht.
      destruct Hwf as [_ [s0 [b0 [bs0 [rest0 Hr]]]]]. unfold keys. rewrite Hr.
      left. reflexivity.
    + apply Hiff in Hn. destruct Hn as [_ Hn]. apply Hn. reflexivity.
  - intros Hxne Hone. destruct (Hremove Hxne) as [alts [Halts Hl]].
    rewrite Halts. cbn [bind].
    destruct alts; [reflexivity | simpl in Hl; lia].
  - intros Hxne Htwo. destruct (Hremove Hxne) as [alts [Halts Hl]].
    rewrite Halts. cbn [bind].
    destruct (random_choice_total r_alt alts) as [alternate Halt].
    { intros ->. simpl in Hl. lia. }
    rewrite Halt. cbn [bind]. eexists. reflexivity.
Qed.

(** X18: how [mutate_alternate] ends on a well-formed grammar. An
    exception of the site selection is passed on. Once a site holding [x]
    is selected, [alternates.remove(x)] raises [ValueError] exactly when
    [x] is [start]; otherwise the draw of the alternate raises
    [IndexError] when [x] was the only candidate, and the operator returns
    when the terminal occurrences and the rules other than [start] make at
    least two candidates. *)
Theorem mutate_alternate_outcomes (r_key r_body r_idx r_alt : nat) (g : Grammar) :
  wf_grammar g ->
  let candidates := List.length (terminals_of g (keys g)) + (List.length (keys g) - 1) in
  match choose_site r_key r_body r_idx g with
  | Raise e => mutate_alternate r_key r_body r_idx r_alt g = Raise e
  | Ok (_, _, _, x) =>
      (x = "start" -> mutate_alternate r_key r_body r_idx r_alt g = Raise ValueError) /\
      (x <> "start" -> candidates = 1 ->
       mutate_alternate r_key r_body r_idx r_alt g = Raise IndexError) /\
      (x <> "start" -> 2 <= candidates ->
       exists g', mutate_alternate r_key r_body r_idx r_alt g = Ok g')
  end.
Proof.
  intros Hwf candidates.
  destruct (choose_site r_key r_body r_idx g) as [[[[k bi] i] x] | e] eqn:Hsite.
  - exact (mutate_alternate_at_site r_key r_body r_idx r_alt g k bi i x Hwf Hsite).
  - apply mutate_alternate_raises. exact Hsite.
Qed.

End OperatorOutcomes.

(** ** Rules and bodies only accumulate *)

Lemma keys_map_app (f : Rule -> Rule) (rs extra : list Rule) :
  (forall r, start (f r) = start r) ->
  keys (mkGrammar (map f rs ++ extra)) = (map start rs ++ map start extra)%list.
Proof.
  intros Hf. unfold keys. cbn [rules]. rewrite map_app, map_map.
  f_equal. apply map_ext. exact Hf.
Qed.

(** The rule of a given name after a rule-by-rule rewriting that keeps
    the names. *)
Lemma find_map_app (f : Rule -> Rule) (rs extra : list Rule) (k : string) (r : Rule) :
  (forall r, start (f r) = start r) ->
  find (fun r => String.eqb (start r) k) rs = Some r ->
  find (fun r => String.eqb (start r) k) (map f rs ++ extra) = Some (f r).
Proof.
  intros Hf. induction rs as [| a rs IH]; cbn [find map app]; intros H; [discriminate H |].
  rewrite Hf. destruct (String.eqb (start a) k).
  - injection H as ->. reflexivity.
  - apply IH. exact H.
Qed.

Lemma body_count_map_app (f : Rule -> Rule) (g : Grammar) (extra : list Rule) (k : string) :
  (forall r, start (f r) = start r) ->
  In k (keys g) ->
  exists r, In r (rules g) /\ start r = k /\
    body_count g k = List.length (bodies r) /\
    body_count (mkGrammar (map f (rules g) ++ extra)) k = List.length (bodies (f r)).
Proof.
  intros Hf Hk. unfold body_count. cbn [rules].
  destruct (find (fun r => String.eqb (start r) k) (rules g)) as [r |] eqn:E.
  - rewrite (find_map_app f (rules g) extra k r Hf E).
    apply find_some in E. destruct E as [Hin Heq]. apply String.eqb_eq in Heq.
    exists r. repeat split; assumption.
  - exfalso. unfold keys in Hk. apply in_map_iff in Hk. destruct Hk as [r [Hr Hin]].
    apply (find_none _ _ E) in Hin. rewrite Hr, String.eqb_refl in Hin. discriminate Hin.
Qed.

Lemma length_set_nth {A : Type} (i : nat) (x : A) (l : list A) :
  i < List.length l -> List.length (set_nth i x l) = List.length l.
Proof.
  intros Hi. unfold set_nth. rewrite length_app. cbn [List.length].
  rewrite length_firstn, length_skipn. lia.
Qed.

Section Accumulate.

Context {util : Util}.

(** [mutate_bubble] has no way to fail on a well-formed grammar. *)
Lemma mutate_bubble_returns (r : nat) (g : Grammar) :
  wf_grammar g -> exists g', mutate_bubble r g = Ok g'.
Proof.
  intros Hwf. destruct (all_sequences g) as [| s0 ss] eqn:E.
  - exists g. exact (mutate_bubble_copies r g Hwf E).
  - destruct (mutate_bubble_replaces r g Hwf) as [sub [_ Heq]]; [rewrite E; discriminate |].
    eexists. exact Heq.
Qed.

Lemma mutate_bubble_keys (r : nat) (g g' : Grammar) :
  wf_grammar g -> mutate_bubble r g = Ok g' ->
  keys g' = keys g \/
  exists name, ~ In name (keys g) /\ keys g' = (keys g ++ [name])%list.
Proof.
  intros Hwf H. destruct (all_sequences g) as [| s0 ss] eqn:E.
  - rewrite (mutate_bubble_copies r g Hwf E) in H. injection H as <-. left. reflexivity.
  - destruct (mutate_bubble_replaces r g Hwf) as [sub [_ Heq]]; [rewrite E; discriminate |].
    rewrite Heq in H. injection H as <-. right.
    exists (new_nonterminal (keys g)). split; [apply new_nonterminal_fresh |].
    rewrite keys_map_app; reflexivity.
Qed.

Lemma mutate_coalesce_keys (r_num : nat) (r_sample : nat -> nat) (g g' : Grammar) :
  wf_grammar g -> mutate_coalesce r_num r_sample g = Ok g' ->
  exists name, ~ In name (keys g) /\ keys g' = (keys g ++ [name])%list.
Proof.
  intros Hwf H.
  destruct (non_start_keys g Hwf) as [nts [Hnts [_ [_ Hiff]]]].
  destruct (random_choice r_num (range 2 (min 6 (List.length nts)))) as [k | e] eqn:Hk.
  - rewrite (mutate_coalesce_value r_num r_sample g nts k Hwf Hnts Hk) in H.
    injection H as <-. exists (new_nonterminal nts).
    split; [exact (fresh_for_keys g nts Hiff) |].
    rewrite keys_map_app; reflexivity.
  - exfalso. destruct (wf_entry_symbol g Hwf) as [entry Hentry].
    unfold mutate_coalesce in H. rewrite Hentry in H. cbn [bind] in H.
    rewrite Hnts in H. cbn [bind] in H. rewrite Hk in H. discriminate H.
Qed.

Lemma mutate_alternate_keys (r_key r_body r_idx r_alt : nat) (g g' : Grammar) :
  mutate_alternate r_key r_body r_idx r_alt g = Ok g' -> keys g' = keys g.
Proof.
  intros H. destruct (mutate_alternate_value _ _ _ _ g g' H) as [k [new_body ->]].
  unfold update_rule, keys. cbn [rules]. rewrite map_map. apply map_ext.
  intros r. destruct (String.eqb (start r) k); reflexivity.
Qed.

Lemma mutate_repeat_keys (r_key r_body r_idx : nat) (g g' : Grammar) :
  wf_grammar g -> mutate_repeat r_key r_body r_idx g = Ok g' ->
  exists name, ~ In name (keys g) /\ keys g' = (keys g ++ [name])%list.
Proof.
  intros Hwf H.
  destruct (mutate_repeat_ok_site _ _ _ _ _ H) as [[[[k bi] i] x] Hsite].
  destruct (mutate_repeat_at_site _ _ _ g k bi i x Hwf Hsite)
    as [R [rule [body [HR [_ [_ [_ [_ [_ Heq]]]]]]]]].
  rewrite Heq in H. injection H as <-. exists R. split; [exact HR |].
  rewrite keys_map_app; [reflexivity |].
  intros r. destruct (String.eqb (start r) k) eqn:E; [| reflexivity].
  apply String.eqb_eq in E. symmetry. exact E.
Qed.

(** X19: [mutate_bubble] cannot fail on a well-formed grammar: reading the
    entry symbol, the draw among the subsequences and the rebuilding all
    succeed, and the result is well formed again. *)
Theorem mutate_bubble_total (r : nat) (g : Grammar) :
  wf_grammar g -> exists g', mutate_bubble r g = Ok g' /\ wf_grammar g'.
Proof.
  intros Hwf. destruct (mutate_bubble_returns r g Hwf) as [g' Hg'].
  exists g'. split; [exact Hg' |]. exact (mutate_bubble_wf r g g' Hwf Hg').
Qed.

(** X20: no operator removes, renames or reorders a rule. The rule names
    of the result are those of the input, in the same order, followed by
    one new name for [mutate_coalesce] and [mutate_repeat], by at most one
    for [mutate_bubble] and by none for [mutate_alternate]. *)
Theorem operators_keep_rule_names (g g' : Grammar) :
  wf_grammar g ->
  (forall r, mutate_bubble r g = Ok g' ->
     keys g' = keys g \/
     exists name, ~ In name (keys g) /\ keys g' = (keys g ++ [name])%list) /\
  (forall r_num r_sample, mutate_coalesce r_num r_sample g = Ok g' ->
     exists name, ~ In name (keys g) /\ keys g' = (keys g ++ [name])%list) /\
  (forall r_key r_body r_idx r_alt,
     mutate_alternate r_key r_body r_idx r_alt g = Ok g' -> keys g' = keys g) /\
  (forall r_key r_body r_idx, mutate_repeat r_key r_body r_idx g = Ok g' ->
     exists name, ~ In name (keys g) /\ keys g' = (keys g ++ [name])%list).
Proof.
  intros Hwf. split; [| split; [| split]].
  - intros r H. exact (mutate_bubble_keys r g g' Hwf H).
  - intros r_num r_sample H. exact (mutate_coalesce_keys r_num r_sample g g' Hwf H).
  - intros r_key r_body r_idx r_alt H. exact (mutate_alternate_keys _ _ _ _ g g' H).
  - intros r_key r_body r_idx H. exact (mutate_repeat_keys _ _ _ g g' Hwf H).
Qed.

(** X21: no operator removes a body. For every rule of the input, the
    rule of that name in the result has as many bodies after
    [mutate_bubble], [mutate_coalesce] and [mutate_repeat], and as many or
    one more after [mutate_alternate]. *)
Theorem operators_keep_bodies (g g' : Grammar) (name : string) :
  wf_grammar g -> In name (keys g) ->
  (forall r, mutate_bubble r g = Ok g' -> body_count g' name = body_count g name) /\
  (forall r_num r_sample, mutate_coalesce r_num r_sample g = Ok g' ->
     body_count g' name = body_count g name) /\
  (forall r_key r_body r_idx r_alt,
     mutate_alternate r_key r_body r_idx r_alt g = Ok g' ->
     body_count g name <= body_count g' name <= S (body_count g name)) /\
  (forall r_key r_body r_idx, mutate_repeat r_key r_body r_idx g = Ok g' ->
     body_count g' name = body_count g name).
Proof.
  intros Hwf Hname. pose proof Hwf as [Hnd _]. split; [| split; [| split]].
  - intros r H. destruct (all_sequences g) as [| s0 ss] eqn:E.
    + rewrite (mutate_bubble_copies r g Hwf E) in H. injection H as <-. reflexivity.
    + destruct (mutate_bubble_replaces r g Hwf) as [sub [_ Heq]];
        [rewrite E; discriminate |].
      rewrite Heq in H. injection H as <-.
      destruct (body_count_map_app
                  (fun rule => mkRule (start rule)
                     (map (fun body => replace_all body sub (new_nonterminal (keys g)))
                          (bodies rule)))
                  g [mkRule (new_nonterminal (keys g)) [sub]] name)
        as [r0 [_ [_ [H1 H2]]]]; [reflexivity | exact Hname |].
      rewrite H1, H2. cbn [bodies]. apply length_map.
  - intros r_num r_sample H.
    destruct (non_start_keys g Hwf) as [nts [Hnts _]].
    destruct (random_choice r_num (range 2 (min 6 (List.length nts)))) as [k | e] eqn:Hk.
    + rewrite (mutate_coalesce_value r_num r_sample g nts k Hwf Hnts Hk) in H.
      injection H as <-.
      destruct (body_count_map_app
                  (fun rule => mkRule (start rule)
                     (map (map (fun e => if mem e (random_sample r_sample k nts)
                                         then new_nonterminal nts else e))
                          (bodies rule)))
                  g [mkRule (new_nonterminal nts)
                       (flat_map (bodies_of g) (random_sample r_sample k nts))] name)
        as [r0 [_ [_ [H1 H2]]]]; [reflexivity | exact Hname |].
      rewrite H1, H2. cbn [bodies]. apply length_map.
    + exfalso. destruct (wf_entry_symbol g Hwf) as [entry Hentry].
      unfold mutate_coalesce in H. rewrite Hentry in H. cbn [bind] in H.
      rewrite Hnts in H. cbn [bind] in H. rewrite Hk in H. discriminate H.
  - intros r_key r_body r_idx r_alt H.
    destruct (mutate_alternate_value _ _ _ _ g g' H) as [k [new_body ->]].
    unfold update_rule. rewrite <- (app_nil_r (map _ (rules g))).
    destruct (body_count_map_app
                (fun r => if String.eqb (start r) k then add_body new_body r else r)
                g [] name) as [r0 [_ [_ [H1 H2]]]]; [| exact Hname |].
    + intros r. destruct (String.eqb (start r) k); reflexivity.
    + rewrite H1, H2. destruct (String.eqb (start r0) k).
      * cbn [add_body bodies]. rewrite length_app. cbn [List.length]. lia.
      * lia.
  - intros r_key r_body r_idx H.
    destruct (mutate_repeat_ok_site _ _ _ _ _ H) as [[[[k bi] i] x] Hsite].
    destruct (mutate_repeat_at_site _ _ _ g k bi i x Hwf Hsite)
      as [R [rule [body [_ [Hin [Hstart [_ [Hbody [_ Heq]]]]]]]]].
    rewrite Heq in H. injection H as <-.
    destruct (body_count_map_app
                (fun r => if String.eqb (start r) k
                          then mkRule k (set_nth bi (set_nth i R body) (bodies r))
                          else r)
                g [mkRule R [[x]; [x; R]]] name) as [r0 [Hr0 [Hs0 [H1 H2]]]];
      [| exact Hname |].
    + intros r. destruct (String.eqb (start r) k) eqn:E; [| reflexivity].
      apply String.eqb_eq in E. symmetry. exact E.
    + rewrite H1, H2. destruct (String.eqb (start r0) k) eqn:E; [| reflexivity].
      apply String.eqb_eq in E. cbn [bodies].
      assert (r0 = rule) by (apply (find_unique g rule Hnd Hin r0 Hr0); congruence).
      subst r0. apply length_set_nth.
      apply nth_error_Some. rewrite Hbody. discriminate.
Qed.

End Accumulate.

Section AccumulateSearch.

Context {engine : Engine} {util : Util} {pyset : PySet}.

Variable tape : nat -> nat.

Lemma cascade_keys (n : nat) (g g' : Grammar) (i j : nat) :
  wf_grammar g -> cascade tape n g i = Ok (g', j) ->
  exists extra, keys g' = (keys g ++ extra)%list /\ List.length extra <= n.
Proof.
  revert g i. induction n as [| n IH]; intros g i Hwf H.
  - apply ret_ok in H. destruct H as [-> _]. exists []. rewrite app_nil_r.
    split; [reflexivity | apply Nat.le_refl].
  - cbn [cascade] in H.
    apply bindR_ok in H. destruct H as [f [i1 [Hf H]]].
    apply bindR_ok in H. destruct H as [g1 [i2 [Hg1 H]]].
    unfold choose in Hf. apply lift_ok in Hf. destruct Hf as [Hf _].
    apply random_choice_in in Hf.
    assert (Hstep : wf_grammar g1 /\
                    exists extra, keys g1 = (keys g ++ extra)%list /\ List.length extra <= 1).
    { destruct Hf as [<- | [<- | [<- | [<- | []]]]];
        apply lift_ok in Hg1; destruct Hg1 as [Hg1 _].
      - split; [exact (mutate_bubble_wf _ _ _ Hwf Hg1) |].
        destruct (mutate_bubble_keys _ _ _ Hwf Hg1) as [E | [name [_ E]]].
        + exists []. rewrite app_nil_r. split; [exact E | simpl; lia].
        + exists [name]. split; [exact E | simpl; lia].
      - split; [exact (mutate_coalesce_wf _ _ _ _ Hwf Hg1) |].
        destruct (mutate_coalesce_keys _ _ _ _ Hwf Hg1) as [name [_ E]].
        exists [name]. split; [exact E | simpl; lia].
      - split; [exact (mutate_alternate_wf _ _ _ _ _ _ Hwf Hg1) |].
        exists []. rewrite app_nil_r.
        split; [exact (mutate_alternate_keys _ _ _ _ _ _ Hg1) | simpl; lia].
      - split; [exact (mutate_repeat_wf _ _ _ _ _ Hwf Hg1) |].
        destruct (mutate_repeat_keys _ _ _ _ _ Hwf Hg1) as [name [_ E]].
        exists [name]. split; [exact E | simpl; lia]. }
    destruct Hstep as [Hwf1 [extra1 [E1 L1]]].
    destruct (IH g1 i2 Hwf1 H) as [extra2 [E2 L2]].
    exists (extra1 ++ extra2)%list. split.
    + rewrite E2, E1, app_assoc. reflexivity.
    + rewrite length_app. lia.
Qed.

(** X22: a cascade of [n] mutations returns a well-formed grammar that
    still has every rule name of its input, in the same order, followed by
    at most [n] new names. *)
Theorem cascade_keeps_rule_names (n : nat) (g g' : Grammar) (i j : nat) :
  wf_grammar g -> cascade tape n g i = Ok (g', j) ->
  wf_grammar g' /\
  exists extra, keys g' = (keys g ++ extra)%list /\ List.length extra <= n.
Proof.
  intros Hwf H. split.
  - exact (cascade_wf tape n g g' i j Hwf H).
  - exact (cascade_keys n g g' i j Hwf H).
Qed.

End AccumulateSearch.

(** ** The seed's rules stay in every grammar of the population *)

Section SeedRules.

Context {engine : Engine} {util : Util} {pyset : PySet}.

Variable tape : nat -> nat.
Variable scorer : Scorer.

(** [fuzz_one], with the cascade that made the mutant it admits. *)
Lemma fuzz_one_cascade (parent : Grammar) (st st' : SearchState) (i j : nat) :
  fuzz_one tape scorer parent st i = Ok (st', j) ->
  st' = mkState (population st) (minimum_score st) (cur_gram_id st + 1) \/
  exists num mutant s i2 i3,
    In num [1; 2; 4; 8; 16] /\
    cascade tape num parent i2 = Ok (mutant, i3) /\
    (minimum_score st < s)%Q /\
    add_to_population mutant s (cur_gram_id st + 1)
      (mkState (population st) (minimum_score st) (cur_gram_id st + 1)) = Ok st'.
Proof.
  intros Hrun. unfold fuzz_one in Hrun.
  apply bindR_ok in Hrun. destruct Hrun as [num [i1 [Hnum Hrun]]].
  apply bindR_ok in Hrun. destruct Hrun as [before_score [i2 [_ Hrun]]].
  apply bindR_ok in Hrun. destruct Hrun as [mutant [i3 [Hcascade Hrun]]].
  apply bindR_ok in Hrun. destruct Hrun as [mutant_score [i4 [_ Hrun]]].
  cbn [minimum_score cur_gram_id population] in Hrun.
  destruct (Qgtb mutant_score (minimum_score st)) eqn:Hgt.
  - apply lift_ok in Hrun. destruct Hrun as [Hadd _].
    right. exists num, mutant, mutant_score, i2, i3.
    split; [| split; [exact Hcascade | split; [apply Qgtb_true; exact Hgt | exact Hadd]]].
    unfold choose in Hnum. apply lift_ok in Hnum. destruct Hnum as [Hnum _].
    apply (random_choice_in _ _ _ Hnum).
  - apply ret_ok in Hrun. destruct Hrun as [-> _]. left. reflexivity.
Qed.

Variable seed : Grammar.

Lemma generation_seed_rules (st st' : SearchState) (i j : nat) :
  Forall (fun e => wf_grammar (entry_grammar e) /\ entry_id e <= cur_gram_id st /\
            exists extra, keys (entry_grammar e) = (keys seed ++ extra)%list /\
                          List.length extra <= 16 * entry_id e)
         (population st) ->
  generation tape scorer st i = Ok (st', j) ->
  Forall (fun e => wf_grammar (entry_grammar e) /\ entry_id e <= cur_gram_id st' /\
            exists extra, keys (entry_grammar e) = (keys seed ++ extra)%list /\
                          List.length extra <= 16 * entry_id e)
         (population st').
Proof.
  intros Hall Hgen.
  destruct (generation_shape tape scorer st st' i j Hgen) as [parent [i1 [j1 [Hparent Hfuzz]]]].
  assert (Hold : Forall (fun e => wf_grammar (entry_grammar e) /\
                           entry_id e <= cur_gram_id st + 1 /\
                           exists extra, keys (entry_grammar e) = (keys seed ++ extra)%list /\
                                         List.length extra <= 16 * entry_id e)
                        (population st)).
  { eapply Forall_impl; [| exact Hall]. intros e [H1 [H2 H3]].
    split; [exact H1 |]. split; [lia | exact H3]. }
  destruct (fuzz_one_cascade (entry_grammar parent) st st' i1 j1 Hfuzz)
    as [-> | [num [mutant [s [i2 [i3 [Hnum [Hcascade [Hgt Hadd]]]]]]]]].
  { cbn [population cur_gram_id]. exact Hold. }
  rewrite Forall_forall in Hall. destruct (Hall parent Hparent) as [Hwf [Hid [extra [E L]]]].
  destruct (cascade_keys tape num _ mutant i2 i3 Hwf Hcascade) as [extra2 [E2 L2]].
  pose proof (cascade_wf tape num _ mutant i2 i3 Hwf Hcascade) as Hwfm.
  assert (Hnum16 : num <= 16).
  { destruct Hnum as [<- | [<- | [<- | [<- | [<- | []]]]]]; lia. }
  destruct (add_to_population_value mutant s (cur_gram_id st + 1)
              (mkState (population st) (minimum_score st) (cur_gram_id st + 1)) Hgt)
    as [f [r [Hskip Heq]]].
  rewrite Heq in Hadd. injection Hadd as <-. cbn [population cur_gram_id] in *.
  unfold Entry in *. rewrite <- Hskip.
  apply Forall_skipn. apply Forall_list_insert; [| exact Hold].
  cbn [entry_grammar entry_id fst snd].
  split; [exact Hwfm |]. split; [apply Nat.le_refl |].
  exists (extra ++ extra2)%list. split.
  - rewrite E2, E, app_assoc. reflexivity.
  - rewrite length_app. lia.
Qed.

Lemma generations_seed_rules (n : nat) (st st' : SearchState) (i j : nat) :
  Forall (fun e => wf_grammar (entry_grammar e) /\ entry_id e <= cur_gram_id st /\
            exists extra, keys (entry_grammar e) = (keys seed ++ extra)%list /\
                          List.length extra <= 16 * entry_id e)
         (population st) ->
  generations tape scorer n st i = Ok (st', j) ->
  Forall (fun e => wf_grammar (entry_grammar e) /\ entry_id e <= cur_gram_id st' /\
            exists extra, keys (entry_grammar e) = (keys seed ++ extra)%list /\
                          List.length extra <= 16 * entry_id e)
         (population st').
Proof.
  revert st i. induction n as [| n IH]; intros st i Hall Hrun.
  - apply ret_ok in Hrun. destruct Hrun as [-> _]. exact Hall.
  - cbn [generations] in Hrun.
    apply bindR_ok in Hrun. destruct Hrun as [st1 [i1 [Hgen Hrun]]].
    apply (IH st1 i1); [| exact Hrun]. exact (generation_seed_rules st st1 i i1 Hall Hgen).
Qed.

End SeedRules.

Section SeedRulesSearch.

Context {engine : Engine} {util : Util} {pyset : PySet}.

(** X23: the search never loses a rule of the seed. Every grammar of the
    population has the rule names of [init_grammar(guides)] first, in the
    seed's order, followed by at most 16 new names per generation elapsed
    when it was made (its id). *)
Theorem population_keeps_seed_rules (tape : nat -> nat) (n : nat)
  (guides pos neg : list string) (i j : nat) (st : SearchState) (seed : Grammar) :
  init_grammar guides = Ok seed ->
  search_loop tape n guides pos neg i = Ok (st, j) ->
  Forall (fun e => exists extra,
            keys (entry_grammar e) = (keys seed ++ extra)%list /\
            List.length extra <= 16 * entry_id e)
         (population st).
Proof.
  intros Hseed H. unfold search_loop in H.
  apply bindR_ok in H. destruct H as [st0 [i0 [Hinit H]]].
  apply lift_ok in Hinit. destruct Hinit as [Hinit _].
  unfold initial_state in Hinit. rewrite Hseed in Hinit. cbn [bind] in Hinit.
  apply bind_ok in Hinit. destruct Hinit as [m [_ Hinit]]. injection Hinit as <-.
  pose proof (generations_seed_rules tape (mkScorer pos neg) seed n
                (mkState [(seed, 0, m)] m 0) st i0 j) as Hgen.
  eapply Forall_impl; [| apply Hgen; [| exact H]].
  - intros e [_ [_ He]]. exact He.
  - cbn [population cur_gram_id]. constructor; [| constructor].
    cbn [entry_grammar entry_id fst snd].
    split; [exact (init_grammar_wf guides seed Hseed) |]. split; [apply Nat.le_refl |].
    exists []. rewrite app_nil_r. split; [reflexivity | simpl; lia].
Qed.

End SeedRulesSearch.

(** ** What a generation can raise *)

Lemma bindR_raise {A B : Type} (c : Rand A) (k : A -> Rand B) (i : nat) (e : exn) :
  bindR c k i = Raise e ->
  c i = Raise e \/ exists a i', c i = Ok (a, i') /\ k a i' = Raise e.
Proof.
  unfold bindR. destruct (c i) as [[a i'] | e']; intros H.
  - right. exists a, i'. split; [reflexivity | exact H].
  - left. injection H as ->. reflexivity.
Qed.

Lemma lift_raise {A : Type} (c : result A) (i : nat) (e : exn) :
  lift c i = Raise e -> c = Raise e.
Proof.
  unfold lift. destruct c; intros H; [discriminate H |]. injection H as ->. reflexivity.
Qed.

Section Failures.

Context {engine : Engine} {util : Util} {pyset : PySet}.

(** [mutate_coalesce] fails in one way only. *)
Lemma mutate_coalesce_raises (r_num : nat) (r_sample : nat -> nat) (g : Grammar) (e : exn) :
  wf_grammar g -> mutate_coalesce r_num r_sample g = Raise e -> e = IndexError.
Proof.
  intros Hwf H.
  destruct (non_start_keys g Hwf) as [nts [Hnts _]].
  destruct (random_choice r_num (range 2 (min 6 (List.length nts)))) as [k | e'] eqn:Hk.
  - rewrite (mutate_coalesce_value r_num r_sample g nts k Hwf Hnts Hk) in H. discriminate H.
  - destruct (wf_entry_symbol g Hwf) as [entry Hentry].
    unfold mutate_coalesce in H. rewrite Hentry in H. cbn [bind] in H.
    rewrite Hnts in H. cbn [bind] in H. rewrite Hk in H. cbn [bind] in H.
    unfold random_choice in Hk.
    destruct (range 2 (min 6 (List.length nts))); [| discriminate Hk].
    congruence.
Qed.

Lemma choose_site_raises (r_key r_body r_idx : nat) (g : Grammar) (e : exn) :
  wf_grammar g -> choose_site r_key r_body r_idx g = Raise e ->
  e = IndexError \/ e = ZeroDivisionError.
Proof.
  intros Hwf H.
  destruct (choose_site_cases r_key r_body r_idx g Hwf)
    as [[site Hsite] | [[Hraise _] | [[Hraise _] | [Hraise _]]]];
    rewrite H in *; try discriminate; injection Hraise as ->; auto.
Qed.

Lemma mutate_repeat_raises_only (r_key r_body r_idx : nat) (g : Grammar) (e : exn) :
  wf_grammar g -> mutate_repeat r_key r_body r_idx g = Raise e ->
  e = IndexError \/ e = ZeroDivisionError.
Proof.
  intros Hwf H.
  destruct (choose_site r_key r_body r_idx g) as [[[[k bi] i] x] | e'] eqn:Hsite.
  - destruct (mutate_repeat_at_site _ _ _ g k bi i x Hwf Hsite)
      as [R [rule [body [_ [_ [_ [_ [_ [_ Heq]]]]]]]]].
    rewrite Heq in H. discriminate H.
  - rewrite (mutate_repeat_raises _ _ _ g e' Hwf Hsite) in H. injection H as <-.
    exact (choose_site_raises _ _ _ g e' Hwf Hsite).
Qed.

Lemma mutate_alternate_raises_only (r_key r_body r_idx r_alt : nat) (g : Grammar) (e : exn) :
  wf_grammar g -> mutate_alternate r_key r_body r_idx r_alt g = Raise e ->
  e = IndexError \/ e = ZeroDivisionError \/ e = ValueError.
Proof.
  intros Hwf H.
  destruct (choose_site r_key r_body r_idx g) as [[[[k bi] i] x] | e'] eqn:Hsite.
  - destruct (mutate_alternate_at_site r_key r_body r_idx r_alt g k bi i x Hwf Hsite)
      as [H1 [H2 H3]].
    destruct (string_dec x "start") as [Hx | Hx].
    + rewrite (H1 Hx) in H. injection H as <-. right. right. reflexivity.
    + destruct (le_lt_dec 2 (List.length (terminals_of g (keys g))
                             + (List.length (keys g) - 1))) as [Htwo | Hone].
      * destruct (H3 Hx Htwo) as [g' Hg']. rewrite Hg' in H. discriminate H.
      * assert (Hpos : List.length (keys g) - 1 <> 0).
        { destruct (non_start_keys g Hwf) as [nts [Hnts [Hlen [_ Hiff]]]].
          pose proof Hwf as [Hnd _].
          destruct (choose_site_ok _ _ _ _ _ _ _ _ Hnd Hsite)
            as [nts' [_ [_ [Hnts' [Hk _]]]]].
          assert (nts' = nts) by congruence. subst nts'.
          apply weighted_choice_in in Hk. destruct Hk as [Hk _].
          rewrite <- Hlen. destruct nts; [contradiction | discriminate]. }
        rewrite H2 in H; [injection H as <-; left; reflexivity | exact Hx |].
        unfold Symbol in *. lia.
  - rewrite (mutate_alternate_raises _ _ _ r_alt g e' Hsite) in H. injection H as <-.
    destruct (choose_site_raises _ _ _ g e' Hwf Hsite) as [-> | ->]; auto.
Qed.

Variable tape : nat -> nat.

Lemma choose_returns {A : Type} (l : list A) (i : nat) :
  l <> [] -> exists a, choose tape l i = Ok (a, S i) /\ In a l.
Proof.
  intros Hl. unfold choose, lift.
  destruct (random_choice_total (tape i) l Hl) as [a Ha].
  rewrite Ha. exists a. split; [reflexivity | exact (random_choice_in _ _ _ Ha)].
Qed.

Lemma cascade_raises (n : nat) (g : Grammar) (i : nat) (e : exn) :
  wf_grammar g -> cascade tape n g i = Raise e ->
  e = IndexError \/ e = ZeroDivisionError \/ e = ValueError.
Proof.
  revert g i. induction n as [| n IH]; intros g i Hwf H; [discriminate H |].
  cbn [cascade] in H.
  destruct (choose_returns [bubble tape; coalesce tape; alternate tape; repeat_ tape] i)
    as [f [Hf Hin]]; [discriminate |].
  unfold bindR at 1 in H. rewrite Hf in H.
  apply bindR_raise in H. destruct H as [H | [g1 [i2 [Hg1 H]]]].
  - destruct Hin as [<- | [<- | [<- | [<- | []]]]]; apply lift_raise in H.
    + destruct (mutate_bubble_returns (tape (S i)) g Hwf) as [g' Hg'].
      rewrite Hg' in H. discriminate H.
    + left. exact (mutate_coalesce_raises _ _ g e Hwf H).
    + exact (mutate_alternate_raises_only _ _ _ _ g e Hwf H).
    + destruct (mutate_repeat_raises_only _ _ _ g e Hwf H) as [-> | ->]; auto.
  - apply (IH g1 i2); [| exact H].
    destruct Hin as [<- | [<- | [<- | [<- | []]]]];
      apply lift_ok in Hg1; destruct Hg1 as [Hg1 _].
    + exact (mutate_bubble_wf _ _ _ Hwf Hg1).
    + exact (mutate_coalesce_wf _ _ _ _ Hwf Hg1).
    + exact (mutate_alternate_wf _ _ _ _ _ _ Hwf Hg1).
    + exact (mutate_repeat_wf _ _ _ _ _ Hwf Hg1).
Qed.

(** X24: what the mutation operators raise on a well-formed grammar.
    [mutate_bubble] returns whatever the draw; [mutate_coalesce] raises
    nothing but [IndexError]; [mutate_repeat] nothing but [IndexError] and
    [ZeroDivisionError]; [mutate_alternate] nothing but those two and
    [ValueError]; and so a cascade of mutations raises nothing but these
    three: no lookup [rules[...]] in an operator misses its key. *)
Theorem cascade_failures (n : nat) (g : Grammar) (i : nat) :
  wf_grammar g ->
  (forall r, exists g', mutate_bubble r g = Ok g') /\
  (forall r_num r_sample e,
     mutate_coalesce r_num r_sample g = Raise e -> e = IndexError) /\
  (forall r_key r_body r_idx e,
     mutate_repeat r_key r_body r_idx g = Raise e ->
     e = IndexError \/ e = ZeroDivisionError) /\
  (forall r_key r_body r_idx r_alt e,
     mutate_alternate r_key r_body r_idx r_alt g = Raise e ->
     e = IndexError \/ e = ZeroDivisionError \/ e = ValueError) /\
  (forall e,
     cascade tape n g i = Raise e ->
     e = IndexError \/ e = ZeroDivisionError \/ e = ValueError).
Proof.
  intros Hwf. split; [| split; [| split; [| split]]].
  - intros r. exact (mutate_bubble_returns r g Hwf).
  - intros r_num r_sample e. exact (mutate_coalesce_raises r_num r_sample g e Hwf).
  - intros r_key r_body r_idx e. exact (mutate_repeat_raises_only r_key r_body r_idx g e Hwf).
  - intros r_key r_body r_idx r_alt e.
    exact (mutate_alternate_raises_only r_key r_body r_idx r_alt g e Hwf).
  - intros e. exact (cascade_raises n g i e Hwf).
Qed.

Variable scorer : Scorer.

(** The stored score of every entry is the score of its grammar. *)
Lemma generation_scored (st st' : SearchState) (i j : nat) :
  Forall (fun e => score scorer (entry_grammar e) = Ok (entry_score e)) (population st) ->
  generation tape scorer st i = Ok (st', j) ->
  Forall (fun e => score scorer (entry_grammar e) = Ok (entry_score e)) (population st').
Proof.
  intros Hall Hgen.
  destruct (generation_shape tape scorer st st' i j Hgen) as [parent [i1 [j1 [_ Hfuzz]]]].
  destruct (fuzz_one_shape tape scorer (entry_grammar parent) st st' i1 j1 Hfuzz)
    as [-> | [mutant [s [Hs [Hgt Hadd]]]]]; [exact Hall |].
  destruct (add_to_population_value mutant s (cur_gram_id st + 1)
              (mkState (population st) (minimum_score st) (cur_gram_id st + 1)) Hgt)
    as [f [r [Hskip Heq]]].
  rewrite Heq in Hadd. injection Hadd as <-. cbn [population] in *.
  unfold Entry in *. rewrite <- Hskip.
  apply Forall_skipn. apply Forall_list_insert; [exact Hs | exact Hall].
Qed.

Lemma generations_scored (n : nat) (st st' : SearchState) (i j : nat) :
  Forall (fun e => score scorer (entry_grammar e) = Ok (entry_score e)) (population st) ->
  generations tape scorer n st i = Ok (st', j) ->
  Forall (fun e => score scorer (entry_grammar e) = Ok (entry_score e)) (population st').
Proof.
  revert st i. induction n as [| n IH]; intros st i Hall Hrun.
  - apply ret_ok in Hrun. destruct Hrun as [-> _]. exact Hall.
  - cbn [generations] in Hrun.
    apply bindR_ok in Hrun. destruct Hrun as [st1 [i1 [Hgen Hrun]]].
    apply (IH st1 i1); [| exact Hrun]. exact (generation_scored st st1 i i1 Hall Hgen).
Qed.

(** Where a generation fails, in a state whose population satisfies the
    invariant, holds well-formed grammars and stores their scores: in the
    cascade of mutations, or in the scoring of the mutant, on
    [grammar.parser()]. *)
Lemma generation_raises (st : SearchState) (i : nat) (e : exn) :
  pop_inv st -> pop_wf st ->
  Forall (fun x => score scorer (entry_grammar x) = Ok (entry_score x)) (population st) ->
  generation tape scorer st i = Raise e ->
  exists (parent : Entry) (num : nat),
    choose tape (population st) i = Ok (parent, S i) /\
    In parent (population st) /\
    choose tape [1; 2; 4; 8; 16] (S i) = Ok (num, S (S i)) /\
    score scorer (entry_grammar parent) = Ok (entry_score parent) /\
    ((cascade tape num (entry_grammar parent) (S (S i)) = Raise e /\
      (e = IndexError \/ e = ZeroDivisionError \/ e = ValueError)) \/
     (exists (mutant : Grammar) (k : nat),
        cascade tape num (entry_grammar parent) (S (S i)) = Ok (mutant, k) /\
        Grammar_parser mutant = Raise e /\
        score scorer mutant = Raise e)).
Proof.
  intros Hinv Hwf Hscored H.
  pose proof Hinv as [_ [_ [[first [rest [Hpop _]]] _]]].
  unfold generation in H.
  destruct (choose_returns (population st) i) as [parent [Hparent Hin]];
    [rewrite Hpop; discriminate |].
  destruct (choose_returns [1; 2; 4; 8; 16] (S i)) as [num [Hnum _]]; [discriminate |].
  rewrite Forall_forall in Hscored. pose proof (Hscored parent Hin) as Hps.
  exists parent, num.
  split; [exact Hparent |]. split; [exact Hin |]. split; [exact Hnum |].
  split; [exact Hps |].
  unfold bindR at 1 in H. rewrite Hparent in H.
  apply bindR_raise in H. destruct H as [H | [st1 [i2 [Hfuzz H]]]].
  - unfold fuzz_one in H.
    unfold bindR at 1 in H. rewrite Hnum in H.
    unfold bindR at 1 in H. unfold lift at 1 in H. rewrite Hps in H.
    apply bindR_raise in H. destruct H as [H | [mutant [i3 [Hcascade H]]]].
    + left. split; [exact H |].
      apply (cascade_raises num (entry_grammar parent) (S (S i)) e); [| exact H].
      unfold pop_wf in Hwf. rewrite Forall_forall in Hwf. apply Hwf. exact Hin.
    + right. exists mutant, i3. split; [exact Hcascade |].
      apply bindR_raise in H. destruct H as [H | [s [i4 [Hs H]]]].
      * apply lift_raise in H.
        destruct (Grammar_parser mutant) as [p | e'] eqn:Hp.
        -- exfalso. destruct (score_ok_inv scorer _ _ Hps) as [Hpos [Hneg _]].
           destruct (score_compiled scorer mutant p Hp Hpos Hneg) as [s [Hs _]].
           rewrite Hs in H. discriminate H.
        -- destruct (score_ok_inv scorer _ _ Hps) as [Hpos _].
           pose proof (score_not_compiled scorer mutant e' Hp Hpos) as Hraise.
           rewrite Hraise in H. injection H as <-. split; [reflexivity | exact Hraise].
      * exfalso. apply lift_ok in Hs. destruct Hs as [Hs _].
        cbn [minimum_score cur_gram_id population] in H.
        destruct (Qgtb s (minimum_score st)) eqn:Hgt; [| discriminate H].
        apply lift_raise in H. apply Qgtb_true in Hgt.
        destruct (add_to_population_value mutant s (cur_gram_id st + 1)
                    (mkState (population st) (minimum_score st) (cur_gram_id st + 1)) Hgt)
          as [f [r [_ Heq]]].
        rewrite Heq in H. discriminate H.
  - exfalso.
    assert (Hgen_inv : pop_inv st1).
    { exact (proj1 (fuzz_one_inv tape scorer _ st st1 _ _ Hinv Hfuzz)). }
    destruct Hgen_inv as [_ [_ [[f [r [Hpop1 _]]] _]]].
    apply bindR_raise in H. destruct H as [H | [b [i3 [_ H]]]]; [| discriminate H].
    apply lift_raise in H. unfold best_score in H. rewrite Hpop1 in H.
    destruct (rev (f :: r)) eqn:E; [| discriminate H].
    apply (f_equal (@List.length Entry)) in E. rewrite length_rev in E. discriminate E.
Qed.

End Failures.

Section SearchFailures.

Context {engine : Engine} {util : Util} {pyset : PySet}.

Lemma search_loop_scored (tape : nat -> nat) (n : nat)
  (guides pos neg : list string) (i j : nat) (st : SearchState) :
  search_loop tape n guides pos neg i = Ok (st, j) ->
  Forall (fun e => score (mkScorer pos neg) (entry_grammar e) = Ok (entry_score e))
         (population st).
Proof.
  unfold search_loop. intros H.
  apply bindR_ok in H. destruct H as [st0 [i0 [Hinit H]]].
  apply lift_ok in Hinit. destruct Hinit as [Hinit _].
  apply (generations_scored tape (mkScorer pos neg) n st0 st i0 j); [| exact H].
  unfold initial_state in Hinit.
  apply bind_ok in Hinit. destruct Hinit as [g [_ Hinit]].
  apply bind_ok in Hinit. destruct Hinit as [s [Hs Hinit]]. injection Hinit as <-.
  cbn [population]. constructor; [exact Hs | constructor].
Qed.

Lemma search_loop_wf (tape : nat -> nat) (n : nat)
  (guides pos neg : list string) (i j : nat) (st : SearchState) :
  search_loop tape n guides pos neg i = Ok (st, j) -> pop_wf st.
Proof.
  intros H. unfold search_loop in H.
  apply bindR_ok in H. destruct H as [st0 [i0 [Hinit H]]].
  apply lift_ok in Hinit. destruct Hinit as [Hinit _].
  apply (generations_wf tape (mkScorer pos neg) n st0 st i0 j); [| exact H].
  unfold initial_state in Hinit.
  apply bind_ok in Hinit. destruct Hinit as [g [Hg Hinit]].
  apply bind_ok in Hinit. destruct Hinit as [m [_ Hinit]]. injection Hinit as <-.
  unfold pop_wf. cbn [population]. constructor; [| constructor].
  exact (init_grammar_wf guides g Hg).
Qed.

(** X26: where a generation of the search fails. In a state the search
    has reached, [random.choice(population)] returns a parent and
    [random.choice([1, 2, 4, 8, 16])] a number of mutations, and scoring
    the parent returns its stored score; a generation that raises [e] then
    fails at one of two places. Either the cascade of mutations on the
    parent raises [e], which is [IndexError], [ZeroDivisionError] or
    [ValueError]; or the cascade returns a mutant and scoring it raises
    [e], which is what [grammar.parser()] raises on the mutant. So the
    failure is never that of the assertion of [add_to_population], of its
    [insert], [pop] and [population[0]], or of [population[-1]]. *)
Theorem generation_failures (tape : nat -> nat) (n : nat)
  (guides pos neg : list string) (i j : nat) (st : SearchState) (e : exn) :
  search_loop tape n guides pos neg i = Ok (st, j) ->
  generation tape (mkScorer pos neg) st j = Raise e ->
  exists (parent : Entry) (num : nat),
    choose tape (population st) j = Ok (parent, S j) /\
    In parent (population st) /\
    choose tape [1; 2; 4; 8; 16] (S j) = Ok (num, S (S j)) /\
    score (mkScorer pos neg) (entry_grammar parent) = Ok (entry_score parent) /\
    ((cascade tape num (entry_grammar parent) (S (S j)) = Raise e /\
      (e = IndexError \/ e = ZeroDivisionError \/ e = ValueError)) \/
     (exists (mutant : Grammar) (k : nat),
        cascade tape num (entry_grammar parent) (S (S j)) = Ok (mutant, k) /\
        Grammar_parser mutant = Raise e /\
        score (mkScorer pos neg) mutant = Raise e)).
Proof.
  intros Hrun Hgen.
  apply (generation_raises tape (mkScorer pos neg) st j e); [| | | exact Hgen].
  - exact (search_loop_inv tape n guides pos neg i j st Hrun).
  - exact (search_loop_wf tape n guides pos neg i j st Hrun).
  - exact (search_loop_scored tape n guides pos neg i j st Hrun).
Qed.

End SearchFailures.
(** * Instances and concrete runs *)

(** ** Concrete instances

    The development is parametric in the grammar engine, in the order a
    set is iterated in and in the way fresh names are minted. The
    instances below make it run. *)

Module Instances.

(** The index [n] of a name [t<n>]. *)
Definition t_index (name : string) : option nat :=
  match name with
  | String c rest =>
      if Ascii.eqb c "t"
      then option_map Nat.of_uint (NilEmpty.uint_of_string rest)
      else None
  | EmptyString => None
  end.

Fixpoint max_index (names : list string) : nat :=
  match names with
  | [] => 0
  | name :: rest =>
      match t_index name with
      | Some n => Nat.max n (max_index rest)
      | None => max_index rest
      end
  end.

(** The next unused name of the form [t<n>]. *)
Definition next_name (names : list string) : string :=
  t_name (S (max_index names)).

Lemma t_index_t_name (n : nat) : t_index (t_name n) = Some n.
Proof.
  unfold t_index, t_name. simpl. rewrite NilEmpty.usu. simpl.
  rewrite Unsigned.of_to. reflexivity.
Qed.

Lemma max_index_bound (names : list string) (name : string) (n : nat) :
  In name names -> t_index name = Some n -> n <= max_index names.
Proof.
  induction names as [| x rest IH]; simpl; intros Hin Hn; [contradiction |].
  destruct Hin as [-> | Hin].
  - rewrite Hn. lia.
  - specialize (IH Hin Hn). destruct (t_index x); lia.
Qed.

Lemma next_name_fresh (names : list string) : ~ In (next_name names) names.
Proof.
  intros Hin.
  pose proof (max_index_bound names _ _ Hin (t_index_t_name _)) as H. lia.
Qed.

#[export] Instance util_next_name : Util := {
  new_nonterminal := next_name;
  new_nonterminal_fresh := next_name_fresh;
  new_nonterminal_not_start := fun names => t_name_not_start _
}.

(** A set iterated in the order of first insertion. *)
Definition first_seen (l : list string) : list string :=
  rev (nodup string_dec (rev l)).

Lemma first_seen_perm (l : list string) :
  Permutation (first_seen l) (nodup string_dec l).
Proof.
  unfold first_seen. apply NoDup_Permutation.
  - apply NoDup_rev. apply NoDup_nodup.
  - apply NoDup_nodup.
  - intros x. rewrite <- in_rev, !nodup_In, <- in_rev. reflexivity.
Qed.

#[export] Instance pyset_first_seen : PySet := {
  set_iter := first_seen;
  set_iter_perm := first_seen_perm
}.

(** A symbol wrapped in double quotes is a terminal. *)
Definition is_terminal (s : Symbol) : bool :=
  match s with
  | String c _ => Ascii.eqb c dquote
  | EmptyString => false
  end.

(** The text between the quotes of a terminal. *)
Definition literal (s : Symbol) : string :=
  substring 1 (String.length s - 2) s.

Fixpoint strip_prefix (pre s : string) : option string :=
  match pre, s with
  | EmptyString, _ => Some s
  | String _ _, EmptyString => None
  | String a pre', String b s' =>
      if Ascii.eqb a b then strip_prefix pre' s' else None
  end.

(** The inputs left after a prefix of [input] is derived from [sym], by a
    top-down search that expands at most [fuel] nested nonterminals. *)
Fixpoint derive (fuel : nat) (g : Grammar) (sym : Symbol) (input : string)
  : list string :=
  match fuel with
  | 0 => []
  | S fuel' =>
      if is_terminal sym then
        match strip_prefix (literal sym) input with
        | Some rest => [rest]
        | None => []
        end
      else
        match find (fun r => String.eqb (start r) sym) (rules g) with
        | None => []
        | Some rule =>
            nodup string_dec
              (flat_map
                 (fun body =>
                    fold_left
                      (fun rests s => flat_map (derive fuel' g s) rests)
                      body [input])
                 (bodies rule))
        end
  end.

(** Every symbol of every body is a terminal or names a rule. *)
Definition all_defined (g : Grammar) : bool :=
  forallb
    (fun rule =>
       forallb (forallb (fun s => is_terminal s || mem s (keys g))) (bodies rule))
    (rules g).

(** A small recognizer standing in for Lark: compiling fails on a grammar
    that uses a rule it does not define, parsing fails on an input the
    bounded search does not derive from [start]. *)
#[export] Instance recognizer : Engine := {
  Lark := Grammar;
  Grammar_parser := fun g => if all_defined g then Ok g else Raise GrammarError;
  Lark_parse := fun g input =>
    if mem "" (derive (List.length (rules g) + String.length input + 2) g "start" input)
    then Ok tt else Raise ParseError
}.

(** A tape that repeats [0] after the listed draws. *)
Definition tape_of (draws : list nat) : nat -> nat :=
  fun i => nth i draws 0.

End Instances.


Import Instances.

(** [Grammar('t0')] with no rule for [t0]: the engine refuses to compile it. *)
Definition undefined_entry : Grammar := Grammar_new "t0".

(** The seed grammar for the guide [ab]. *)
Definition seed_ab : Grammar :=
  mkGrammar [mkRule "start" [["t0"]];
             mkRule "t1" [[quoted "a"]];
             mkRule "t2" [[quoted "b"]];
             mkRule "t0" [["t1"; "t2"]]].

Example init_grammar_ab : init_grammar ["ab"] = Ok seed_ab.
Proof. reflexivity. Qed.

(** The seed for the guide [a]: two rules besides [start]. *)
Definition seed_a : Grammar :=
  mkGrammar [mkRule "start" [["t0"]]; mkRule "t1" [[quoted "a"]]; mkRule "t0" [["t1"]]].

Example init_grammar_a : init_grammar ["a"] = Ok seed_a.
Proof. reflexivity. Qed.

Example seed_ab_accepts_ab : parses seed_ab "ab" = Ok true.
Proof. reflexivity. Qed.

Example seed_ab_rejects_ba : parses seed_ab "ba" = Ok false.
Proof. reflexivity. Qed.

Example seed_ab_scores_one : score (mkScorer ["ab"] ["ba"]) seed_ab = Ok 1%Q.
Proof. vm_compute. reflexivity. Qed.

(** ** Scorer *)

(** Witness of C2: the seed for [ab] scored on two positives and one
    negative. *)
Lemma score_formula_witness :
  exists s, score (mkScorer ["ab"; "abb"] ["ba"]) seed_ab = Ok s /\
    (s == rnd (Qmax (rnd (inject_Z (Z.of_nat (@matched recognizer seed_ab ["ab"; "abb"]))
                          / inject_Z (Z.of_nat 2)))
                    (rnd ((1 # 2) / float_of_nat 2))
               * Qmax (rnd (1 - rnd (inject_Z (Z.of_nat (@matched recognizer seed_ab ["ba"]))
                                     / inject_Z (Z.of_nat 1))))
                      (rnd ((1 # 2) / float_of_nat 1))))%Q /\
    (Qabs (s - Qmax (inject_Z (Z.of_nat (@matched recognizer seed_ab ["ab"; "abb"]))
                     / inject_Z (Z.of_nat 2))
                    ((1 # 2) / inject_Z (Z.of_nat 2))
               * Qmax (1 - inject_Z (Z.of_nat (@matched recognizer seed_ab ["ba"]))
                           / inject_Z (Z.of_nat 1))
                      ((1 # 2) / inject_Z (Z.of_nat 1)))
     <= 1 # 2 ^ 51)%Q /\
    (0 < s)%Q /\ (s <= 1)%Q.
Proof.
  apply (@score_formula recognizer (mkScorer ["ab"; "abb"] ["ba"]) seed_ab seed_ab);
    [reflexivity | discriminate | discriminate].
Defined.

Example score_seed_ab_half : score (mkScorer ["ab"; "abb"] ["ba"]) seed_ab = Ok (1 # 2)%Q.
Proof. vm_compute. reflexivity. Qed.

(** Counterexample to C2 as stated. A grammar that does not compile has
    no score at all, although both example sets are non-empty. And a
    grammar that compiles need not score the exact value of the formula:
    the seed for [a] accepts none of the one positive [b] and four of the
    five negatives, the formula is worth 1/2 * 1/5, and the floats give
    [0.5 * (1 - 4/5)], the float 0.09999999999999998, two units in the
    last place below the float nearest to 1/10. *)
Lemma score_formula_counterexample :
  score (mkScorer ["a"] ["b"]) undefined_entry = Raise GrammarError /\
  Grammar_parser seed_a = Ok seed_a /\
  @matched recognizer seed_a ["b"] = 0 /\
  @matched recognizer seed_a ["a"; "a"; "a"; "a"; "b"] = 4 /\
  score (mkScorer ["b"] ["a"; "a"; "a"; "a"; "b"]) seed_a
  = Ok (900719925474099 # 9007199254740992)%Q /\
  ~ ((900719925474099 # 9007199254740992)
     == Qmax (0 / 1) ((1 # 2) / 1) * Qmax (1 - 4 / 5) ((1 # 2) / 5))%Q /\
  rnd (1 # 10) = (3602879701896397 # 36028797018963968)%Q.
Proof.
  split; [reflexivity |]. split; [reflexivity |]. split; [reflexivity |].
  split; [reflexivity |]. split; [vm_compute; reflexivity |].
  split; [| vm_compute; reflexivity].
  vm_compute. intros H. discriminate H.
Qed.

(** Witness of C3: on the seed for [ab] the input [ba] fails to parse. *)
Lemma parse_failure_is_no_match_witness :
  (forall x e, @Lark_parse recognizer seed_ab x = Raise e -> parses seed_ab x = Ok false) /\
  (forall l1 x l2 e, @Lark_parse recognizer seed_ab x = Raise e ->
     count_parsed seed_ab (l1 ++ x :: l2) = Ok (@matched recognizer seed_ab l1 + matched seed_ab l2)) /\
  (forall self, positives self <> [] -> negatives self <> [] ->
     exists s, score self seed_ab = Ok s).
Proof. apply (@parse_failure_is_no_match recognizer seed_ab seed_ab). reflexivity. Defined.

Example parse_ba_fails :
  @Lark_parse recognizer seed_ab "ba" = Raise ParseError /\
  count_parsed seed_ab ["ab"; "ba"; "ab"] = Ok 2.
Proof. split; reflexivity. Qed.

(** Counterexample to C3 as stated: the failure of [grammar.parser()] is
    raised before the [try] is entered and leaves both [parses] and
    [score]. *)
Lemma compile_failure_propagates :
  Grammar_parser undefined_entry = Raise GrammarError /\
  parses undefined_entry "a" = Raise GrammarError /\
  score (mkScorer ["a"; "b"] ["c"]) undefined_entry = Raise GrammarError.
Proof. repeat split; reflexivity. Qed.

(** Witness of C10: the seed for [ab] scored with one of the two example
    sets empty. *)
Lemma score_needs_examples_witness :
  score (mkScorer [] ["ba"]) seed_ab = Raise ZeroDivisionError /\
  score (mkScorer ["ab"] []) seed_ab = Raise ZeroDivisionError.
Proof.
  split.
  - apply (proj1 (score_needs_examples (mkScorer [] ["ba"]) seed_ab)). reflexivity.
  - apply (proj1 (proj2 (@score_needs_examples recognizer (mkScorer ["ab"] []) seed_ab))
             eq_refl seed_ab).
    reflexivity.
Defined.

(** Counterexample to C10 as stated: with a positive example to try and
    no negative one, a grammar that does not compile makes [score] raise
    the engine's error, not [ZeroDivisionError]. *)
Lemma score_empty_negatives_other_error :
  negatives (mkScorer ["a"] []) = [] /\
  score (mkScorer ["a"] []) undefined_entry = Raise GrammarError /\
  score (mkScorer ["a"] []) undefined_entry <> Raise ZeroDivisionError.
Proof. repeat split; try reflexivity. discriminate. Qed.

(** ** Seed builder *)

Ltac solve_NoDup :=
  repeat (constructor; [simpl; intuition discriminate |]); constructor.

Lemma seed_ab_wf : wf_grammar seed_ab.
Proof.
  split; [unfold keys; simpl; solve_NoDup |].
  exists "t0", [], [], (tl (rules seed_ab)). reflexivity.
Qed.

(** The seed for the guides [ab] and [ac]: three leaves, two bodies. *)
Example init_grammar_ab_ac :
  init_grammar ["ab"; "ac"]
  = Ok (mkGrammar [mkRule "start" [["t0"]];
                   mkRule "t1" [[quoted "a"]];
                   mkRule "t2" [[quoted "b"]];
                   mkRule "t3" [[quoted "c"]];
                   mkRule "t0" [["t1"; "t2"]; ["t1"; "t3"]]]).
Proof. reflexivity. Qed.

Example seed_ab_ac_language :
  let g := mkGrammar [mkRule "start" [["t0"]];
                      mkRule "t1" [[quoted "a"]];
                      mkRule "t2" [[quoted "b"]];
                      mkRule "t3" [[quoted "c"]];
                      mkRule "t0" [["t1"; "t2"]; ["t1"; "t3"]]] in
  map (parses g) ["ab"; "ac"; "ba"; "abc"] = [Ok true; Ok true; Ok false; Ok false].
Proof. reflexivity. Qed.

(** ** Population *)

(** One draw per decision: the parent, the cascade length, the operator
    (Repeat), then the site of Repeat: the rule [t2], its body, its only
    position. *)
Definition demo_tape : nat -> nat := tape_of [0; 0; 3; 1; 0; 0].

Definition state_of (r : result (SearchState * nat)) : SearchState :=
  match r with
  | Ok (st, _) => st
  | Raise _ => mkState [] 0 0
  end.

(** The state after one generation on the guide [ab]: the mutant that
    repeats [b] accepts both positives and enters the population. *)
Definition demo_state : SearchState :=
  Eval vm_compute in state_of (search_loop demo_tape 1 ["ab"] ["ab"; "abb"] ["ba"] 0).

Example demo_state_scores :
  map (fun e => (entry_id e, entry_score e)) (population demo_state)
  = [(0, (1 # 2)%Q); (1, 1%Q)]
  /\ minimum_score demo_state = (1 # 2)%Q.
Proof. split; reflexivity. Qed.

(** Witness of C4: the invariant on the state reached after one
    generation. *)
Lemma population_invariant_witness :
  pop_inv demo_state /\
  forall i' j' st',
    generation demo_tape (mkScorer ["ab"; "abb"] ["ba"]) demo_state i' = Ok (st', j') ->
    pop_inv st' /\ (unchanged demo_state st' \/ admitted demo_state st').
Proof.
  apply (population_invariant demo_tape 1 ["ab"] ["ab"; "abb"] ["ba"] 0 6 demo_state).
  vm_compute. reflexivity.
Defined.

(** ** Repeat *)

(** The seed for the single empty guide: the entry rule has one body, the
    empty one. *)
Definition seed_empty_guide : Grammar :=
  mkGrammar [mkRule "start" [["t0"]]; mkRule "t0" [[]]].

Example init_grammar_empty_guide : init_grammar [""] = Ok seed_empty_guide.
Proof. reflexivity. Qed.

Lemma seed_empty_guide_wf : wf_grammar seed_empty_guide.
Proof.
  split; [unfold keys; simpl; solve_NoDup |].
  exists "t0", [], [], (tl (rules seed_empty_guide)). reflexivity.
Qed.

(** Witness of C7: Repeat on the seed for [ab]; the draws select the only
    position of the body of [t2]. *)
Lemma mutate_repeat_spec_witness :
  (forall k bi i x,
     choose_site 1 0 0 seed_ab = Ok (k, bi, i, x) ->
     exists (R : Symbol) (rule : Rule) (body : Body),
       ~ In R (keys seed_ab) /\
       In rule (rules seed_ab) /\ start rule = k /\ k <> "start" /\
       nth_error (bodies rule) bi = Some body /\ nth_error body i = Some x /\
       mutate_repeat 1 0 0 seed_ab
       = Ok (mkGrammar
               (map (fun r => if String.eqb (start r) k
                              then mkRule k (set_nth bi (set_nth i R body) (bodies r))
                              else r)
                    (rules seed_ab)
                ++ [mkRule R [[x]; [x; R]]]))) /\
  ((exists rule, In rule (rules seed_ab) /\ start rule <> "start" /\ bodies rule <> []) ->
   (forall rule body,
      In rule (rules seed_ab) -> start rule <> "start" -> In body (bodies rule) ->
      body <> []) ->
   exists site, choose_site 1 0 0 seed_ab = Ok site).
Proof. apply (mutate_repeat_spec 1 0 0 seed_ab). exact seed_ab_wf. Defined.

Example choose_site_seed_ab : choose_site 1 0 0 seed_ab = Ok ("t2", 0, 0, quoted "b").
Proof. reflexivity. Qed.

Example mutate_repeat_seed_ab :
  mutate_repeat 1 0 0 seed_ab
  = Ok (mkGrammar [mkRule "start" [["t0"]];
                   mkRule "t1" [[quoted "a"]];
                   mkRule "t2" [["t3"]];
                   mkRule "t0" [["t1"; "t2"]];
                   mkRule "t3" [[quoted "b"]; [quoted "b"; "t3"]]]).
Proof. reflexivity. Qed.

(** Counterexample to C7 as stated: the seed for the empty guide has a
    non-empty body, the one of [start], and no draw makes [mutate_repeat]
    return on it: the only body a site could be taken from is empty. *)
Lemma mutate_repeat_no_site :
  (exists rule body,
     In rule (rules seed_empty_guide) /\ In body (bodies rule) /\ body <> []) /\
  ~ (exists r_key r_body r_idx g',
       mutate_repeat r_key r_body r_idx seed_empty_guide = Ok g').
Proof.
  split.
  - exists (mkRule "start" [["t0"]]), ["t0"].
    split; [left; reflexivity |]. split; [left; reflexivity | discriminate].
  - intros [r_key [r_body [r_idx [g' H]]]].
    apply mutate_repeat_ok_site in H. destruct H as [[[[k bi] i] x] H].
    pose proof seed_empty_guide_wf as [Hnd _].
    destruct (choose_site_ok _ _ _ _ _ _ _ _ Hnd H)
      as [nts [rule [body [_ [_ [_ [_ [_ [Hin [Hstart [Hne [Hbody Hx]]]]]]]]]]]].
    simpl in Hin. destruct Hin as [<- | [<- | []]].
    + apply Hne. symmetry. exact Hstart.
    + simpl in Hbody. destruct bi as [| bi].
      * injection Hbody as <-. destruct i; discriminate Hx.
      * destruct bi; discriminate Hbody.
Qed.

Example mutate_repeat_empty_guide :
  mutate_repeat 0 0 0 seed_empty_guide = Raise IndexError.
Proof. reflexivity. Qed.

(** ** Bubble *)


Example mutate_bubble_seed_ab :
  all_sequences seed_ab = [["t1"]; ["t2"]] /\
  mutate_bubble 0 seed_ab
  = Ok (mkGrammar [mkRule "start" [["t0"]];
                   mkRule "t1" [[quoted "a"]];
                   mkRule "t2" [[quoted "b"]];
                   mkRule "t0" [["t3"; "t2"]];
                   mkRule "t3" [["t1"]]]).
Proof. split; reflexivity. Qed.

(** A grammar none of whose bodies has two symbols is copied. *)
Example mutate_bubble_copy :
  mutate_bubble 0 seed_empty_guide = Ok seed_empty_guide.
Proof. reflexivity. Qed.

(** An occurrence that is not contiguous. *)
Example replace_all_gap :
  In ["t1"; "t3"] (strict_subsequences ["t1"; "t2"; "t3"]) /\
  replace_all ["t1"; "t2"; "t3"] ["t1"; "t3"] "t9" = ["t9"; "t2"] /\
  replace_all ["t3"; "t1"] ["t1"; "t3"] "t9" = ["t3"; "t1"].
Proof. repeat split. simpl. auto. Qed.

(** ** Coalesce *)

(** C5 (the code at the failing input): on the seed for the guide [a],
    which has the two nonterminals [t1] and [t0] besides [start],
    [mutate_coalesce] raises [IndexError] whatever the draws: the count is
    drawn from [range(2, min(6, 2))], which is empty. *)
Theorem mutate_coalesce_two_nonterminals (r_num : nat) (r_sample : nat -> nat) :
  list_remove "start" (keys seed_a) = Ok ["t1"; "t0"] /\
  mutate_coalesce r_num r_sample seed_a = Raise IndexError.
Proof. split; reflexivity. Qed.

(** With three nonterminals the count is always 2. *)
Example mutate_coalesce_seed_ab :
  mutate_coalesce 7 (fun _ => 0) seed_ab
  = Ok (mkGrammar [mkRule "start" [["t0"]];
                   mkRule "t1" [[quoted "a"]];
                   mkRule "t2" [[quoted "b"]];
                   mkRule "t0" [["t3"; "t3"]];
                   mkRule "t3" [[quoted "a"]; [quoted "b"]]]).
Proof. reflexivity. Qed.

(** ** Alternate *)

(** The seed for [a] after Repeat at the body of [t1]: the terminal [a]
    now occurs twice. *)
Definition repeated_a : Grammar :=
  mkGrammar [mkRule "start" [["t0"]];
             mkRule "t1" [["t2"]];
             mkRule "t0" [["t1"]];
             mkRule "t2" [[quoted "a"]; [quoted "a"; "t2"]]].

(** C6 (the code at the failing input): on the grammar Repeat makes of the
    seed for [a], with the site at the only position of the body ["a"] of
    [t2], the list of alternates still holds the terminal ["a"] after
    [remove] has dropped its first occurrence, and a draw that lands on it
    appends a body equal to the original one. *)
Theorem mutate_alternate_same_symbol :
  mutate_repeat 0 0 0 seed_a = Ok repeated_a /\
  choose_site 2 0 0 repeated_a = Ok ("t2", 0, 0, quoted "a") /\
  mutate_alternate 2 0 0 0 repeated_a
  = Ok (mkGrammar [mkRule "start" [["t0"]];
                   mkRule "t1" [["t2"]];
                   mkRule "t0" [["t1"]];
                   mkRule "t2" [[quoted "a"]; [quoted "a"; "t2"]; [quoted "a"]]]).
Proof. repeat split; reflexivity. Qed.

(** A draw that lands on another alternate replaces the symbol. *)
Example mutate_alternate_other_symbol :
  mutate_alternate 2 0 0 1 repeated_a
  = Ok (mkGrammar [mkRule "start" [["t0"]];
                   mkRule "t1" [["t2"]];
                   mkRule "t0" [["t1"]];
                   mkRule "t2" [[quoted "a"]; [quoted "a"; "t2"]; ["t1"]]]).
Proof. reflexivity. Qed.

(** ** Search *)

(** C1 (the code at the failing input): with guides [ab], positives [ab]
    and negatives [ba], [search] runs its thirty generations, the seed
    with score 1 remaining the best entry, and evaluates to [None], not to
    a grammar. *)
Theorem search_returns_no_grammar :
  search (tape_of []) ["ab"] ["ab"] ["ba"] 0 = Ok (None, 120) /\
  population (state_of (search_loop (tape_of []) 30 ["ab"] ["ab"] ["ba"] 0))
  = [(seed_ab, 0, 1%Q)].
Proof. split; vm_compute; reflexivity. Qed.

(** ** Further runs *)

Lemma seed_a_wf : wf_grammar seed_a.
Proof.
  split; [unfold keys; simpl; solve_NoDup |].
  exists "t0", [], [], (tl (rules seed_a)). reflexivity.
Qed.

Lemma repeated_a_wf : wf_grammar repeated_a.
Proof.
  split; [unfold keys; simpl; solve_NoDup |].
  exists "t0", [], [], (tl (rules repeated_a)). reflexivity.
Qed.

(** Witness of X1: Coalesce on the seed for [ab], which has three rules
    besides [start]. *)
Lemma mutate_coalesce_spec_witness :
  exists (k : nat) (to_coalesce : list string) (replacer_id : string),
    2 <= k <= 5 /\ k < List.length (keys seed_ab) - 1 /\
    List.length to_coalesce = k /\ NoDup to_coalesce /\
    (forall name, In name to_coalesce -> In name (keys seed_ab) /\ name <> "start") /\
    ~ In replacer_id (keys seed_ab) /\
    mutate_coalesce 7 (fun _ => 0) seed_ab
    = Ok (mkGrammar
            (map (fun rule =>
                    mkRule (start rule)
                      (map (map (fun e => if mem e to_coalesce then replacer_id else e))
                           (bodies rule)))
                 (rules seed_ab)
             ++ [mkRule replacer_id (flat_map (bodies_of seed_ab) to_coalesce)])).
Proof.
  apply (mutate_coalesce_spec 7 (fun _ => 0) seed_ab seed_ab_wf).
  vm_compute. repeat constructor.
Defined.

(** Witness of X5: with two rules besides [start] no count can be drawn. *)
Lemma mutate_coalesce_too_few_witness :
  mutate_coalesce 0 (fun _ => 0) seed_a = Raise IndexError.
Proof.
  apply (mutate_coalesce_too_few 0 (fun _ => 0) seed_a ["t1"; "t0"] seed_a_wf).
  - reflexivity.
  - simpl. lia.
Defined.

(** Witness of X2: Alternate on the grammar with two occurrences of
    ["a"], the draw landing on the rule name [t1]. *)
Lemma mutate_alternate_spec_witness :
  exists (k : string) (bi i : nat) (x alternate : Symbol) (rule : Rule) (body : Body),
    choose_site 2 0 0 repeated_a = Ok (k, bi, i, x) /\
    In rule (rules repeated_a) /\ start rule = k /\ k <> "start" /\
    nth_error (bodies rule) bi = Some body /\ nth_error body i = Some x /\
    (In alternate (terminals_of repeated_a (keys repeated_a)) \/
     (In alternate (keys repeated_a) /\ alternate <> "start")) /\
    mkGrammar [mkRule "start" [["t0"]];
               mkRule "t1" [["t2"]];
               mkRule "t0" [["t1"]];
               mkRule "t2" [[quoted "a"]; [quoted "a"; "t2"]; ["t1"]]]
    = mkGrammar
        (map (fun r => if String.eqb (start r) k
                       then mkRule (start r) (bodies r ++ [set_nth i alternate body])
                       else r)
             (rules repeated_a)).
Proof.
  apply (mutate_alternate_spec 2 0 0 1 repeated_a _ repeated_a_wf). reflexivity.
Defined.

(** Witness of X3: the grammars of the population after one generation. *)
Lemma population_well_formed_witness :
  Forall (fun e => wf_grammar (entry_grammar e)) (population demo_state).
Proof.
  apply (population_well_formed demo_tape 1 ["ab"] ["ab"; "abb"] ["ba"] 0 6 demo_state).
  vm_compute. reflexivity.
Defined.

(** A complete call of [search]. *)
Lemma search_returns_None_witness :
  @None Grammar = None /\
  exists st k, search_loop demo_tape 30 ["ab"] ["ab"; "abb"] ["ba"] 0 = Ok (st, k).
Proof.
  apply (search_returns_None demo_tape ["ab"] ["ab"; "abb"] ["ba"] 0 122 None).
  vm_compute. reflexivity.
Defined.

(** ** Scorer: further runs *)

(** The mutant of the seed for [ab] that repeats [b]. *)
Definition repeated_b : Grammar :=
  mkGrammar [mkRule "start" [["t0"]];
             mkRule "t1" [[quoted "a"]];
             mkRule "t2" [["t3"]];
             mkRule "t0" [["t1"; "t2"]];
             mkRule "t3" [[quoted "b"]; [quoted "b"; "t3"]]].

(** Witness of X7: the seed for [ab] scored against the wrong examples
    parses no positive and the only negative, and sits on the floor
    [0.5 * 0.5]. *)
Lemma score_floor_witness :
  (0 < rnd (rnd ((1 # 2) / float_of_nat 1) * rnd ((1 # 2) / float_of_nat 1)))%Q /\
  (rnd (rnd ((1 # 2) / float_of_nat 1) * rnd ((1 # 2) / float_of_nat 1)) <= 1 # 4)%Q /\
  ((1 # 4) == rnd (rnd ((1 # 2) / float_of_nat 1) * rnd ((1 # 2) / float_of_nat 1)))%Q /\
  @matched recognizer seed_ab ["ba"] = 0 /\ @matched recognizer seed_ab ["ab"] = 1.
Proof.
  pose proof (@score_floor recognizer (mkScorer ["ba"] ["ab"]) seed_ab seed_ab (1 # 4)
                eq_refl eq_refl) as [H1 [H2 [H3 H4]]].
  split; [exact H1 |]. split; [exact H2 |].
  split; [exact (H3 (conj eq_refl eq_refl)) |].
  apply H4; [vm_compute; discriminate | exact (H3 (conj eq_refl eq_refl))].
Defined.

(** Witness of X8: the seed for [ab] is perfect on [ab] against [ba], and
    its score is good. *)
Lemma score_is_good_iff_perfect_witness :
  score_is_good 1 = true /\
  @matched recognizer seed_ab ["ab"] = 1 /\ @matched recognizer seed_ab ["ba"] = 0.
Proof.
  pose proof (@score_is_good_iff_perfect recognizer (mkScorer ["ab"] ["ba"]) seed_ab seed_ab 1
                eq_refl eq_refl) as [H1 H2].
  split; [exact (H1 (conj eq_refl eq_refl)) |].
  apply H2; [vm_compute; discriminate | vm_compute; discriminate |].
  exact (H1 (conj eq_refl eq_refl)).
Defined.

(** One accepted example followed by [n] rejected ones. *)
Lemma matched_repeat_ba (n : nat) : @matched recognizer seed_ab (repeat "ba" n) = 0.
Proof.
  induction n as [| n IH]; [reflexivity |].
  change (repeat "ba" (S n)) with (["ba"] ++ repeat "ba" n)%list.
  rewrite matched_app, IH. reflexivity.
Qed.

Lemma matched_one_of_many (n : nat) :
  @matched recognizer seed_ab ("ab" :: repeat "ba" n) = 1.
Proof.
  change ("ab" :: repeat "ba" n) with (["ab"] ++ repeat "ba" n)%list.
  rewrite matched_app, matched_repeat_ba. reflexivity.
Qed.

Lemma length_one_of_many (n : nat) :
  Z.of_nat (List.length ("ab" :: repeat "ba" n)) = (Z.of_nat n + 1)%Z.
Proof. cbn [List.length]. rewrite repeat_length. lia. Qed.

Lemma two_pow_54_pred : Z.of_nat (2 ^ 54 - 1) = 18014398509481983%Z.
Proof.
  rewrite Nat2Z.inj_sub
    by (apply Nat.le_succ_l, Nat.neq_0_lt_0, Nat.pow_nonzero; discriminate).
  rewrite Nat2Z.inj_pow. reflexivity.
Qed.

(** Beyond [2^53] entries a good score no longer tells a perfect grammar:
    against [2^54] negatives of which it parses exactly one, the seed for
    [ab] still scores 1.0, because [1 - 1/2^54] rounds to 1.0. *)
Example good_score_of_imperfect_grammar :
  @matched recognizer seed_ab ("ab" :: repeat "ba" (2 ^ 54 - 1)) = 1 /\
  Z.of_nat (List.length ("ab" :: repeat "ba" (2 ^ 54 - 1))) = (2 ^ 54)%Z /\
  exists s,
    score (mkScorer ["ab"] ("ab" :: repeat "ba" (2 ^ 54 - 1))) seed_ab = Ok s /\
    score_is_good s = true.
Proof.
  assert (Hl : Z.of_nat (List.length ("ab" :: repeat "ba" (2 ^ 54 - 1)))
               = 18014398509481984%Z)
    by (rewrite length_one_of_many, two_pow_54_pred; reflexivity).
  split; [apply matched_one_of_many |]. split; [exact Hl |].
  destruct (@score_compiled recognizer
              (mkScorer ["ab"] ("ab" :: repeat "ba" (2 ^ 54 - 1))) seed_ab seed_ab
              eq_refl) as [s [Hs Heq]]; [discriminate | discriminate |].
  exists s. split; [exact Hs |].
  unfold score_is_good. apply Qle_bool_iff. rewrite Heq.
  cbn [positives negatives]. rewrite matched_one_of_many.
  unfold float_negative_part, float_of_nat. rewrite Hl.
  vm_compute. intros H. discriminate H.
Qed.

(** Witness of X9: repeating [b] lets the grammar parse [abb] as well. *)
Lemma score_monotone_witness :
  score (mkScorer ["ab"; "abb"] ["ba"]) seed_ab = Ok (1 # 2)%Q /\
  score (mkScorer ["ab"; "abb"] ["ba"]) repeated_b = Ok 1%Q /\
  ((1 # 2) <= 1)%Q.
Proof.
  split; [vm_compute; reflexivity |]. split; [vm_compute; reflexivity |].
  apply (@score_monotone recognizer (mkScorer ["ab"; "abb"] ["ba"])
           seed_ab repeated_b seed_ab repeated_b (1 # 2) 1);
    try reflexivity; vm_compute; lia.
Defined.

(** ** Population: further runs *)

Lemma demo_state_inv : pop_inv demo_state.
Proof.
  apply (search_loop_inv demo_tape 1 ["ab"] ["ab"; "abb"] ["ba"] 0 6 demo_state).
  vm_compute. reflexivity.
Qed.

(** The population of [demo_state] after a third grammar, of score 3/4,
    is admitted. *)
Definition admitted_state : SearchState :=
  Eval vm_compute in
    match add_to_population seed_a (3 # 4) 2 demo_state with
    | Ok st => st
    | Raise _ => demo_state
    end.

Example admitted_state_scores :
  map (fun e => (entry_id e, entry_score e)) (population admitted_state)
  = [(0, (1 # 2)%Q); (2, (3 # 4)%Q); (1, 1%Q)].
Proof. reflexivity. Qed.

(** Witness of X11: a newcomer of score 3/4 goes between the two entries
    of [demo_state]. *)
Lemma admission_evicts_lowest_witness :
  In (seed_a, 2, (3 # 4)%Q) (population admitted_state) /\
  (List.length (population demo_state) < POPULATION_SIZE ->
   Permutation (population admitted_state)
     ((seed_a, 2, (3 # 4)%Q) :: population demo_state)) /\
  (List.length (population demo_state) = POPULATION_SIZE ->
   exists lowest,
     hd_error (population demo_state) = Some lowest /\
     Permutation (lowest :: population admitted_state)
       ((seed_a, 2, (3 # 4)%Q) :: population demo_state) /\
     Forall (fun e => (entry_score lowest <= entry_score e)%Q)
       (population admitted_state)).
Proof.
  apply (admission_evicts_lowest seed_a (3 # 4) 2 demo_state admitted_state).
  - exact demo_state_inv.
  - reflexivity.
  - reflexivity.
Defined.

(** Witness of X12: generation 1 of the demo run against generation 0. *)
Lemma search_progress_witness :
  exists st j,
    search_loop demo_tape 0 ["ab"] ["ab"; "abb"] ["ba"] 0 = Ok (st, j) /\
    (minimum_score st <= minimum_score demo_state)%Q /\
    List.length (population st) <= List.length (population demo_state) /\
    exists b b', best_score st = Ok b /\ best_score demo_state = Ok b' /\ (b <= b')%Q.
Proof.
  apply (search_progress demo_tape 0 1 ["ab"] ["ab"; "abb"] ["ba"] 0 6 demo_state).
  vm_compute. reflexivity.
Defined.

(** Witness of X13: the ids after one generation. *)
Lemma search_ids_witness :
  cur_gram_id demo_state = 1 /\
  NoDup (map entry_id (population demo_state)) /\
  Forall (fun e => entry_id e <= 1) (population demo_state) /\
  List.length (population demo_state) <= 1 + 1.
Proof.
  apply (search_ids demo_tape 1 ["ab"] ["ab"; "abb"] ["ba"] 0 6 demo_state).
  vm_compute. reflexivity.
Defined.

(** Witness of X14: the scores after one generation. *)
Lemma population_scores_bounded_witness :
  Forall (fun e => (0 < entry_score e <= 1)%Q) (population demo_state) /\
  (0 < minimum_score demo_state <= 1)%Q.
Proof.
  apply (population_scores_bounded demo_tape 1 ["ab"] ["ab"; "abb"] ["ba"] 0 6 demo_state).
  vm_compute. reflexivity.
Defined.

(** Witness of X15: the seed for [ab] is perfect on [ab] against [ba];
    thirty generations later it is still alone. *)
Lemma good_population_is_frozen_witness :
  population (mkState [(seed_ab, 0, 1%Q)] 1 30) = population (mkState [(seed_ab, 0, 1%Q)] 1 0) /\
  minimum_score (mkState [(seed_ab, 0, 1%Q)] 1 30) = minimum_score (mkState [(seed_ab, 0, 1%Q)] 1 0).
Proof.
  apply (good_population_is_frozen (tape_of []) 0 30 ["ab"] ["ab"] ["ba"] 0 0 120
           (mkState [(seed_ab, 0, 1%Q)] 1 0) (mkState [(seed_ab, 0, 1%Q)] 1 30)).
  - reflexivity.
  - reflexivity.
  - vm_compute. reflexivity.
Defined.

(** ** Operators: further runs *)

(** Witness of X17: Repeat on the seed for [ab]. *)
Lemma mutate_repeat_outcomes_witness :
  (exists g', mutate_repeat 1 0 0 seed_ab = Ok g') \/
  (mutate_repeat 1 0 0 seed_ab = Raise IndexError /\ keys seed_ab = ["start"]) \/
  (mutate_repeat 1 0 0 seed_ab = Raise ZeroDivisionError /\
   keys seed_ab <> ["start"] /\
   forall rule, In rule (rules seed_ab) -> start rule <> "start" -> bodies rule = []) \/
  (mutate_repeat 1 0 0 seed_ab = Raise IndexError /\
   exists rule, In rule (rules seed_ab) /\ start rule <> "start" /\ In [] (bodies rule)).
Proof. apply (mutate_repeat_outcomes 1 0 0 seed_ab). exact seed_ab_wf. Defined.

(** The seed for no guide at all: [t0] has no body. *)
Definition seed_no_guide : Grammar :=
  mkGrammar [mkRule "start" [["t0"]]; mkRule "t0" []].

Example init_grammar_no_guide : init_grammar [] = Ok seed_no_guide.
Proof. reflexivity. Qed.

Example operators_on_no_guide :
  mutate_repeat 0 0 0 seed_no_guide = Raise ZeroDivisionError /\
  mutate_alternate 0 0 0 0 seed_no_guide = Raise ZeroDivisionError /\
  mutate_repeat 0 0 0 (Grammar_new "t0") = Raise IndexError.
Proof. repeat split; reflexivity. Qed.

(** Witness of X18: Alternate on the grammar with two occurrences of
    ["a"]: two terminal occurrences and three rules besides [start]. *)
Lemma mutate_alternate_outcomes_witness :
  (quoted "a" = "start" -> mutate_alternate 2 0 0 1 repeated_a = Raise ValueError) /\
  (quoted "a" <> "start" ->
   List.length (terminals_of repeated_a (keys repeated_a))
   + (List.length (keys repeated_a) - 1) = 1 ->
   mutate_alternate 2 0 0 1 repeated_a = Raise IndexError) /\
  (quoted "a" <> "start" ->
   2 <= List.length (terminals_of repeated_a (keys repeated_a))
        + (List.length (keys repeated_a) - 1) ->
   exists g', mutate_alternate 2 0 0 1 repeated_a = Ok g').
Proof. exact (mutate_alternate_outcomes 2 0 0 1 repeated_a repeated_a_wf). Defined.

(** A body that mentions [start] makes [remove] fail; a grammar whose
    only candidate is the selected symbol leaves nothing to draw. *)
Example mutate_alternate_failures :
  mutate_alternate 0 0 0 0
    (mkGrammar [mkRule "start" [["t0"]]; mkRule "t0" [["start"]]]) = Raise ValueError /\
  mutate_alternate 0 0 0 0
    (mkGrammar [mkRule "start" [["t0"]]; mkRule "t0" [["t0"]]]) = Raise IndexError.
Proof. split; reflexivity. Qed.

(** Witness of X19: Bubble on the seed for [ab]. *)
Lemma mutate_bubble_total_witness :
  exists g', mutate_bubble 0 seed_ab = Ok g' /\ wf_grammar g'.
Proof. apply (mutate_bubble_total 0 seed_ab). exact seed_ab_wf. Defined.

(** Witness of X20: the rule names of the seed for [ab] in the grammar
    Repeat makes of it. *)
Lemma operators_keep_rule_names_witness :
  (forall r, mutate_bubble r seed_ab = Ok repeated_b ->
     keys repeated_b = keys seed_ab \/
     exists name, ~ In name (keys seed_ab) /\ keys repeated_b = (keys seed_ab ++ [name])%list) /\
  (forall r_num r_sample, mutate_coalesce r_num r_sample seed_ab = Ok repeated_b ->
     exists name, ~ In name (keys seed_ab) /\ keys repeated_b = (keys seed_ab ++ [name])%list) /\
  (forall r_key r_body r_idx r_alt,
     mutate_alternate r_key r_body r_idx r_alt seed_ab = Ok repeated_b ->
     keys repeated_b = keys seed_ab) /\
  (forall r_key r_body r_idx, mutate_repeat r_key r_body r_idx seed_ab = Ok repeated_b ->
     exists name, ~ In name (keys seed_ab) /\ keys repeated_b = (keys seed_ab ++ [name])%list).
Proof. apply (operators_keep_rule_names seed_ab repeated_b). exact seed_ab_wf. Defined.

Example repeat_keeps_rule_names :
  mutate_repeat 1 0 0 seed_ab = Ok repeated_b /\
  keys repeated_b = (keys seed_ab ++ ["t3"])%list.
Proof. split; reflexivity. Qed.

(** Witness of X21: the bodies of [t2] in the seed for [ab] and in the
    grammar Repeat makes of it. *)
Lemma operators_keep_bodies_witness :
  (forall r, mutate_bubble r seed_ab = Ok repeated_b ->
     body_count repeated_b "t2" = body_count seed_ab "t2") /\
  (forall r_num r_sample, mutate_coalesce r_num r_sample seed_ab = Ok repeated_b ->
     body_count repeated_b "t2" = body_count seed_ab "t2") /\
  (forall r_key r_body r_idx r_alt,
     mutate_alternate r_key r_body r_idx r_alt seed_ab = Ok repeated_b ->
     body_count seed_ab "t2" <= body_count repeated_b "t2" <= S (body_count seed_ab "t2")) /\
  (forall r_key r_body r_idx, mutate_repeat r_key r_body r_idx seed_ab = Ok repeated_b ->
     body_count repeated_b "t2" = body_count seed_ab "t2").
Proof.
  apply (operators_keep_bodies seed_ab repeated_b "t2").
  - exact seed_ab_wf.
  - simpl. auto.
Defined.

(** Witness of X22: the cascade of the demo run, one Repeat. *)
Lemma cascade_keeps_rule_names_witness :
  wf_grammar repeated_b /\
  exists extra, keys repeated_b = (keys seed_ab ++ extra)%list /\ List.length extra <= 1.
Proof.
  apply (cascade_keeps_rule_names demo_tape 1 seed_ab repeated_b 2 6).
  - exact seed_ab_wf.
  - reflexivity.
Defined.

(** Witness of X23: the rule names in the population after one
    generation. *)
Lemma population_keeps_seed_rules_witness :
  Forall (fun e => exists extra,
            keys (entry_grammar e) = (keys seed_ab ++ extra)%list /\
            List.length extra <= 16 * entry_id e)
         (population demo_state).
Proof.
  apply (population_keeps_seed_rules demo_tape 1 ["ab"] ["ab"; "abb"] ["ba"] 0 6
           demo_state seed_ab).
  - reflexivity.
  - vm_compute. reflexivity.
Defined.

(** ** Failures: further runs *)

(** Witness of X24: the operators on the seed for [a], and a cascade whose
    only mutation is Coalesce. *)
Lemma cascade_failures_witness :
  ((forall r, exists g', mutate_bubble r seed_a = Ok g') /\
   (forall r_num r_sample e,
      mutate_coalesce r_num r_sample seed_a = Raise e -> e = IndexError) /\
   (forall r_key r_body r_idx e,
      mutate_repeat r_key r_body r_idx seed_a = Raise e ->
      e = IndexError \/ e = ZeroDivisionError) /\
   (forall r_key r_body r_idx r_alt e,
      mutate_alternate r_key r_body r_idx r_alt seed_a = Raise e ->
      e = IndexError \/ e = ZeroDivisionError \/ e = ValueError) /\
   (forall e,
      cascade (tape_of [1]) 1 seed_a 0 = Raise e ->
      e = IndexError \/ e = ZeroDivisionError \/ e = ValueError)) /\
  cascade (tape_of [1]) 1 seed_a 0 = Raise IndexError /\
  (IndexError = IndexError \/ IndexError = ZeroDivisionError \/ IndexError = ValueError).
Proof.
  pose proof (cascade_failures (tape_of [1]) 1 seed_a 0 seed_a_wf) as H.
  split; [exact H |]. split; [reflexivity |].
  destruct H as [_ [_ [_ [_ H]]]]. apply H. reflexivity.
Defined.

(** Witness of X26: the first generation on the guide [a], with Coalesce
    drawn as the only mutation: the cascade raises [IndexError]. *)
Lemma generation_failures_witness :
  generation (tape_of [0; 0; 1]) (mkScorer ["a"] ["b"])
    (mkState [(seed_a, 0, 1%Q)] 1 0) 0 = Raise IndexError /\
  exists (parent : Entry) (num : nat),
    choose (tape_of [0; 0; 1]) [(seed_a, 0, 1%Q)] 0 = Ok (parent, 1) /\
    In parent [(seed_a, 0, 1%Q)] /\
    choose (tape_of [0; 0; 1]) [1; 2; 4; 8; 16] 1 = Ok (num, 2) /\
    score (mkScorer ["a"] ["b"]) (entry_grammar parent) = Ok (entry_score parent) /\
    ((cascade (tape_of [0; 0; 1]) num (entry_grammar parent) 2 = Raise IndexError /\
      (IndexError = IndexError \/ IndexError = ZeroDivisionError
       \/ IndexError = ValueError)) \/
     (exists (mutant : Grammar) (k : nat),
        cascade (tape_of [0; 0; 1]) num (entry_grammar parent) 2 = Ok (mutant, k) /\
        Grammar_parser mutant = Raise IndexError /\
        score (mkScorer ["a"] ["b"]) mutant = Raise IndexError)).
Proof.
  split; [vm_compute; reflexivity |].
  apply (generation_failures (tape_of [0; 0; 1]) 0 ["a"] ["a"] ["b"] 0 0
           (mkState [(seed_a, 0, 1%Q)] 1 0) IndexError).
  - vm_compute. reflexivity.
  - vm_compute. reflexivity.
Defined.
